(** * Loop-invariant code motion (p3.cpp): a shallow embedding and its properties

    The development follows [src/p3.cpp].  The functions of the pass
    ([hoistInstructionToPreheader], [AreAllOperandsLoopInvaraint],
    [NoPossibleStoresToAnyAddressInLoop], [NoPossibleStoresToAddressInLoop],
    [CanMoveOutofLoop], [updateStats], [NotALoadOrStore], [OptimizeLoop2],
    [RunLICMBasic], [LoopInvariantCodeMotion]), the two tests the pass does
    not call ([AllocaNotInLoop], [dominatesLoopExit]), the statistics on the
    module ([summarize]) and the statistics file ([print_csv_file]) are
    translated one by one and keep their names.
    The LLVM library calls they make ([Loop::contains],
    [Loop::isLoopInvariant], [Loop::makeLoopInvariant], [Loop::getExitBlocks],
    [BasicBlock::getTerminator], [Instruction::moveBefore],
    [DominatorTree::dominates], [isa<...>]) are modelled after LLVM 13, the
    version the Makefile builds against; each such definition says so. *)

From Stdlib Require Import List ZArith NArith Bool Lia Permutation.
From Stdlib Require String Ascii DecimalString DecimalN.
Import ListNotations.

Set Warnings "-register-all".

(** * Part I: the program *)

(** ** The IR as the pass sees it *)

(** A [BasicBlock*] and an [Instruction*] are pointers: identities that can be
    compared, and (for instructions) ordered, since the worklist of
    [OptimizeLoop2] is a [std::set<Instruction*>]. *)
Definition BlockRef := N.
Definition InstRef := N.

(** [llvm::Value]: what an operand can point to. *)
Inductive Value : Type :=
| Constant (c : Z)
| Argument (n : N)
| GlobalVariable (g : N)
| BlockLabel (b : BlockRef)
| FunctionRef (f : N)
| InstResult (i : InstRef).

(** Opcodes of the instructions that are neither loads, stores, allocas nor
    calls.  An [atomicrmw] has the operands (pointer, value). *)
Inductive Opcode : Type :=
| OpRet | OpBr | OpSwitch | OpUnreachable
| OpPHI
| OpAdd | OpSub | OpMul | OpUDiv
| OpICmp | OpSelect | OpGetElementPtr | OpCast
| OpAtomicRMW.

(** The subclasses of [llvm::Instruction] the pass distinguishes with [isa<>].
    A [StoreInst] has exactly the operands (value, pointer) and a [LoadInst]
    exactly (pointer), as in LLVM.  A call carries what the attributes of
    its callee say: whether it is speculatable, whether it may read memory
    and whether it may write memory. *)
Inductive InstKind : Type :=
| LoadInst (volatile : bool) (pointer : Value)
| StoreInst (volatile : bool) (value pointer : Value)
| AllocaInst (arraySize : Value)
| CallInst (speculatable readsMemory writesMemory : bool) (args : list Value)
    (callee : Value)
| Generic (op : Opcode) (ops : list Value).

Record Instruction : Type := mkInst { ptr : InstRef; kind : InstKind }.

Record BasicBlock : Type := mkBlock { label : BlockRef; insts : list Instruction }.

(** [llvm::Loop], as produced by [LoopInfo]: the optional preheader, the blocks
    of the loop (sub-loop blocks included) and the directly nested loops. *)
Inductive Loop : Type :=
| mkLoop (preheader : option BlockRef) (blocks : list BlockRef) (subLoops : list Loop).

Definition getLoopPreheader (L : Loop) : option BlockRef :=
  match L with mkLoop ph _ _ => ph end.
Definition getBlocks (L : Loop) : list BlockRef :=
  match L with mkLoop _ bs _ => bs end.
Definition getSubLoops (L : Loop) : list Loop :=
  match L with mkLoop _ _ ss => ss end.

(** A function body together with the loop forest [LoopInfo::analyze] computes
    for it (its top-level loops). *)
Record Function : Type := mkFunction { fbody : list BasicBlock; floops : list Loop }.

Definition Module := list Function.

(** ** Values and instructions *)

(** [v == w] on [Value*]: the same object.  Constants, globals, arguments,
    blocks and functions are unique objects; an instruction is its address. *)
Definition Value_eqb (v w : Value) : bool :=
  match v, w with
  | Constant a, Constant b => Z.eqb a b
  | Argument a, Argument b => N.eqb a b
  | GlobalVariable a, GlobalVariable b => N.eqb a b
  | BlockLabel a, BlockLabel b => N.eqb a b
  | FunctionRef a, FunctionRef b => N.eqb a b
  | InstResult a, InstResult b => N.eqb a b
  | _, _ => false
  end.

(** [i->operands()] *)
Definition operands (i : Instruction) : list Value :=
  match kind i with
  | LoadInst _ p => [p]
  | StoreInst _ v p => [v; p]
  | AllocaInst n => [n]
  | CallInst _ _ _ args callee => args ++ [callee]
  | Generic _ ops => ops
  end.

(** [isa<LoadInst>(i)], [isa<StoreInst>(i)], [isa<CallInst>(i)],
    [isa<AllocaInst>(i)] *)
Definition isLoad (i : Instruction) : bool :=
  match kind i with LoadInst _ _ => true | _ => false end.
Definition isStore (i : Instruction) : bool :=
  match kind i with StoreInst _ _ _ => true | _ => false end.
Definition isCall (i : Instruction) : bool :=
  match kind i with CallInst _ _ _ _ _ => true | _ => false end.
Definition isAllocaInst (i : Instruction) : bool :=
  match kind i with AllocaInst _ => true | _ => false end.

(** [Instruction::isVolatile()] *)
Definition isVolatile (i : Instruction) : bool :=
  match kind i with
  | LoadInst v _ => v
  | StoreInst v _ _ => v
  | _ => false
  end.

(** [Instruction::isTerminator()] *)
Definition isTerminator (i : Instruction) : bool :=
  match kind i with
  | Generic (OpRet | OpBr | OpSwitch | OpUnreachable) _ => true
  | _ => false
  end.

(** [llvm::isSafeToSpeculativelyExecute] (ValueTracking.cpp), on the opcodes of
    this model: terminators, phis, allocas and stores never are; a call only
    to a speculatable callee; a division only by a non-zero constant.  (For a
    load LLVM also asks for a dereferenceable pointer; a load fails the next
    test of [makeLoopInvariant] in any case.) *)
Definition isSafeToSpeculativelyExecute (i : Instruction) : bool :=
  match kind i with
  | LoadInst v _ => negb v
  | StoreInst _ _ _ => false
  | AllocaInst _ => false
  | CallInst spec _ _ _ _ => spec
  | Generic (OpRet | OpBr | OpSwitch | OpUnreachable | OpPHI | OpAtomicRMW) _ => false
  | Generic OpUDiv ops =>
      match nth_error ops 1 with
      | Some (Constant c) => negb (Z.eqb c 0)
      | _ => false
      end
  | Generic _ _ => true
  end.

(** [Instruction::mayReadFromMemory()] *)
Definition mayReadFromMemory (i : Instruction) : bool :=
  match kind i with
  | LoadInst _ _ => true
  | CallInst _ rd _ _ _ => rd
  | Generic OpAtomicRMW _ => true
  | _ => false
  end.

(** ** Looking things up in a function body *)

(** [i] is the instruction object at address [p]. *)
Definition hasPtr (p : InstRef) (i : Instruction) : bool := N.eqb (ptr i) p.

(** Dereferencing a [BasicBlock*], and the instruction list of the block. *)
Fixpoint findBlock (F : list BasicBlock) (b : BlockRef) : option BasicBlock :=
  match F with
  | [] => None
  | B :: F' => if N.eqb (label B) b then Some B else findBlock F' b
  end.

Definition blockInsts (F : list BasicBlock) (b : BlockRef) : list Instruction :=
  match findBlock F b with Some B => insts B | None => [] end.

(** Dereferencing an [Instruction*]: the instruction object with that
    address. *)
Fixpoint findInst (F : list BasicBlock) (p : InstRef) : option Instruction :=
  match F with
  | [] => None
  | B :: F' =>
      match find (hasPtr p) (insts B) with
      | Some i => Some i
      | None => findInst F' p
      end
  end.

(** [i->getParent()] *)
Fixpoint getParent (F : list BasicBlock) (p : InstRef) : option BlockRef :=
  match F with
  | [] => None
  | B :: F' => if existsb (hasPtr p) (insts B) then Some (label B) else getParent F' p
  end.

(** [isa<GlobalVariable>(V)] and [isa<AllocaInst>(V)] *)
Definition isGlobalVariable (v : Value) : bool :=
  match v with GlobalVariable _ => true | _ => false end.

Definition isAlloca (F : list BasicBlock) (v : Value) : bool :=
  match v with
  | InstResult p =>
      match findInst F p with Some i => isAllocaInst i | None => false end
  | _ => false
  end.

(** [BasicBlock::getTerminator()]: the last instruction if it is a terminator,
    a null pointer otherwise. *)
Definition getTerminator (F : list BasicBlock) (b : BlockRef) : option Instruction :=
  match findBlock F b with
  | None => None
  | Some B =>
      match rev (insts B) with
      | t :: _ => if isTerminator t then Some t else None
      | [] => None
      end
  end.

(** ** Relocation: [Instruction::moveBefore] *)

(** Unlinking the instruction at address [p] from an instruction list. *)
Fixpoint unlink (p : InstRef) (l : list Instruction) : list Instruction :=
  match l with
  | [] => []
  | i :: l' => if hasPtr p i then l' else i :: unlink p l'
  end.

(** Unlinking it from its parent block. *)
Fixpoint removeInst (p : InstRef) (F : list BasicBlock) : list BasicBlock :=
  match F with
  | [] => []
  | B :: F' =>
      if existsb (hasPtr p) (insts B)
      then mkBlock (label B) (unlink p (insts B)) :: F'
      else B :: removeInst p F'
  end.

(** Linking [x] in front of the last element (the terminator). *)
Fixpoint insertBeforeLast (x : Instruction) (l : list Instruction) : list Instruction :=
  match l with
  | [] => [x]
  | [t] => [x; t]
  | y :: l' => y :: insertBeforeLast x l'
  end.

(** Linking [x] in front of the terminator of block [b]. *)
Fixpoint insertBeforeTerminator (x : Instruction) (b : BlockRef) (F : list BasicBlock)
  : list BasicBlock :=
  match F with
  | [] => []
  | B :: F' =>
      if N.eqb (label B) b
      then mkBlock (label B) (insertBeforeLast x (insts B)) :: F'
      else B :: insertBeforeTerminator x b F'
  end.

(** [i->moveBefore(PH->getTerminator())].  A block without terminator gives a
    null insertion point, which [moveBefore] dereferences: the run is lost
    ([None]). *)
Definition moveBeforeTerminator (i : Instruction) (PH : BlockRef) (F : list BasicBlock)
  : option (list BasicBlock) :=
  match getTerminator F PH with
  | None => None
  | Some _ => Some (insertBeforeTerminator i PH (removeInst (ptr i) F))
  end.

(** ** Statistics *)

(** The [llvm::Statistic] counters of the pass.  In LLVM 13 a statistic holds
    an [unsigned]: increments and decrements wrap around at [2^32]. *)
Inductive Counter : Type :=
| NumLoops | LICMBasic | LICMLoadHoist | LICMNoPreheader
| NumLoopsNoStore | NumLoopsNoLoad | NumLoopsNoStoreWithLoad | NumLoopsWithCall.

Record Statistics : Type := mkStats {
  numLoops : Z;
  licmBasic : Z;
  licmLoadHoist : Z;
  licmNoPreheader : Z;
  numLoopsNoStore : Z;
  numLoopsNoLoad : Z;
  numLoopsNoStoreWithLoad : Z;
  numLoopsWithCall : Z
}.

(** Reduction to 32 bits. *)
Definition wrap (z : Z) : Z := z mod 2 ^ 32.

(** The value of a counter, and its update. *)
Definition read (c : Counter) (s : Statistics) : Z :=
  match c with
  | NumLoops => numLoops s
  | LICMBasic => licmBasic s
  | LICMLoadHoist => licmLoadHoist s
  | LICMNoPreheader => licmNoPreheader s
  | NumLoopsNoStore => numLoopsNoStore s
  | NumLoopsNoLoad => numLoopsNoLoad s
  | NumLoopsNoStoreWithLoad => numLoopsNoStoreWithLoad s
  | NumLoopsWithCall => numLoopsWithCall s
  end.

Definition write (c : Counter) (z : Z) (s : Statistics) : Statistics :=
  match s with
  | mkStats a b c0 d e f g h =>
      match c with
      | NumLoops => mkStats z b c0 d e f g h
      | LICMBasic => mkStats a z c0 d e f g h
      | LICMLoadHoist => mkStats a b z d e f g h
      | LICMNoPreheader => mkStats a b c0 z e f g h
      | NumLoopsNoStore => mkStats a b c0 d z f g h
      | NumLoopsNoLoad => mkStats a b c0 d e z g h
      | NumLoopsNoStoreWithLoad => mkStats a b c0 d e f z h
      | NumLoopsWithCall => mkStats a b c0 d e f g z
      end
  end.

(** [c++] and [c--] *)
Definition incr (c : Counter) (s : Statistics) : Statistics :=
  write c (wrap (read c s + 1)) s.
Definition decr (c : Counter) (s : Statistics) : Statistics :=
  write c (wrap (read c s - 1)) s.

(** The counters when the program starts. *)
Definition zeroStats : Statistics := mkStats 0 0 0 0 0 0 0 0.

(** ** The state the pass works on *)

(** One relocation: the loop being processed, the instruction moved and the
    function body just before the move.  The history of relocations is ghost
    state: the pass never reads it; it is there to state what was moved, out
    of which loop and in which placement. *)
Record Move : Type := mkMove {
  mv_loop : Loop;
  mv_inst : Instruction;
  mv_before : list BasicBlock
}.

(** The body of the function being transformed, the global counters and the
    relocations so far (latest first). *)
Record State : Type := mkState {
  body : list BasicBlock;
  stats : Statistics;
  hist : list Move
}.

(** [c++] on the counters of a state. *)
Definition count (c : Counter) (st : State) : State :=
  mkState (body st) (incr c (stats st)) (hist st).

(** The one mutating call the pass issues, [i->moveBefore(dst)] with [dst] the
    terminator of the preheader, recorded in the history. *)
Definition relocate (L : Loop) (i : Instruction) (PH : BlockRef) (st : State)
  : option State :=
  match moveBeforeTerminator i PH (body st) with
  | None => None
  | Some F' => Some (mkState F' (stats st) (mkMove L i (body st) :: hist st))
  end.

(** ** Loop queries (LLVM) *)

(** [L->contains(BB)]: membership in the block set of the loop. *)
Definition inBlocks (b : BlockRef) (bs : list BlockRef) : bool :=
  existsb (N.eqb b) bs.

(** [L->contains(i)], that is [L->contains(i->getParent())] *)
Definition contains (L : Loop) (F : list BasicBlock) (p : InstRef) : bool :=
  match getParent F p with
  | Some b => inBlocks b (getBlocks L)
  | None => false
  end.

(** [L->isLoopInvariant(V)]: an instruction outside the loop, or anything that
    is not an instruction. *)
Definition isLoopInvariant (L : Loop) (F : list BasicBlock) (v : Value) : bool :=
  match v with
  | InstResult p => negb (contains L F p)
  | _ => true
  end.

(** ** The functions of the pass *)

Definition hoistInstructionToPreheader (L : Loop) (i : Instruction) (PreHeader : BlockRef)
  (st : State) : option State :=
  relocate L i PreHeader st.

Definition AreAllOperandsLoopInvaraint (L : Loop) (F : list BasicBlock) (i : Instruction)
  : bool :=
  forallb (isLoopInvariant L F) (operands i).

Definition NoPossibleStoresToAnyAddressInLoop (L : Loop) (F : list BasicBlock) : bool :=
  forallb (fun bb => forallb (fun i => negb (isStore i)) (blockInsts F bb)) (getBlocks L).

(** What one store says about a load address: the same address, or an address
    that is neither an alloca nor a global, makes the load unsafe. *)
Definition storeAllows (F : list BasicBlock) (LoadAddress : Value) (i : Instruction) : bool :=
  match kind i with
  | StoreInst _ _ addr_of_store =>
      if Value_eqb LoadAddress addr_of_store then false
      else if negb (isAlloca F addr_of_store) && negb (isGlobalVariable addr_of_store)
           then false
           else true
  | _ => true
  end.

Definition NoPossibleStoresToAddressInLoop (L : Loop) (F : list BasicBlock)
  (LoadAddress : Value) : bool :=
  forallb (fun bb => forallb (storeAllows F LoadAddress) (blockInsts F bb)) (getBlocks L).

(** Case 1 is the volatility test; the global case follows; the alloca case
    and the general case are commented out in the source. *)
Definition CanMoveOutofLoop (F : list BasicBlock) (L : Loop) (i : Instruction)
  (LoadAddress : Value) (loopHasStore : bool) : bool :=
  if isVolatile i then false
  else if isGlobalVariable LoadAddress && NoPossibleStoresToAddressInLoop L F LoadAddress
       then true
       else false.

Definition updateStats (hasLoad hasStore hasCall : bool) (s : Statistics) : Statistics :=
  if negb hasStore && hasLoad then incr NumLoopsNoStoreWithLoad s
  else if negb hasLoad then incr NumLoopsNoLoad s
  else if negb hasStore then incr NumLoopsNoStore s
  else if hasCall then incr NumLoopsWithCall (incr NumLoopsWithCall s)
  else s.

Definition NotALoadOrStore (i : Instruction) : bool :=
  if isLoad i then false
  else if isStore i then false
  else true.

(** [L->makeLoopInvariant(i, changed)] (LoopInfo.cpp): hoists [i] to the
    preheader if it is in the loop, safe to execute speculatively, does not
    read memory and has loop-invariant operands; the boolean is the new value
    of [changed].  LLVM recurses into the operands where this model tests
    them: [OptimizeLoop2] calls it on instructions whose operands are all
    invariant, where each recursive call returns at once.  (LLVM also refuses
    exception-handling pads, which are not among the opcodes of the model.) *)
Definition makeLoopInvariant (L : Loop) (i : Instruction) (st : State)
  : option (State * bool) :=
  if negb (contains L (body st) (ptr i)) then Some (st, false)
  else if negb (isSafeToSpeculativelyExecute i) then Some (st, false)
  else if mayReadFromMemory i then Some (st, false)
  else match getLoopPreheader L with
       | None => Some (st, false)
       | Some Preheader =>
           if negb (forallb (isLoopInvariant L (body st)) (operands i))
           then Some (st, false)
           else match relocate L i Preheader st with
                | None => None
                | Some st' => Some (st', true)
                end
       end.

(** ** The worklist *)

(** [worklist.insert(p)] on a [std::set<Instruction*>]: kept in increasing
    address order, without duplicates. *)
Fixpoint set_insert (p : InstRef) (s : list InstRef) : list InstRef :=
  match s with
  | [] => [p]
  | q :: s' =>
      if N.ltb p q then p :: s
      else if N.eqb p q then s
      else q :: set_insert p s'
  end.

Definition fillWorklist (l : list Instruction) : list InstRef :=
  fold_left (fun wl i => set_insert (ptr i) wl) l [].

(** The body of the [while] loop for the instruction taken from the
    worklist. *)
Definition visit (L : Loop) (PH : BlockRef) (loopContainsStore : bool) (p : InstRef)
  (st : State) : option State :=
  match findInst (body st) p with
  | None => Some st
  | Some i =>
      if NotALoadOrStore i then
        if AreAllOperandsLoopInvaraint L (body st) i then
          match makeLoopInvariant L i st with
          | None => None
          | Some (st', changed) =>
              if changed then Some (count LICMBasic st') else Some st'
          end
        else Some st
      else
        match kind i with
        | LoadInst _ addr =>
            if CanMoveOutofLoop (body st) L i addr loopContainsStore then
              match hoistInstructionToPreheader L i PH st with
              | None => None
              | Some st' => Some (count LICMLoadHoist st')
              end
            else Some st
        | _ => Some st
        end
  end.

(** [while (worklist.size() > 0)]: [*worklist.begin()] is the smallest
    address, and nothing is inserted while the worklist is drained. *)
Fixpoint drain (L : Loop) (PH : BlockRef) (loopContainsStore : bool)
  (worklist : list InstRef) (st : State) : option State :=
  match worklist with
  | [] => Some st
  | p :: rest =>
      match visit L PH loopContainsStore p st with
      | None => None
      | Some st' => drain L PH loopContainsStore rest st'
      end
  end.

(** One iteration of [for (BasicBlock *bb : L->blocks())]: scan the block,
    update the statistics, drain the worklist. *)
Definition sweepBlock (L : Loop) (PH : BlockRef) (bb : BlockRef)
  (loopContainsStore : bool) (st : State) : option (State * bool) :=
  let il := blockInsts (body st) bb in
  let hasLoad := existsb isLoad il in
  let hasStore := existsb isStore il in
  let hasCall := existsb isCall il in
  let loopContainsStore := loopContainsStore || hasStore in
  let st1 := mkState (body st) (updateStats hasLoad hasStore hasCall (stats st)) (hist st) in
  match drain L PH loopContainsStore (fillWorklist il) st1 with
  | None => None
  | Some st2 => Some (st2, loopContainsStore)
  end.

Fixpoint sweepBlocks (L : Loop) (PH : BlockRef) (bbs : list BlockRef)
  (loopContainsStore : bool) (st : State) : option State :=
  match bbs with
  | [] => Some st
  | bb :: rest =>
      match sweepBlock L PH bb loopContainsStore st with
      | None => None
      | Some (st', lcs) => sweepBlocks L PH rest lcs st'
      end
  end.

(** The part of [OptimizeLoop2] after the recursive calls. *)
Definition rewriteLoop (L : Loop) (PH : BlockRef) (st : State) : option State :=
  sweepBlocks L PH (getBlocks L) false st.

Fixpoint OptimizeLoop2 (L : Loop) (st : State) : option State :=
  let st := count NumLoops st in
  match L with
  | mkLoop None _ _ => Some (count LICMNoPreheader st)
  | mkLoop (Some PH) _ subloops =>
      let fix each (ls : list Loop) (st : State) : option State :=
        match ls with
        | [] => Some st
        | subloop :: ls' =>
            match OptimizeLoop2 subloop st with
            | None => None
            | Some st' => each ls' st'
            end
        end in
      match each subloops st with
      | None => None
      | Some st' => rewriteLoop L PH st'
      end
  end.

(** [for (auto li : ...) OptimizeLoop2(f, LI, li)] over a list of loops. *)
Fixpoint OptimizeLoops (ls : list Loop) (st : State) : option State :=
  match ls with
  | [] => Some st
  | L :: ls' =>
      match OptimizeLoop2 L st with
      | None => None
      | Some st' => OptimizeLoops ls' st'
      end
  end.

(** What the pass carries from one function to the next. *)
Record Global : Type := mkGlobal { gstats : Statistics; ghist : list Move }.

Definition runOnFunction (f : Function) (g : Global) : option (Function * Global) :=
  match fbody f with
  | [] => Some (f, g)
  | _ :: _ =>
      match OptimizeLoops (floops f) (mkState (fbody f) (gstats g) (ghist g)) with
      | None => None
      | Some st => Some (mkFunction (body st) (floops f), mkGlobal (stats st) (hist st))
      end
  end.

Fixpoint RunLICMBasic (M : Module) (g : Global) : option (Module * Global) :=
  match M with
  | [] => Some ([], g)
  | f :: M' =>
      match runOnFunction f g with
      | None => None
      | Some (f', g') =>
          match RunLICMBasic M' g' with
          | None => None
          | Some (M'', g'') => Some (f' :: M'', g'')
          end
      end
  end.

Definition LoopInvariantCodeMotion (M : Module) (g : Global) : option (Module * Global) :=
  let s := incr LICMLoadHoist (gstats g) in
  let s := decr LICMLoadHoist s in
  RunLICMBasic M (mkGlobal s (ghist g)).

(** ** The functions the pass leaves unused *)

(** [AllocaNotInLoop]: [dyn_cast<AllocaInst>(Addr)] is a null pointer unless
    [Addr] is an alloca, and [x->getParent()] dereferences it: the run is
    lost ([None]). *)
Definition AllocaNotInLoop (L : Loop) (F : list BasicBlock) (Addr : Value) : option bool :=
  if isAlloca F Addr then
    match Addr with
    | InstResult x =>
        match getParent F x with
        | Some parent => if inBlocks parent (getBlocks L) then Some false else Some true
        | None => None
        end
    | _ => None
    end
  else None.

(** The successors of a block (LLVM): the block operands of its terminator;
    a block without terminator has none. *)
Definition blockOperand (v : Value) : list BlockRef :=
  match v with BlockLabel b => [b] | _ => [] end.

Definition successors (F : list BasicBlock) (b : BlockRef) : list BlockRef :=
  match getTerminator F b with
  | Some t => flat_map blockOperand (operands t)
  | None => []
  end.

(** [L->getExitBlocks(ExitBlocks)] (LoopInfoImpl.h): the successors of the
    blocks of the loop that lie outside the loop, one entry per edge. *)
Definition getExitBlocks (L : Loop) (F : list BasicBlock) : list BlockRef :=
  flat_map (fun bb => filter (fun succ => negb (inBlocks succ (getBlocks L)))
                             (successors F bb))
           (getBlocks L).

(** The entry block of a function: its first block. *)
Definition entryBlock (F : list BasicBlock) : option BlockRef :=
  match F with B :: _ => Some (label B) | [] => None end.

(** The blocks reached from the entry along paths that avoid the block
    [avoid]. *)
Definition allowed (avoid : option BlockRef) (b : BlockRef) : bool :=
  match avoid with Some a => negb (N.eqb a b) | None => true end.

Definition grow (F : list BasicBlock) (avoid : option BlockRef) (seen : list BlockRef)
  : list BlockRef :=
  nodup N.eq_dec (seen ++ filter (allowed avoid) (flat_map (successors F) seen)).

Definition reached (F : list BasicBlock) (avoid : option BlockRef) : list BlockRef :=
  match entryBlock F with
  | Some e => if allowed avoid e then Nat.iter (length F) (grow F avoid) [e] else []
  | None => []
  end.

Definition isReachableFromEntry (F : list BasicBlock) (b : BlockRef) : bool :=
  inBlocks b (reached F None).

(** [DT->dominates(A, B)] on blocks, after [DT->recalculate]
    (GenericDomTree.h): a block dominates itself; an unreachable block is
    dominated by anything and dominates nothing else; otherwise [A]
    dominates [B] when every path from the entry to [B] goes through [A].
    [A] is [None] for the null parent of an instruction that is in no
    block. *)
Definition dominates (F : list BasicBlock) (A : option BlockRef) (B : BlockRef) : bool :=
  if match A with Some a => N.eqb a B | None => false end then true
  else if negb (isReachableFromEntry F B) then true
  else match A with
       | None => false
       | Some a =>
           if negb (isReachableFromEntry F a) then false
           else negb (inBlocks B (reached F (Some a)))
       end.

(** [dominatesLoopExit]: without exit blocks the answer is [true] at once;
    otherwise [dyn_cast<Instruction>(V)] is a null pointer unless [V] is an
    instruction, and [i->getParent()] dereferences it: the run is lost
    ([None]).  The test is on the block of the instruction (the test on the
    instruction itself is commented out). *)
Definition dominatesLoopExit (F : list BasicBlock) (L : Loop) (V : Value) : option bool :=
  let ExitBlocks := getExitBlocks L F in
  match ExitBlocks with
  | [] => Some true
  | _ :: _ =>
      match V with
      | InstResult i =>
          Some (forallb (fun bb => dominates F (getParent F i) bb) ExitBlocks)
      | _ => None
      end
  end.

(** ** The statistics on the module *)

(** The counters [nFunctions], [nInstructions], [nLoads] and [nStores], each
    an [unsigned] like the counters of the pass. *)
Record ModuleStatistics : Type := mkModuleStats {
  nFunctions : Z;
  nInstructions : Z;
  nLoads : Z;
  nStores : Z
}.

(** The body of the innermost loop of [summarize]. *)
Definition summarizeInstruction (I : Instruction) (s : ModuleStatistics) : ModuleStatistics :=
  let s := mkModuleStats (nFunctions s) (wrap (nInstructions s + 1)) (nLoads s) (nStores s) in
  if isLoad I then
    mkModuleStats (nFunctions s) (nInstructions s) (wrap (nLoads s + 1)) (nStores s)
  else if isStore I then
    mkModuleStats (nFunctions s) (nInstructions s) (nLoads s) (wrap (nStores s + 1))
  else s.

(** The loop over the instructions of a block, and the body of the loop over
    the functions: a function counts if it has at least one block. *)
Definition summarizeBlock (j : BasicBlock) (s : ModuleStatistics) : ModuleStatistics :=
  fold_left (fun s I => summarizeInstruction I s) (insts j) s.

Definition summarizeFunction (i : Function) (s : ModuleStatistics) : ModuleStatistics :=
  let s := match fbody i with
           | [] => s
           | _ :: _ =>
               mkModuleStats (wrap (nFunctions s + 1)) (nInstructions s) (nLoads s) (nStores s)
           end in
  fold_left (fun s j => summarizeBlock j s) (fbody i) s.

Definition summarize (M : Module) (s : ModuleStatistics) : ModuleStatistics :=
  fold_left (fun s i => summarizeFunction i s) M s.

(** ** The statistics file *)

Section StatisticsFile.

Import String Ascii.
Local Open Scope string_scope.

(** [stats << p.second]: an [unsigned] in decimal. *)
Definition decimal (n : N) : string :=
  DecimalString.NilEmpty.string_of_uint (N.to_uint n).

(** The character [std::endl] writes. *)
Definition endl : ascii := "010"%char.

(** One iteration of the loop of [print_csv_file]: the name, a comma, the
    value, the end of the line. *)
Definition csvLine (p : string * N) : string :=
  fst p ++ "," ++ decimal (snd p) ++ String endl EmptyString.

(** [print_csv_file]: the name of the file written and what is written to
    it, for the statistics [a] that [GetStatistics] returns. *)
Definition print_csv_file (outputfile : string) (a : list (string * N))
  : string * string :=
  (outputfile ++ ".stats", concat EmptyString (map csvLine a)).

End StatisticsFile.

(** * Part II: the vocabulary of the properties *)

Local Open Scope Z_scope.

(** ** Views of a function body *)

(** All the instructions of a function, block after block. *)
Definition allInsts (F : list BasicBlock) : list Instruction :=
  concat (map insts F).

(** What is left of a body when only the instructions satisfying [P] are
    looked at, block by block. *)
Definition view (P : Instruction -> bool) (F : list BasicBlock) : list BasicBlock :=
  map (fun B => mkBlock (label B) (filter P (insts B))) F.

(** ** Induction on the loop forest *)

(** The induction principle of [Loop], with the hypothesis for the
    sub-loops. *)
Definition Loop_forest_ind (P : Loop -> Prop)
  (H : forall ph bs ss, Forall P ss -> P (mkLoop ph bs ss)) : forall L, P L :=
  fix rec (L : Loop) : P L :=
    match L with
    | mkLoop ph bs ss =>
        H ph bs ss
          ((fix all (ls : list Loop) : Forall P ls :=
              match ls with
              | [] => Forall_nil P
              | s :: r => Forall_cons s (rec s) (all r)
              end) ss)
    end.

(** ** The pass as a sequence of elementary steps *)

(** An elementary step either bumps a counter other than the two hoist
    counters, or relocates one instruction and bumps the matching hoist
    counter.  The premises of the two relocation steps are what the pass has
    tested when it moves the instruction. *)
Inductive step : State -> State -> Prop :=
| step_count (c : Counter) (st : State) :
    c <> LICMBasic -> c <> LICMLoadHoist ->
    step st (count c st)
| step_basic (L : Loop) (PH : BlockRef) (i : Instruction) (st st' : State) :
    getLoopPreheader L = Some PH ->
    findInst (body st) (ptr i) = Some i ->
    NotALoadOrStore i = true ->
    AreAllOperandsLoopInvaraint L (body st) i = true ->
    contains L (body st) (ptr i) = true ->
    isSafeToSpeculativelyExecute i = true ->
    mayReadFromMemory i = false ->
    relocate L i PH st = Some st' ->
    step st (count LICMBasic st')
| step_load (L : Loop) (PH : BlockRef) (i : Instruction) (vol : bool) (addr : Value)
    (lcs : bool) (st st' : State) :
    getLoopPreheader L = Some PH ->
    findInst (body st) (ptr i) = Some i ->
    kind i = LoadInst vol addr ->
    CanMoveOutofLoop (body st) L i addr lcs = true ->
    relocate L i PH st = Some st' ->
    step st (count LICMLoadHoist st').

(** A run: finitely many steps. *)
Inductive run : State -> State -> Prop :=
| run_refl (st : State) : run st st
| run_step (st1 st2 st3 : State) : step st1 st2 -> run st2 st3 -> run st1 st3.

(** The whole pass: one run per function, the counters and the history
    carried along. *)
Inductive mrun : Module -> Global -> Module -> Global -> Prop :=
| mrun_nil (g : Global) : mrun [] g [] g
| mrun_cons (f f' : Function) (M M' : Module) (g g1 g' : Global) :
    floops f' = floops f ->
    run (mkState (fbody f) (gstats g) (ghist g))
        (mkState (fbody f') (gstats g1) (ghist g1)) ->
    mrun M g1 M' g' ->
    mrun (f :: M) g (f' :: M') g'.

(** ** What a relocation has been tested for *)

(** The instructions the pass can relocate at all: non-volatile loads from a
    global, and instructions other than loads and stores that LLVM accepts to
    execute speculatively and that do not read memory. *)
Definition movable (i : Instruction) : bool :=
  match kind i with
  | LoadInst vol addr => negb vol && isGlobalVariable addr
  | StoreInst _ _ _ => false
  | _ => isSafeToSpeculativelyExecute i && negb (mayReadFromMemory i)
  end.

(** [s] is a store instruction whose pointer operand is [addr]: the one
    kind of write [NoPossibleStoresToAddressInLoop] looks for. *)
Definition writesTo (addr : Value) (s : Instruction) : bool :=
  match kind s with
  | StoreInst _ _ a => Value_eqb addr a
  | _ => false
  end.

(** No store instruction in a block of [L] has the pointer operand [addr]. *)
Definition noWriteTo (L : Loop) (F : list BasicBlock) (addr : Value) : Prop :=
  forall b s, In b (getBlocks L) -> In s (blockInsts F b) -> writesTo addr s = false.

(** Every store instruction in a block of [L] goes to an alloca or to a
    global. *)
Definition writesResolved (L : Loop) (F : list BasicBlock) : Prop :=
  forall b s vol v a, In b (getBlocks L) -> In s (blockInsts F b) ->
    kind s = StoreInst vol v a -> isAlloca F a = true \/ isGlobalVariable a = true.

(** What the pass has tested of one relocation: the operands are invariant,
    and a relocated load is a non-volatile load of a global which no store
    instruction of the loop has as its pointer operand, in a loop whose store
    instructions all go to an alloca or to a global. *)
Definition sound (m : Move) : Prop :=
  AreAllOperandsLoopInvaraint (mv_loop m) (mv_before m) (mv_inst m) = true /\
  forall vol addr, kind (mv_inst m) = LoadInst vol addr ->
    vol = false /\ isGlobalVariable addr = true /\
    noWriteTo (mv_loop m) (mv_before m) addr /\
    writesResolved (mv_loop m) (mv_before m).

(** [Instruction::mayWriteToMemory()]: stores, atomic read-modify-writes, and
    the calls whose callee is not known to leave memory alone. *)
Definition mayWriteToMemory (s : Instruction) : bool :=
  match kind s with
  | StoreInst _ _ _ => true
  | Generic OpAtomicRMW _ => true
  | CallInst _ _ wr _ _ => wr
  | _ => false
  end.

(** [s] may write the memory at [addr]: a store or an atomic
    read-modify-write whose pointer operand is [addr], or a call that may
    write memory. *)
Definition mayWriteTo (addr : Value) (s : Instruction) : bool :=
  match kind s with
  | StoreInst _ _ a => Value_eqb addr a
  | Generic OpAtomicRMW (a :: _) => Value_eqb addr a
  | CallInst _ _ wr _ _ => wr
  | _ => false
  end.

(** The only instructions in the blocks of [L] that may write memory are
    store instructions. *)
Definition onlyStoresWrite (L : Loop) (F : list BasicBlock) : Prop :=
  forall b s, In b (getBlocks L) -> In s (blockInsts F b) ->
    mayWriteToMemory s = true -> isStore s = true.

(** Soundness in the words of the specification: the operands are
    invariant, and for a memory read either the address is a global to which
    no instruction of the loop writes, or the loop holds no memory write at
    all. *)
Definition soundAsSpecified (m : Move) : Prop :=
  AreAllOperandsLoopInvaraint (mv_loop m) (mv_before m) (mv_inst m) = true /\
  forall vol addr, kind (mv_inst m) = LoadInst vol addr ->
    (isGlobalVariable addr = true /\
     forall b s, In b (getBlocks (mv_loop m)) -> In s (blockInsts (mv_before m) b) ->
                 mayWriteTo addr s = false) \/
    (forall b s, In b (getBlocks (mv_loop m)) -> In s (blockInsts (mv_before m) b) ->
                 mayWriteToMemory s = false).

(** The facts a relocation step leaves behind. *)
Record relocated (m : Move) (st st' : State) : Prop := mkRelocated {
  rel_hist : hist st' = m :: hist st;
  rel_before : mv_before m = body st;
  rel_found : findInst (body st) (ptr (mv_inst m)) = Some (mv_inst m);
  rel_movable : movable (mv_inst m) = true;
  rel_invariant :
    AreAllOperandsLoopInvaraint (mv_loop m) (body st) (mv_inst m) = true;
  rel_load : forall vol addr, kind (mv_inst m) = LoadInst vol addr ->
    vol = false /\ isGlobalVariable addr = true /\
    noWriteTo (mv_loop m) (body st) addr /\ writesResolved (mv_loop m) (body st);
  rel_moved : exists PH, getLoopPreheader (mv_loop m) = Some PH /\
    moveBeforeTerminator (mv_inst m) PH (body st) = Some (body st');
  rel_counters :
    if isLoad (mv_inst m)
    then read LICMLoadHoist (stats st') = wrap (read LICMLoadHoist (stats st) + 1) /\
         read LICMBasic (stats st') = read LICMBasic (stats st)
    else read LICMBasic (stats st') = wrap (read LICMBasic (stats st) + 1) /\
         read LICMLoadHoist (stats st') = read LICMLoadHoist (stats st)
}.

(** ** What a run adds up to *)

(** [n] increments of a counter. *)
Fixpoint bumps (n : nat) (z : Z) : Z :=
  match n with
  | O => z
  | S n' => bumps n' (wrap (z + 1))
  end.

Definition isLoadMove (m : Move) : bool := isLoad (mv_inst m).

(** The relocations of loads, and the others. *)
Definition countLoads (ms : list Move) : nat := length (filter isLoadMove ms).
Definition countOthers (ms : list Move) : nat :=
  length (filter (fun m => negb (isLoadMove m)) ms).

(** What holds of every relocation the pass performs. *)
Record checked (m : Move) : Prop := mkChecked {
  chk_sound : sound m;
  chk_found : findInst (mv_before m) (ptr (mv_inst m)) = Some (mv_inst m);
  chk_movable : movable (mv_inst m) = true;
  chk_preheader : getLoopPreheader (mv_loop m) <> None
}.

Record summary (ms : list Move) (st st' : State) : Prop := mkSummary {
  sum_hist : hist st' = ms ++ hist st;
  sum_checked : Forall checked ms;
  sum_loads : read LICMLoadHoist (stats st')
              = bumps (countLoads ms) (read LICMLoadHoist (stats st));
  sum_basic : read LICMBasic (stats st')
              = bumps (countOthers ms) (read LICMBasic (stats st));
  sum_perm : Permutation (allInsts (body st)) (allInsts (body st'));
  sum_labels : map label (body st') = map label (body st);
  sum_frame : forall P : Instruction -> bool,
      (forall m, In m ms -> P (mv_inst m) = false) ->
      view P (body st') = view P (body st)
}.

(** The same for a whole module: the relocations of all functions, the two
    hoist counters, and function by function the blocks, the instructions and
    the placement of whatever was not relocated. *)
(** [f'] is [f] up to the relocations [ms]: same loops, same blocks, same
    instructions, and nothing but the relocated instructions has changed
    place. *)
Definition sameFunction (ms : list Move) (f f' : Function) : Prop :=
  floops f' = floops f /\
  map label (fbody f') = map label (fbody f) /\
  Permutation (allInsts (fbody f)) (allInsts (fbody f')) /\
  forall P : Instruction -> bool,
    (forall m, In m ms -> P (mv_inst m) = false) ->
    view P (fbody f') = view P (fbody f).

Record msummary (ms : list Move) (M : Module) (g : Global) (M' : Module) (g' : Global)
  : Prop := mkMSummary {
  msum_hist : ghist g' = ms ++ ghist g;
  msum_checked : Forall checked ms;
  msum_loads : read LICMLoadHoist (gstats g')
               = bumps (countLoads ms) (read LICMLoadHoist (gstats g));
  msum_basic : read LICMBasic (gstats g')
               = bumps (countOthers ms) (read LICMBasic (gstats g));
  msum_functions : Forall2 (sameFunction ms) M M'
}.

(** ** The relocations of one run of the pass *)

(** The part of the history [after] that was added to [before]. *)
Definition newMoves (before after : list Move) : list Move :=
  firstn (length after - length before) after.

(** The relocations performed between the global states [g] and [g']. *)
Definition relocations (g g' : Global) : list Move := newMoves (ghist g) (ghist g').

(** ** Kinds of reads, loops without preheader *)

Definition isVolatileLoad (i : Instruction) : bool := isLoad i && isVolatile i.

(** A read whose address is not a global variable. *)
Definition isNonGlobalLoad (i : Instruction) : bool :=
  match kind i with
  | LoadInst _ addr => negb (isGlobalVariable addr)
  | _ => false
  end.

(** The loops of a nest that lack a preheader. *)
Fixpoint loopsWithoutPreheader (L : Loop) : nat :=
  match L with
  | mkLoop ph _ ss =>
      ((match ph with None => 1 | Some _ => 0 end)
       + list_sum (map loopsWithoutPreheader ss))%nat
  end.

(** The loops of a nest the pass visits: the loop itself and, if it has a
    preheader, the loops visited in its sub-loops. *)
Fixpoint visitedLoops (L : Loop) : nat :=
  match L with
  | mkLoop None _ _ => 1
  | mkLoop (Some _) _ ss => S (list_sum (map visitedLoops ss))
  end.

(** Those of the visited loops that lack a preheader. *)
Fixpoint visitedWithoutPreheader (L : Loop) : nat :=
  match L with
  | mkLoop None _ _ => 1
  | mkLoop (Some _) _ ss => list_sum (map visitedWithoutPreheader ss)
  end.

(** The same over the functions of a module that have a body. *)
Definition visitedIn (count : Loop -> nat) (M : Module) : nat :=
  list_sum (map (fun f => match fbody f with
                          | [] => O
                          | _ :: _ => list_sum (map count (floops f))
                          end) M).

(** ** The decision taken for one instruction *)

(** Whether the body of the [while] loop relocates [i], in placement [F]. *)
Definition decision (L : Loop) (F : list BasicBlock) (i : Instruction) : bool :=
  if NotALoadOrStore i then
    AreAllOperandsLoopInvaraint L F i && contains L F (ptr i)
    && isSafeToSpeculativelyExecute i && negb (mayReadFromMemory i)
  else
    match kind i with
    | LoadInst _ addr => CanMoveOutofLoop F L i addr false
    | _ => false
    end.

(** The counter bumped when [i] is relocated. *)
Definition hoistCounter (i : Instruction) : Counter :=
  if isLoad i then LICMLoadHoist else LICMBasic.

(** ** On whose behalf a relocation is made *)

(** [L'] is [L] or a loop nested in [L], at any depth. *)
Fixpoint inNest (L' L : Loop) : Prop :=
  L' = L \/
  match L with
  | mkLoop _ _ ss =>
      (fix any (ls : list Loop) : Prop :=
         match ls with
         | [] => False
         | s :: r => inNest L' s \/ any r
         end) ss
  end.

Definition inNests (L' : Loop) (ls : list Loop) : Prop := Exists (inNest L') ls.

(** The relocations added from [st] to [st'] are all made for loops
    satisfying [Q]. *)
Definition movesFor (Q : Loop -> Prop) (st st' : State) : Prop :=
  exists ms, hist st' = ms ++ hist st /\ Forall (fun m => Q (mv_loop m)) ms.

(** ** Well-formed bodies and the order of a sweep *)

(** Distinct blocks, distinct instruction objects. *)
Definition wf (F : list BasicBlock) : Prop :=
  NoDup (map label F) /\ NoDup (map ptr (allInsts F)).

(** [j] is not the instruction at address [p]. *)
Definition notAt (p : InstRef) (j : Instruction) : bool := negb (hasPtr p j).

(** The last instruction, when it is a terminator. *)
Definition lastTerminator (l : list Instruction) : option Instruction :=
  match rev l with
  | t :: _ => if isTerminator t then Some t else None
  | [] => None
  end.

(** Strictly increasing addresses. *)
Fixpoint ascending (s : list InstRef) : Prop :=
  match s with
  | [] => True
  | p :: s' => (forall q, In q s' -> (p < q)%N) /\ ascending s'
  end.

(** Membership test on addresses. *)
Definition mem (q : InstRef) (l : list InstRef) : bool := existsb (N.eqb q) l.

(** The instructions of the loop in the order [OptimizeLoop2] examines them:
    block after block, and inside a block by increasing address. *)
Definition schedule (L : Loop) (F : list BasicBlock) : list InstRef :=
  flat_map (fun b => fillWorklist (blockInsts F b)) (getBlocks L).

(** The instruction at address [q] is one the pass can relocate. *)
Definition movableAt (F : list BasicBlock) (q : InstRef) : bool :=
  match findInst F q with Some j => movable j | None => false end.

(** Every operand of [i] that is an instruction of the loop which the pass
    can relocate is in [seen]. *)
Definition operandsSeen (L : Loop) (F : list BasicBlock) (seen : list InstRef)
  (i : Instruction) : bool :=
  forallb (fun v => match v with
                    | InstResult q =>
                        negb (contains L F q) || negb (movableAt F q) || mem q seen
                    | _ => true
                    end) (operands i).

Fixpoint orderedFrom (L : Loop) (F : list BasicBlock) (seen s : list InstRef) : bool :=
  match s with
  | [] => true
  | p :: r =>
      match findInst F p with
      | Some i => negb (NotALoadOrStore i && movable i) || operandsSeen L F seen i
      | None => true
      end && orderedFrom L F (p :: seen) r
  end.

(** Every instruction of the loop that the pass can relocate, loads apart,
    is examined after the instructions of the loop it uses that the pass can
    relocate.  Instructions that always stay (phis, terminators, stores,
    calls that are not speculatable, ...) are not concerned, neither as
    users nor as operands. *)
Definition examinedAfterOperands (L : Loop) (F : list BasicBlock) : bool :=
  orderedFrom L F [] (schedule L F).

(** ** The state of the sweep of one loop *)

(** [j] is none of the relocated instructions [mv]. *)
Definition notMoved (mv : list Instruction) (j : Instruction) : bool :=
  negb (mem (ptr j) (map ptr mv)).

(** The loads among relocated instructions, and the others. *)
Definition countLoadInsts (mv : list Instruction) : nat := length (filter isLoad mv).
Definition countOtherInsts (mv : list Instruction) : nat :=
  length (filter (fun j => negb (isLoad j)) mv).

(** The state of the sweep: [D] holds the addresses examined so far (latest
    first), [R] those still to come, [mv] the instructions relocated so far
    (latest first). *)
Record prog (L : Loop) (PH : BlockRef) (t : Instruction) (st0 : State)
  (D R : list InstRef) (mv : list Instruction) (st : State) : Prop := mkProg {
  pg_sched : schedule L (body st0) = rev D ++ R;
  pg_mv : forall j, In j mv -> In (ptr j) D;
  pg_wf : wf (body st);
  pg_perm : Permutation (allInsts (body st0)) (allInsts (body st));
  pg_stores : view isStore (body st) = view isStore (body st0);
  pg_loop : forall b, b <> PH ->
      blockInsts (body st) b = filter (notMoved mv) (blockInsts (body st0) b);
  pg_ph : exists front,
      blockInsts (body st0) PH = front ++ [t] /\
      blockInsts (body st) PH = front ++ rev mv ++ [t];
  pg_hist : exists ms,
      hist st = ms ++ hist st0 /\ map mv_inst ms = mv /\
      Forall (fun m => mv_loop m = L) ms;
  pg_basic : read LICMBasic (stats st)
             = bumps (countOtherInsts mv) (read LICMBasic (stats st0));
  pg_loadc : read LICMLoadHoist (stats st)
             = bumps (countLoadInsts mv) (read LICMLoadHoist (stats st0));
  pg_hoisted : forall j b, In b (getBlocks L) -> In j (blockInsts (body st0) b) ->
      In (ptr j) D -> decision L (body st0) j = true -> In j mv;
  pg_decided : forall j, In j mv ->
      (exists b, In b (getBlocks L) /\ In j (blockInsts (body st0) b)) /\
      movable j = true /\
      (isLoad j = true -> decision L (body st0) j = true);
  pg_settled : examinedAfterOperands L (body st0) = true ->
      forall j b, In b (getBlocks L) -> In j (blockInsts (body st) b) ->
      In (ptr j) D -> decision L (body st) j = false
}.

(** ** Settled loops *)

(** No instruction in a block of the loop passes the test of the sweep. *)
Definition settled (L : Loop) (F : list BasicBlock) : Prop :=
  forall b j i, In b (getBlocks L) -> In j (blockInsts F b) ->
    findInst F (ptr j) = Some i -> decision L F i = false.

(** Every loop the pass visits in the nest of [L] is settled: the sub-loops
    of a loop without preheader are not visited. *)
Fixpoint settledNest (F : list BasicBlock) (L : Loop) : Prop :=
  match L with
  | mkLoop None _ _ => True
  | mkLoop (Some PH) bs ss =>
      settled (mkLoop (Some PH) bs ss) F /\
      (fix all (ls : list Loop) : Prop :=
         match ls with
         | [] => True
         | s :: r => settledNest F s /\ all r
         end) ss
  end.

(** Every loop the pass visits in the function is settled. *)
Definition settledFunction (f : Function) : Prop :=
  Forall (settledNest (fbody f)) (floops f).

(** Two loops without a common block. *)
Definition disjointLoops (A B : Loop) : Prop :=
  forall b, In b (getBlocks A) -> ~ In b (getBlocks B).

(** The blocks of [A] are the same in [F] and [F']. *)
Definition unaffected (A : Loop) (F F' : list BasicBlock) : Prop :=
  forall b, In b (getBlocks A) -> blockInsts F' b = blockInsts F b.

(** ** What [summarize] counts *)

(** A function with at least one block. *)
Definition hasBody (f : Function) : bool :=
  match fbody f with [] => false | _ :: _ => true end.

(** All the instructions of a module. *)
Definition moduleInsts (M : Module) : list Instruction :=
  flat_map (fun f => allInsts (fbody f)) M.

(** The number of elements of a list that satisfy a test. *)
Definition howMany (A : Type) (P : A -> bool) (l : list A) : nat := length (filter P l).

(** The counters at the start of the program. *)
Definition zeroModuleStats : ModuleStatistics := mkModuleStats 0 0 0 0.

(** ** The statistics on the blocks of the loops *)

(** The blocks swept in a nest: those of every visited loop that has a
    preheader, a block counting once for each such loop it belongs to. *)
Fixpoint sweptBlocks (L : Loop) : nat :=
  match L with
  | mkLoop None _ _ => O
  | mkLoop (Some _) bs ss => (length bs + list_sum (map sweptBlocks ss))%nat
  end.

(** What [n] calls of [updateStats] can do to the counters: at most [n]
    increments in all, those of [NumLoopsWithCall] coming in pairs, and none
    of [NumLoopsNoStore]. *)
Definition tally (n : nat) (s s' : Statistics) : Prop :=
  exists a b c : nat,
    (a + b + c <= n)%nat /\
    read NumLoopsNoLoad s' = bumps a (read NumLoopsNoLoad s) /\
    read NumLoopsNoStoreWithLoad s' = bumps b (read NumLoopsNoStoreWithLoad s) /\
    read NumLoopsWithCall s' = bumps (2 * c) (read NumLoopsWithCall s) /\
    read NumLoopsNoStore s' = read NumLoopsNoStore s.

(** The four counters of [updateStats]. *)
Definition isBlockCounter (c : Counter) : bool :=
  match c with
  | NumLoopsNoStore | NumLoopsNoLoad | NumLoopsNoStoreWithLoad | NumLoopsWithCall => true
  | _ => false
  end.

(** What [OptimizeLoop2] finds when it scans the block [b]: an instruction
    that satisfies [P]. *)
Definition blockHas (P : Instruction -> bool) (F : list BasicBlock) (b : BlockRef) : bool :=
  existsb P (blockInsts F b).

(** The blocks for which [updateStats] increments [NumLoopsNoLoad],
    [NumLoopsNoStoreWithLoad] and (twice) [NumLoopsWithCall]. *)
Definition countsNoLoad (F : list BasicBlock) (b : BlockRef) : bool :=
  negb (blockHas isLoad F b).

Definition countsNoStoreWithLoad (F : list BasicBlock) (b : BlockRef) : bool :=
  blockHas isLoad F b && negb (blockHas isStore F b).

Definition countsWithCall (F : list BasicBlock) (b : BlockRef) : bool :=
  blockHas isLoad F b && blockHas isStore F b && blockHas isCall F b.

(** ** Terminators and preheaders *)

(** Every block that ends in a terminator in [F] ends in the same terminator
    in [F']. *)
Definition keepsTerminators (F F' : list BasicBlock) : Prop :=
  forall b t, getTerminator F b = Some t -> getTerminator F' b = Some t.

(** The preheaders of the loops of a nest. *)
Fixpoint preheaders (L : Loop) : list BlockRef :=
  match L with
  | mkLoop ph _ ss =>
      match ph with Some p => [p] | None => [] end ++ flat_map preheaders ss
  end.

(** Every block of the function ends in a terminator. *)
Definition terminated (F : list BasicBlock) : Prop :=
  forall B, In B F -> getTerminator F (label B) <> None.

(** ** Instructions the pass leaves in place *)

Definition isPHI (i : Instruction) : bool :=
  match kind i with Generic OpPHI _ => true | _ => false end.

(** Stores, terminators, phis, allocas, and the calls that LLVM does not
    accept to execute speculatively or that read memory. *)
Definition pinned (i : Instruction) : bool :=
  match kind i with
  | StoreInst _ _ _ => true
  | AllocaInst _ => true
  | CallInst speculatable readsMemory _ _ _ => negb speculatable || readsMemory
  | _ => isTerminator i || isPHI i
  end.

(** [bs] is among the blocks of [L]. *)
Definition blocksWithin (L' L : Loop) : Prop := incl (getBlocks L') (getBlocks L).

(** ** Where a relocated instruction comes from *)

(** The relocated instruction was in a block of the loop when it was
    moved. *)
Definition fromLoop (m : Move) : Prop :=
  contains (mv_loop m) (mv_before m) (ptr (mv_inst m)) = true.

(** The relocations added from [st] to [st'] all satisfy [Q]. *)
Definition movesAll (Q : Move -> Prop) (st st' : State) : Prop :=
  exists ms, hist st' = ms ++ hist st /\ Forall Q ms.

(** ** Relocations as changes of the code *)

(** The relocation [m] turns the body [F] into [F']: the instruction was in
    [F]; the preheader of the loop ends in a terminator, in front of which
    the instruction now stands; it is gone from where it was, and nothing
    else has changed. *)
Definition lands (m : Move) (F F' : list BasicBlock) : Prop :=
  mv_before m = F /\
  findInst F (ptr (mv_inst m)) = Some (mv_inst m) /\
  exists PH front t,
    getLoopPreheader (mv_loop m) = Some PH /\
    blockInsts F PH = front ++ [t] /\ isTerminator t = true /\
    blockInsts F' PH = filter (notAt (ptr (mv_inst m))) front ++ [mv_inst m; t] /\
    (forall b, b <> PH ->
       blockInsts F' b = filter (notAt (ptr (mv_inst m))) (blockInsts F b)) /\
    map label F' = map label F.

(** The relocations [ms], the latest first, lead from the body [F] to the
    body [F'], one after the other. *)
Inductive replay : list BasicBlock -> list Move -> list BasicBlock -> Prop :=
| replay_nil (F : list BasicBlock) : replay F [] F
| replay_cons (F F1 F' : list BasicBlock) (m : Move) (ms : list Move) :
    replay F ms F1 -> lands m F1 F' -> replay F (m :: ms) F'.

(** The same for a module: the relocations of the first function are the
    oldest. *)
Inductive mreplay : Module -> list Move -> Module -> Prop :=
| mreplay_nil : mreplay [] [] []
| mreplay_cons (f f' : Function) (M M' : Module) (ms rest : list Move) :
    floops f' = floops f ->
    replay (fbody f) ms (fbody f') ->
    mreplay M rest M' ->
    mreplay (f :: M) (rest ++ ms) (f' :: M').

(** The load instructions among the relocated ones, each listed once. *)
Definition loadsRelocated (ms : list Move) : list InstRef :=
  nodup N.eq_dec (map (fun m => ptr (mv_inst m)) (filter isLoadMove ms)).

(** ** Loop nests and the order of the first run *)

(** The blocks a run over the nest of [L] can change: the blocks of the
    loop, and the preheaders of the loops of the nest. *)
Definition touched (L : Loop) : list BlockRef := getBlocks L ++ preheaders L.

(** Two nests that stay out of each other's way: no block of one, and no
    preheader in it, is a block of the other. *)
Definition apart (A B : Loop) : Prop :=
  (forall b, In b (touched A) -> ~ In b (getBlocks B)) /\
  (forall b, In b (touched B) -> ~ In b (getBlocks A)).

(** A loop nest as [LoopInfo] builds it: the blocks of a loop are distinct,
    its preheader is none of them, the blocks of a sub-loop are blocks of the
    loop, and the sub-loops stay out of each other's way. *)
Inductive nestOK : Loop -> Prop :=
| nestOK_intro (ph : option BlockRef) (bs : list BlockRef) (ss : list Loop) :
    NoDup bs ->
    (forall PH, ph = Some PH -> ~ In PH bs) ->
    Forall nestOK ss ->
    Forall (fun s => incl (getBlocks s) bs) ss ->
    ForallOrdPairs apart ss ->
    nestOK (mkLoop ph bs ss).

(** The order of the first run.  [orderlyLoop L st] follows [OptimizeLoop2]
    on the nest of [L] and tests, each time the sweep of a loop is about to
    start, that the placement reached has the instructions of that loop
    examined after their operands. *)
Fixpoint orderlyLoop (L : Loop) (st : State) : bool :=
  match L with
  | mkLoop None _ _ => true
  | mkLoop (Some PH) bs subloops =>
      (fix each (ls : list Loop) (st : State) : bool :=
         match ls with
         | [] => examinedAfterOperands (mkLoop (Some PH) bs subloops) (body st)
         | subloop :: ls' =>
             orderlyLoop subloop st &&
             match OptimizeLoop2 subloop st with
             | None => false
             | Some st' => each ls' st'
             end
         end) subloops (count NumLoops st)
  end.

Fixpoint orderlyLoops (ls : list Loop) (st : State) : bool :=
  match ls with
  | [] => true
  | L :: ls' =>
      orderlyLoop L st &&
      match OptimizeLoop2 L st with
      | None => false
      | Some st' => orderlyLoops ls' st'
      end
  end.

(** What the first run does to a nest it goes through in order: it returns,
    leaves every visited loop of the nest settled, and changes no block
    outside the nest. *)
Definition settles (L : Loop) : Prop :=
  forall st st0, body st0 = body st -> wf (body st) -> nestOK L ->
    (forall PH, In PH (preheaders L) -> getTerminator (body st) PH <> None) ->
    orderlyLoop L st0 = true ->
    exists st', OptimizeLoop2 L st = Some st' /\
                settledNest (body st') L /\
                forall b, ~ In b (touched L) ->
                          blockInsts (body st') b = blockInsts (body st) b.

(** A function the first run of the pass goes through in order: distinct
    blocks and instruction objects, loop nests as [LoopInfo] builds them,
    preheaders that end in a terminator, and every sweep of the run examining
    the instructions of its loop after their operands. *)
Definition orderlyFunction (f : Function) : Prop :=
  wf (fbody f) /\
  Forall nestOK (floops f) /\
  ForallOrdPairs apart (floops f) /\
  (forall PH, In PH (flat_map preheaders (floops f)) ->
              getTerminator (fbody f) PH <> None) /\
  orderlyLoops (floops f) (mkState (fbody f) zeroStats []) = true.

(** ** The code a run produces *)

(** Two outcomes with the same code: both lost, or both with the same
    function body. *)
Definition sameCode (o1 o2 : option State) : Prop :=
  match o1, o2 with
  | Some a, Some b => body a = body b
  | None, None => True
  | _, _ => False
  end.

(** ** Reading the statistics file back *)

Section ReadingBack.

Import String Ascii.
Local Open Scope string_scope.

(** The character [c] does not occur in [s]. *)
Fixpoint lacks (c : ascii) (s : string) : bool :=
  match s with
  | EmptyString => true
  | String x r => negb (Ascii.eqb x c) && lacks c r
  end.

(** The part of [s] before the first [c], and the part after it if [c]
    occurs. *)
Fixpoint upto (c : ascii) (s : string) : string * option string :=
  match s with
  | EmptyString => (EmptyString, None)
  | String x r =>
      if Ascii.eqb x c then (EmptyString, Some r)
      else let (a, b) := upto c r in (String x a, b)
  end.

(** Reading at most [fuel] lines of the form name, comma, decimal number. *)
Fixpoint readLines (fuel : nat) (s : string) : option (list (string * N)) :=
  match s with
  | EmptyString => Some []
  | String _ _ =>
      match fuel with
      | O => None
      | S fuel' =>
          match upto endl s with
          | (line, Some rest) =>
              match upto "," line with
              | (name, Some digits) =>
                  match DecimalString.NilEmpty.uint_of_string digits with
                  | Some d =>
                      match readLines fuel' rest with
                      | Some l => Some ((name, N.of_uint d) :: l)
                      | None => None
                      end
                  | None => None
                  end
              | (_, None) => None
              end
          | (_, None) => None
          end
      end
  end.

Definition read_csv (s : string) : option (list (string * N)) :=
  readLines (String.length s) s.

(** A name without comma and without end of line. *)
Definition plainName (p : string * N) : Prop :=
  lacks "," (fst p) = true /\ lacks endl (fst p) = true.

End ReadingBack.

(** * Part III: example programs *)

(** One function: an entry block, which is the preheader of a one-block loop.
    The loop reads two globals (one of the reads volatile) and a local
    allocation, adds two constants and writes a third global. *)
Definition demo_body : list BasicBlock :=
  [ mkBlock 0%N
      [ mkInst 1%N (AllocaInst (Constant 1));
        mkInst 2%N (Generic OpBr [BlockLabel 1%N]) ];
    mkBlock 1%N
      [ mkInst 10%N (LoadInst false (GlobalVariable 1%N));
        mkInst 11%N (Generic OpAdd [Constant 3; Constant 4]);
        mkInst 12%N (LoadInst true (GlobalVariable 2%N));
        mkInst 13%N (LoadInst false (InstResult 1%N));
        mkInst 14%N (StoreInst false (InstResult 11%N) (GlobalVariable 3%N));
        mkInst 15%N (Generic OpBr [BlockLabel 1%N]) ] ].

Definition demo_loop : Loop := mkLoop (Some 0%N) [1%N] [].

Definition demo_module : Module := [ mkFunction demo_body [demo_loop] ].

Definition startGlobal : Global := mkGlobal zeroStats [].

Definition demo_after : Module * Global :=
  Eval vm_compute in
    match LoopInvariantCodeMotion demo_module startGlobal with
    | Some r => r
    | None => ([], startGlobal)
    end.

(** Two nested loops, neither with a preheader.  The outer loop has the
    header 1, entered from blocks 0 and 4, and the latch 3; the inner loop is
    the block 2, entered from blocks 1 and 5, which branches back to itself.
    Block 1 dominates the blocks 5, 2 and 3. *)
Definition nested_body : list BasicBlock :=
  [ mkBlock 0%N [ mkInst 1%N (Generic OpSwitch [Argument 0; BlockLabel 1%N; BlockLabel 4%N]) ];
    mkBlock 4%N [ mkInst 2%N (Generic OpBr [BlockLabel 1%N]) ];
    mkBlock 1%N [ mkInst 3%N (Generic OpSwitch [Argument 1; BlockLabel 2%N; BlockLabel 5%N]) ];
    mkBlock 5%N [ mkInst 4%N (Generic OpBr [BlockLabel 2%N]) ];
    mkBlock 2%N [ mkInst 5%N (Generic OpAdd [Constant 1; Constant 2]);
                  mkInst 6%N (Generic OpSwitch [Argument 2; BlockLabel 2%N; BlockLabel 3%N]) ];
    mkBlock 3%N [ mkInst 7%N (Generic OpSwitch [Argument 3; BlockLabel 1%N; BlockLabel 6%N]) ];
    mkBlock 6%N [ mkInst 8%N (Generic OpRet []) ] ].

Definition nested_inner : Loop := mkLoop None [2%N] [].
Definition nested_outer : Loop := mkLoop None [1%N; 5%N; 2%N; 3%N] [nested_inner].
Definition nested_module : Module := [ mkFunction nested_body [nested_outer] ].

(** A loop without preheader (blocks 1, 2 and 3, entered from blocks 0 and 4)
    around a loop that has one: block 2, with preheader 1.  The inner loop
    adds two constants. *)
Definition skipped_body : list BasicBlock :=
  [ mkBlock 0%N [ mkInst 1%N (Generic OpSwitch [Argument 0; BlockLabel 1%N; BlockLabel 4%N]) ];
    mkBlock 4%N [ mkInst 2%N (Generic OpBr [BlockLabel 1%N]) ];
    mkBlock 1%N [ mkInst 3%N (Generic OpBr [BlockLabel 2%N]) ];
    mkBlock 2%N [ mkInst 4%N (Generic OpAdd [Constant 1; Constant 2]);
                  mkInst 5%N (Generic OpSwitch [Argument 1; BlockLabel 2%N; BlockLabel 3%N]) ];
    mkBlock 3%N [ mkInst 6%N (Generic OpSwitch [Argument 2; BlockLabel 1%N; BlockLabel 5%N]) ];
    mkBlock 5%N [ mkInst 7%N (Generic OpRet []) ] ].

Definition skipped_inner : Loop := mkLoop (Some 1%N) [2%N] [].
Definition skipped_outer : Loop := mkLoop None [1%N; 2%N; 3%N] [skipped_inner].
Definition skipped_module : Module := [ mkFunction skipped_body [skipped_outer] ].

(** A loop (block 1, preheader 0) that reads global 7 and writes through a
    pointer argument. *)
Definition pointer_store_body : list BasicBlock :=
  [ mkBlock 0%N [ mkInst 1%N (Generic OpBr [BlockLabel 1%N]) ];
    mkBlock 1%N
      [ mkInst 10%N (LoadInst false (GlobalVariable 7%N));
        mkInst 11%N (StoreInst false (InstResult 10%N) (Argument 0%N));
        mkInst 12%N (Generic OpBr [BlockLabel 1%N]) ] ].

Definition one_block_loop : Loop := mkLoop (Some 0%N) [1%N] [].

(** A loop (block 1, preheader 0) that divides one argument by another. *)
Definition division_body : list BasicBlock :=
  [ mkBlock 0%N [ mkInst 1%N (Generic OpBr [BlockLabel 1%N]) ];
    mkBlock 1%N
      [ mkInst 10%N (Generic OpUDiv [Argument 0%N; Argument 1%N]);
        mkInst 11%N (Generic OpBr [BlockLabel 1%N]) ] ].

(** A loop (block 1, preheader 0) whose second addition uses the first; the
    instruction object of the second addition lies at the lower address. *)
Definition chain_body : list BasicBlock :=
  [ mkBlock 0%N [ mkInst 1%N (Generic OpBr [BlockLabel 1%N]) ];
    mkBlock 1%N
      [ mkInst 30%N (Generic OpAdd [Constant 1; Constant 2]);
        mkInst 20%N (Generic OpAdd [InstResult 30%N; Constant 5]);
        mkInst 40%N (Generic OpBr [BlockLabel 1%N]) ] ].

Definition chain_module : Module := [ mkFunction chain_body [one_block_loop] ].

(** A loop (block 1, preheader 0, exit 2) that reads global 7, updates it
    with an atomic read-modify-write and passes it to a call that may write
    memory; the loop holds no store instruction. *)
Definition atomic_body : list BasicBlock :=
  [ mkBlock 0%N [ mkInst 1%N (Generic OpBr [BlockLabel 1%N]) ];
    mkBlock 1%N
      [ mkInst 10%N (LoadInst false (GlobalVariable 7%N));
        mkInst 11%N (Generic OpAtomicRMW [GlobalVariable 7%N; Constant 1]);
        mkInst 12%N (CallInst false true true [GlobalVariable 7%N] (FunctionRef 3%N));
        mkInst 13%N (Generic OpICmp [InstResult 11%N; InstResult 10%N]);
        mkInst 14%N (Generic OpSwitch [InstResult 13%N; BlockLabel 1%N; BlockLabel 2%N]) ];
    mkBlock 2%N [ mkInst 15%N (Generic OpRet []) ] ].

Definition atomic_module : Module := [ mkFunction atomic_body [one_block_loop] ].

(** A loop over blocks 1 and 2 (preheader 0) around a loop over block 2
    (preheader 1); the inner loop reads global 1, which nothing writes. *)
Definition twice_body : list BasicBlock :=
  [ mkBlock 0%N [ mkInst 1%N (Generic OpBr [BlockLabel 1%N]) ];
    mkBlock 1%N [ mkInst 2%N (Generic OpBr [BlockLabel 2%N]) ];
    mkBlock 2%N
      [ mkInst 10%N (LoadInst false (GlobalVariable 1%N));
        mkInst 11%N (Generic OpSwitch [InstResult 10%N; BlockLabel 2%N; BlockLabel 1%N;
                                       BlockLabel 3%N]) ];
    mkBlock 3%N [ mkInst 12%N (Generic OpRet []) ] ].

Definition twice_inner : Loop := mkLoop (Some 1%N) [2%N] [].
Definition twice_outer : Loop := mkLoop (Some 0%N) [1%N; 2%N] [twice_inner].
Definition twice_module : Module := [ mkFunction twice_body [twice_outer] ].

(** A declaration and a function of one block, without loops. *)
Definition straight_module : Module :=
  [ mkFunction [] [];
    mkFunction [ mkBlock 0%N [ mkInst 1%N (LoadInst false (GlobalVariable 1%N));
                               mkInst 2%N (Generic OpRet [InstResult 1%N]) ] ] [] ].

(** A loop over the blocks 1, 2 and 3 (preheader 0, exit 4): block 1 holds
    no load, block 2 a load and no store, block 3 a load, a store and a
    call. *)
Definition blocks_body : list BasicBlock :=
  [ mkBlock 0%N [ mkInst 1%N (Generic OpBr [BlockLabel 1%N]) ];
    mkBlock 1%N [ mkInst 10%N (Generic OpAdd [Argument 0%N; Constant 1]);
                  mkInst 11%N (Generic OpBr [BlockLabel 2%N]) ];
    mkBlock 2%N [ mkInst 20%N (LoadInst false (GlobalVariable 1%N));
                  mkInst 21%N (Generic OpBr [BlockLabel 3%N]) ];
    mkBlock 3%N [ mkInst 30%N (LoadInst false (GlobalVariable 2%N));
                  mkInst 31%N (StoreInst false (InstResult 20%N) (GlobalVariable 2%N));
                  mkInst 32%N (CallInst false true true [InstResult 30%N] (FunctionRef 5%N));
                  mkInst 33%N (Generic OpSwitch [InstResult 32%N; BlockLabel 1%N;
                                                 BlockLabel 4%N]) ];
    mkBlock 4%N [ mkInst 40%N (Generic OpRet []) ] ].

Definition blocks_loop : Loop := mkLoop (Some 0%N) [1%N; 2%N; 3%N] [].

(** A loop (block 1, preheader 0, exit 2) with a loop-carried phi: the
    counter 11 is the phi 10 plus one, and the phi takes the counter on the
    back edge; the product 12 of the two arguments is invariant. *)
Definition phi_body : list BasicBlock :=
  [ mkBlock 0%N [ mkInst 1%N (Generic OpBr [BlockLabel 1%N]) ];
    mkBlock 1%N
      [ mkInst 10%N (Generic OpPHI [Constant 0; InstResult 11%N]);
        mkInst 11%N (Generic OpAdd [InstResult 10%N; Constant 1]);
        mkInst 12%N (Generic OpMul [Argument 0%N; Argument 1%N]);
        mkInst 13%N (Generic OpICmp [InstResult 11%N; InstResult 12%N]);
        mkInst 14%N (Generic OpSwitch [InstResult 13%N; BlockLabel 1%N; BlockLabel 2%N]) ];
    mkBlock 2%N [ mkInst 20%N (Generic OpRet []) ] ].

(** Two functions: the nested loops of [twice_body], and the loop of
    [phi_body]. *)
Definition ordered_module : Module :=
  [ mkFunction twice_body [twice_outer]; mkFunction phi_body [one_block_loop] ].

(** Two functions: the loop of [demo_body], and the loops of
    [skipped_body], of which the outer one has no preheader. *)
Definition mixed_module : Module :=
  [ mkFunction demo_body [demo_loop]; mkFunction skipped_body [skipped_outer] ].

Definition mixed_after : Module * Global :=
  Eval vm_compute in
    match LoopInvariantCodeMotion mixed_module startGlobal with
    | Some r => r
    | None => ([], startGlobal)
    end.

Definition twice_after : Module * Global :=
  Eval vm_compute in
    match LoopInvariantCodeMotion twice_module startGlobal with
    | Some r => r
    | None => ([], startGlobal)
    end.

(** * Part IV: lemmas and theorems *)

(** ** Basic facts about lookups and relocation *)

Lemma Value_eqb_eq (v w : Value) : Value_eqb v w = true <-> v = w.
Proof.
  destruct v, w; simpl; split; intro H;
    try discriminate; try (inversion H; subst);
    try (apply Z.eqb_eq in H; subst; reflexivity);
    try (apply N.eqb_eq in H; subst; reflexivity);
    try apply Z.eqb_refl; try apply N.eqb_refl.
Qed.

Lemma writesTo_spec (addr : Value) (s : Instruction) :
  writesTo addr s = true <-> exists vol v, kind s = StoreInst vol v addr.
Proof.
  unfold writesTo. destruct (kind s) as [| vol v a | | |];
    try (split; [discriminate | intros [? [? H]]; discriminate]).
  rewrite Value_eqb_eq. split.
  - intro H; subst. eauto.
  - intros [vol' [v' H]]. inversion H. reflexivity.
Qed.

Lemma find_hasPtr (p : InstRef) (l : list Instruction) (i : Instruction) :
  find (hasPtr p) l = Some i -> ptr i = p /\ In i l.
Proof.
  intro H. apply find_some in H. destruct H as [Hin Hp].
  unfold hasPtr in Hp. apply N.eqb_eq in Hp. auto.
Qed.

Lemma find_existsb_hasPtr (p : InstRef) (l : list Instruction) :
  existsb (hasPtr p) l = match find (hasPtr p) l with Some _ => true | None => false end.
Proof.
  induction l as [|j l IH]; simpl; [reflexivity|].
  destruct (hasPtr p j); simpl; auto.
Qed.

Lemma findInst_ptr (F : list BasicBlock) (p : InstRef) (i : Instruction) :
  findInst F p = Some i -> ptr i = p.
Proof.
  induction F as [|B F IH]; simpl; [discriminate|].
  destruct (find (hasPtr p) (insts B)) eqn:E.
  - intro H; inversion H; subst. apply (find_hasPtr _ _ _ E).
  - exact IH.
Qed.

Lemma findInst_In (F : list BasicBlock) (p : InstRef) (i : Instruction) :
  findInst F p = Some i -> In i (allInsts F).
Proof.
  unfold allInsts. induction F as [|B F IH]; simpl; [discriminate|].
  destruct (find (hasPtr p) (insts B)) eqn:E; intro H; apply in_or_app.
  - inversion H; subst. left. apply (find_hasPtr _ _ _ E).
  - right. auto.
Qed.

Lemma unlink_perm (p : InstRef) (l : list Instruction) (i : Instruction) :
  find (hasPtr p) l = Some i -> Permutation l (i :: unlink p l).
Proof.
  induction l as [|j l IH]; simpl; [discriminate|].
  destruct (hasPtr p j).
  - intro H; inversion H; subst. apply Permutation_refl.
  - intro H. eapply perm_trans; [apply perm_skip, (IH H) | apply perm_swap].
Qed.

Lemma removeInst_perm (F : list BasicBlock) (p : InstRef) (i : Instruction) :
  findInst F p = Some i -> Permutation (allInsts F) (i :: allInsts (removeInst p F)).
Proof.
  unfold allInsts. induction F as [|B F IH]; simpl; [discriminate|].
  rewrite find_existsb_hasPtr.
  destruct (find (hasPtr p) (insts B)) eqn:E; intro H; simpl.
  - inversion H; subst.
    change (i :: unlink p (insts B) ++ concat (map insts F))
      with ((i :: unlink p (insts B)) ++ concat (map insts F)).
    apply Permutation_app_tail, unlink_perm, E.
  - eapply perm_trans; [apply Permutation_app_head, (IH H)|].
    apply Permutation_sym, Permutation_middle.
Qed.

Lemma insertBeforeLast_perm (x : Instruction) (l : list Instruction) :
  Permutation (insertBeforeLast x l) (x :: l).
Proof.
  induction l as [|y l IH]; simpl; [apply Permutation_refl|].
  destruct l as [|z l]; [apply Permutation_refl|].
  eapply perm_trans; [apply perm_skip, IH | apply perm_swap].
Qed.

Lemma insertBeforeTerminator_perm (x : Instruction) (b : BlockRef) (F : list BasicBlock) :
  findBlock F b <> None ->
  Permutation (allInsts (insertBeforeTerminator x b F)) (x :: allInsts F).
Proof.
  unfold allInsts. induction F as [|B F IH]; simpl; [congruence|].
  destruct (N.eqb (label B) b); intro H; simpl.
  - change (x :: insts B ++ concat (map insts F))
      with ((x :: insts B) ++ concat (map insts F)).
    apply Permutation_app_tail, insertBeforeLast_perm.
  - eapply perm_trans; [apply Permutation_app_head, (IH H)|].
    apply Permutation_sym, Permutation_middle.
Qed.

Lemma removeInst_labels (p : InstRef) (F : list BasicBlock) :
  map label (removeInst p F) = map label F.
Proof.
  induction F as [|B F IH]; simpl; [reflexivity|].
  destruct (existsb (hasPtr p) (insts B)); simpl; congruence.
Qed.

Lemma insertBeforeTerminator_labels (x : Instruction) (b : BlockRef) (F : list BasicBlock) :
  map label (insertBeforeTerminator x b F) = map label F.
Proof.
  induction F as [|B F IH]; simpl; [reflexivity|].
  destruct (N.eqb (label B) b); simpl; congruence.
Qed.

Lemma findBlock_labels (F G : list BasicBlock) (b : BlockRef) :
  map label F = map label G -> findBlock F b = None -> findBlock G b = None.
Proof.
  revert G. induction F as [|B F IH]; intros [|C G]; simpl; try discriminate; auto.
  intro H; inversion H as [[H1 H2]]. rewrite H1.
  destruct (N.eqb (label C) b); [discriminate | apply IH, H2].
Qed.

Lemma getTerminator_findBlock (F : list BasicBlock) (b : BlockRef) (t : Instruction) :
  getTerminator F b = Some t -> findBlock F b <> None.
Proof.
  unfold getTerminator. destruct (findBlock F b); congruence.
Qed.

Lemma moveBeforeTerminator_perm (i : Instruction) (PH : BlockRef) (F F' : list BasicBlock) :
  findInst F (ptr i) = Some i ->
  moveBeforeTerminator i PH F = Some F' ->
  Permutation (allInsts F) (allInsts F').
Proof.
  unfold moveBeforeTerminator. intros Hi H.
  destruct (getTerminator F PH) as [t|] eqn:Et; [|discriminate].
  inversion H; subst; clear H.
  eapply perm_trans; [apply (removeInst_perm _ _ _ Hi)|].
  apply Permutation_sym, insertBeforeTerminator_perm.
  intro Hn. apply (getTerminator_findBlock _ _ _ Et).
  eapply findBlock_labels; [|exact Hn]. apply removeInst_labels.
Qed.

Lemma moveBeforeTerminator_labels (i : Instruction) (PH : BlockRef) (F F' : list BasicBlock) :
  moveBeforeTerminator i PH F = Some F' -> map label F' = map label F.
Proof.
  unfold moveBeforeTerminator. destruct (getTerminator F PH); [|discriminate].
  intro H; inversion H; subst.
  rewrite insertBeforeTerminator_labels. apply removeInst_labels.
Qed.

(** Instructions that do not satisfy [P] come and go without changing the
    [P]-view of the body. *)
Lemma unlink_filter (P : Instruction -> bool) (p : InstRef) (l : list Instruction)
  (i : Instruction) :
  find (hasPtr p) l = Some i -> P i = false -> filter P (unlink p l) = filter P l.
Proof.
  induction l as [|j l IH]; simpl; [discriminate|].
  destruct (hasPtr p j).
  - intros H HP; inversion H; subst. rewrite HP. reflexivity.
  - intros H HP. simpl. rewrite (IH H HP). reflexivity.
Qed.

Lemma removeInst_view (P : Instruction -> bool) (F : list BasicBlock) (p : InstRef)
  (i : Instruction) :
  findInst F p = Some i -> P i = false -> view P (removeInst p F) = view P F.
Proof.
  unfold view. induction F as [|B F IH]; simpl; [discriminate|].
  rewrite find_existsb_hasPtr.
  destruct (find (hasPtr p) (insts B)) eqn:E; intros H HP; simpl.
  - inversion H; subst. rewrite (unlink_filter P _ _ _ E HP). reflexivity.
  - rewrite (IH H HP). reflexivity.
Qed.

Lemma insertBeforeLast_filter (P : Instruction -> bool) (x : Instruction)
  (l : list Instruction) :
  P x = false -> filter P (insertBeforeLast x l) = filter P l.
Proof.
  intro HP. induction l as [|y l IH]; simpl; [rewrite HP; reflexivity|].
  destruct l as [|z l]; [simpl; rewrite HP; reflexivity|].
  change (insertBeforeLast x (y :: z :: l)) with (y :: insertBeforeLast x (z :: l)).
  remember (insertBeforeLast x (z :: l)) as r. remember (z :: l) as zl.
  simpl. rewrite IH. reflexivity.
Qed.

Lemma insertBeforeTerminator_view (P : Instruction -> bool) (x : Instruction)
  (b : BlockRef) (F : list BasicBlock) :
  P x = false -> view P (insertBeforeTerminator x b F) = view P F.
Proof.
  unfold view. intro HP. induction F as [|B F IH]; simpl; [reflexivity|].
  destruct (N.eqb (label B) b); simpl.
  - rewrite (insertBeforeLast_filter P _ _ HP). reflexivity.
  - rewrite IH. reflexivity.
Qed.

Lemma moveBeforeTerminator_view (P : Instruction -> bool) (i : Instruction)
  (PH : BlockRef) (F F' : list BasicBlock) :
  findInst F (ptr i) = Some i -> P i = false ->
  moveBeforeTerminator i PH F = Some F' -> view P F' = view P F.
Proof.
  unfold moveBeforeTerminator. intros Hi HP.
  destruct (getTerminator F PH); [|discriminate].
  intro H; inversion H; subst.
  rewrite (insertBeforeTerminator_view P _ _ _ HP).
  apply (removeInst_view P _ _ _ Hi HP).
Qed.

Lemma blockInsts_view (P : Instruction -> bool) (F : list BasicBlock) (b : BlockRef) :
  blockInsts (view P F) b = filter P (blockInsts F b).
Proof.
  unfold blockInsts, view. induction F as [|B F IH]; simpl; [reflexivity|].
  destruct (N.eqb (label B) b); simpl; auto.
Qed.

(** ** The unfolding of [OptimizeLoop2] *)

Lemma OptimizeLoop2_eq (L : Loop) (st : State) :
  OptimizeLoop2 L st =
  match getLoopPreheader L with
  | None => Some (count LICMNoPreheader (count NumLoops st))
  | Some PH =>
      match OptimizeLoops (getSubLoops L) (count NumLoops st) with
      | None => None
      | Some st' => rewriteLoop L PH st'
      end
  end.
Proof.
  destruct L as [[PH|] bs ss]; simpl; [|reflexivity].
  generalize (count NumLoops st). clear st.
  assert (E : forall ls s,
    (fix each (ls : list Loop) (st : State) {struct ls} : option State :=
       match ls with
       | [] => Some st
       | subloop :: ls' =>
           match OptimizeLoop2 subloop st with
           | Some st' => each ls' st'
           | None => None
           end
       end) ls s = OptimizeLoops ls s).
  { induction ls as [|s0 ls IH]; intro s; simpl; [reflexivity|].
    destruct (OptimizeLoop2 s0 s); auto. }
  intro s. rewrite E. reflexivity.
Qed.

(** ** The pass as a sequence of elementary steps *)

Lemma run_trans (a b c : State) : run a b -> run b c -> run a c.
Proof.
  induction 1 as [|a b b' Hs Hr IH]; intro H; [exact H|].
  eapply run_step; [exact Hs | exact (IH H)].
Qed.

Lemma run_one (a b : State) : step a b -> run a b.
Proof. intro H. eapply run_step; [exact H | apply run_refl]. Qed.

Lemma State_eta (st : State) : mkState (body st) (stats st) (hist st) = st.
Proof. destruct st; reflexivity. Qed.

Lemma run_updateStats (hl hs hc : bool) (st : State) :
  run st (mkState (body st) (updateStats hl hs hc (stats st)) (hist st)).
Proof.
  unfold updateStats.
  destruct (negb hs && hl); [apply run_one, (step_count NumLoopsNoStoreWithLoad); discriminate|].
  destruct (negb hl); [apply run_one, (step_count NumLoopsNoLoad); discriminate|].
  destruct (negb hs); [apply run_one, (step_count NumLoopsNoStore); discriminate|].
  destruct hc; [|rewrite State_eta; apply run_refl].
  eapply run_step; [apply (step_count NumLoopsWithCall); discriminate|].
  apply run_one.
  apply (step_count NumLoopsWithCall); discriminate.
Qed.

Lemma visit_run (L : Loop) (PH : BlockRef) (lcs : bool) (p : InstRef) (st st' : State) :
  getLoopPreheader L = Some PH ->
  visit L PH lcs p st = Some st' -> run st st'.
Proof.
  intros HPH. unfold visit.
  destruct (findInst (body st) p) as [i|] eqn:Ei;
    [|intro H; inversion H; apply run_refl].
  assert (Hp : findInst (body st) (ptr i) = Some i)
    by (rewrite (findInst_ptr _ _ _ Ei); exact Ei).
  destruct (NotALoadOrStore i) eqn:En.
  - destruct (AreAllOperandsLoopInvaraint L (body st) i) eqn:Eo;
      [|intro H; inversion H; apply run_refl].
    unfold makeLoopInvariant.
    destruct (contains L (body st) (ptr i)) eqn:Ec; simpl;
      [|intro H; inversion H; apply run_refl].
    destruct (isSafeToSpeculativelyExecute i) eqn:Es; simpl;
      [|intro H; inversion H; apply run_refl].
    destruct (mayReadFromMemory i) eqn:Em;
      [intro H; inversion H; apply run_refl|].
    rewrite HPH.
    destruct (forallb (isLoopInvariant L (body st)) (operands i)); simpl;
      [|intro H; inversion H; apply run_refl].
    destruct (relocate L i PH st) as [st1|] eqn:Er; [|discriminate].
    intro H; inversion H; subst. apply run_one.
    eapply step_basic; eassumption.
  - destruct (kind i) as [vol addr| | | |] eqn:Ek;
      try (intro H; inversion H; apply run_refl).
    destruct (CanMoveOutofLoop (body st) L i addr lcs) eqn:Ecm;
      [|intro H; inversion H; apply run_refl].
    unfold hoistInstructionToPreheader.
    destruct (relocate L i PH st) as [st1|] eqn:Er; [|discriminate].
    intro H; inversion H; subst. apply run_one.
    eapply step_load; eassumption.
Qed.

Lemma drain_run (L : Loop) (PH : BlockRef) (lcs : bool) (wl : list InstRef) :
  getLoopPreheader L = Some PH ->
  forall st st', drain L PH lcs wl st = Some st' -> run st st'.
Proof.
  intro HPH. induction wl as [|p wl IH]; simpl; intros st st' H.
  - inversion H; apply run_refl.
  - destruct (visit L PH lcs p st) as [st1|] eqn:Ev; [|discriminate].
    eapply run_trans; [apply (visit_run _ _ _ _ _ _ HPH Ev) | apply (IH _ _ H)].
Qed.

Lemma sweepBlock_run (L : Loop) (PH : BlockRef) (bb : BlockRef) (lcs lcs' : bool)
  (st st' : State) :
  getLoopPreheader L = Some PH ->
  sweepBlock L PH bb lcs st = Some (st', lcs') -> run st st'.
Proof.
  intro HPH. unfold sweepBlock.
  match goal with |- match drain _ _ ?l ?w ?s with _ => _ end = _ -> _ =>
    destruct (drain L PH l w s) as [st2|] eqn:Ed; [|discriminate] end.
  intro H; inversion H; subst.
  eapply run_trans; [|apply (drain_run _ _ _ _ HPH _ _ Ed)].
  apply run_updateStats.
Qed.

Lemma sweepBlocks_run (L : Loop) (PH : BlockRef) (bbs : list BlockRef) :
  getLoopPreheader L = Some PH ->
  forall lcs st st', sweepBlocks L PH bbs lcs st = Some st' -> run st st'.
Proof.
  intro HPH. induction bbs as [|bb bbs IH]; simpl; intros lcs st st' H.
  - inversion H; apply run_refl.
  - destruct (sweepBlock L PH bb lcs st) as [[st1 l1]|] eqn:Es; [|discriminate].
    eapply run_trans; [apply (sweepBlock_run _ _ _ _ _ _ _ HPH Es) | apply (IH _ _ _ H)].
Qed.

Lemma OptimizeLoops_Forall (ls : list Loop) :
  Forall (fun L => forall st st', OptimizeLoop2 L st = Some st' -> run st st') ls ->
  forall st st', OptimizeLoops ls st = Some st' -> run st st'.
Proof.
  induction 1 as [|L ls HL _ IH]; simpl; intros st st' H.
  - inversion H; apply run_refl.
  - destruct (OptimizeLoop2 L st) as [st1|] eqn:E; [|discriminate].
    eapply run_trans; [apply (HL _ _ E) | apply (IH _ _ H)].
Qed.

(** Every successful run of [OptimizeLoop2] is a sequence of elementary
    steps. *)
Lemma OptimizeLoop2_run (L : Loop) :
  forall st st', OptimizeLoop2 L st = Some st' -> run st st'.
Proof.
  induction L as [ph bs ss IH] using Loop_forest_ind. intros st st'.
  rewrite OptimizeLoop2_eq. simpl.
  destruct ph as [PH|].
  - destruct (OptimizeLoops ss (count NumLoops st)) as [st1|] eqn:E; [|discriminate].
    intro H.
    eapply run_step; [apply (step_count NumLoops); discriminate|].
    eapply run_trans; [apply (OptimizeLoops_Forall _ IH _ _ E)|].
    unfold rewriteLoop in H. eapply sweepBlocks_run; [|exact H]. reflexivity.
  - intro H; inversion H; subst.
    eapply run_step; [apply (step_count NumLoops); discriminate|].
    apply run_one. apply (step_count LICMNoPreheader); discriminate.
Qed.

Lemma OptimizeLoops_run (ls : list Loop) :
  forall st st', OptimizeLoops ls st = Some st' -> run st st'.
Proof.
  apply OptimizeLoops_Forall.
  apply Forall_forall. intros L _. apply OptimizeLoop2_run.
Qed.

(** ** The whole pass as a sequence of runs, one per function *)

Lemma runOnFunction_run (f f' : Function) (g g' : Global) :
  runOnFunction f g = Some (f', g') ->
  floops f' = floops f /\
  run (mkState (fbody f) (gstats g) (ghist g))
      (mkState (fbody f') (gstats g') (ghist g')).
Proof.
  unfold runOnFunction. destruct (fbody f) as [|B F] eqn:EF.
  - intro H; inversion H; subst. rewrite EF. split; [reflexivity | apply run_refl].
  - destruct (OptimizeLoops (floops f) (mkState (B :: F) (gstats g) (ghist g)))
      as [st|] eqn:E; [|discriminate].
    intro H; inversion H; subst; simpl. split; [reflexivity|].
    rewrite State_eta. apply (OptimizeLoops_run _ _ _ E).
Qed.

Lemma RunLICMBasic_mrun (M : Module) :
  forall g M' g', RunLICMBasic M g = Some (M', g') -> mrun M g M' g'.
Proof.
  induction M as [|f M IH]; simpl; intros g M' g' H.
  - inversion H; subst. apply mrun_nil.
  - destruct (runOnFunction f g) as [[f1 g1]|] eqn:Ef; [|discriminate].
    destruct (RunLICMBasic M g1) as [[M1 g2]|] eqn:EM; [|discriminate].
    inversion H; subst.
    destruct (runOnFunction_run _ _ _ _ Ef) as [Hl Hr].
    eapply mrun_cons; [exact Hl | exact Hr | apply (IH _ _ _ EM)].
Qed.

(** ** What a relocation has been tested for *)

Lemma storeAllows_spec (F : list BasicBlock) (addr : Value) (s : Instruction) :
  storeAllows F addr s = true <->
  writesTo addr s = false /\
  (forall vol v a, kind s = StoreInst vol v a ->
     isAlloca F a = true \/ isGlobalVariable a = true).
Proof.
  unfold storeAllows, writesTo. destruct (kind s) as [| vol v a | | |];
    try (split; [intros _; split; [reflexivity | intros; discriminate] | reflexivity]).
  destruct (Value_eqb addr a); [split; [discriminate | intros [H _]; discriminate]|].
  destruct (isAlloca F a) eqn:Ea; simpl.
  - split; [intros _; split; [reflexivity | intros ? ? ? H; inversion H; subst; auto] | reflexivity].
  - destruct (isGlobalVariable a) eqn:Eg; simpl.
    + split; [intros _; split; [reflexivity | intros ? ? ? H; inversion H; subst; auto] | reflexivity].
    + split; [discriminate|]. intros [_ H].
      destruct (H _ _ _ eq_refl) as [H1|H1]; congruence.
Qed.

Lemma NoPossibleStoresToAddressInLoop_spec (L : Loop) (F : list BasicBlock) (addr : Value) :
  NoPossibleStoresToAddressInLoop L F addr = true <->
  noWriteTo L F addr /\ writesResolved L F.
Proof.
  unfold NoPossibleStoresToAddressInLoop, noWriteTo, writesResolved.
  rewrite forallb_forall. split.
  - intro H. split.
    + intros b s Hb Hs. specialize (H b Hb). rewrite forallb_forall in H.
      apply (storeAllows_spec F addr s), (H s Hs).
    + intros b s vol v a Hb Hs Hk. specialize (H b Hb). rewrite forallb_forall in H.
      apply (proj1 (storeAllows_spec F addr s) (H s Hs)) with (vol := vol) (v := v).
      exact Hk.
  - intros [H1 H2] b Hb. rewrite forallb_forall. intros s Hs.
    apply storeAllows_spec. split; [apply (H1 b s Hb Hs)|].
    intros vol v a Hk. apply (H2 b s vol v a Hb Hs Hk).
Qed.

Lemma CanMoveOutofLoop_spec (F : list BasicBlock) (L : Loop) (i : Instruction)
  (addr : Value) (lcs : bool) :
  CanMoveOutofLoop F L i addr lcs = true <->
  isVolatile i = false /\ isGlobalVariable addr = true /\
  noWriteTo L F addr /\ writesResolved L F.
Proof.
  unfold CanMoveOutofLoop. rewrite <- NoPossibleStoresToAddressInLoop_spec.
  destruct (isVolatile i); [split; [discriminate | intros [H _]; discriminate]|].
  destruct (isGlobalVariable addr); simpl;
    [|split; [discriminate | intros [_ [H _]]; discriminate]].
  destruct (NoPossibleStoresToAddressInLoop L F addr);
    [tauto | split; [discriminate | intros [_ [_ H]]; discriminate]].
Qed.

Lemma read_write_same (c : Counter) (z : Z) (s : Statistics) : read c (write c z s) = z.
Proof. destruct s, c; reflexivity. Qed.

Lemma read_write_other (c d : Counter) (z : Z) (s : Statistics) :
  c <> d -> read c (write d z s) = read c s.
Proof. destruct s, c, d; intro H; try reflexivity; congruence. Qed.

Lemma relocate_inv (L : Loop) (i : Instruction) (PH : BlockRef) (st st' : State) :
  relocate L i PH st = Some st' ->
  hist st' = mkMove L i (body st) :: hist st /\ stats st' = stats st /\
  moveBeforeTerminator i PH (body st) = Some (body st').
Proof.
  unfold relocate. destruct (moveBeforeTerminator i PH (body st)); [|discriminate].
  intro H; inversion H; subst; simpl. auto.
Qed.

Lemma read_count_same (c : Counter) (st : State) :
  read c (stats (count c st)) = wrap (read c (stats st) + 1).
Proof. unfold count, incr; simpl. apply read_write_same. Qed.

Lemma read_count_other (c d : Counter) (st : State) :
  c <> d -> read c (stats (count d st)) = read c (stats st).
Proof. intro H. unfold count, incr; simpl. apply read_write_other, H. Qed.

Lemma step_cases (st st' : State) :
  step st st' ->
  (body st' = body st /\ hist st' = hist st /\
   read LICMLoadHoist (stats st') = read LICMLoadHoist (stats st) /\
   read LICMBasic (stats st') = read LICMBasic (stats st)) \/
  (exists m, relocated m st st').
Proof.
  intros [c s Hb Hl | L PH i s s' HPH Hi Hn Ho Hc Hs Hm Hr
                    | L PH i vol addr lcs s s' HPH Hi Hk Hcm Hr].
  - left. rewrite !read_count_other by congruence. simpl. auto.
  - right. exists (mkMove L i (body s)).
    destruct (relocate_inv _ _ _ _ _ Hr) as [Hh [Hst Hmv]].
    assert (Hld : isLoad i = false).
    { unfold NotALoadOrStore in Hn. destruct (isLoad i); [discriminate | reflexivity]. }
    constructor.
    + exact Hh.
    + reflexivity.
    + exact Hi.
    + simpl. unfold movable. unfold NotALoadOrStore, isLoad, isStore in Hn.
      destruct (kind i); try discriminate; rewrite Hs, Hm; reflexivity.
    + exact Ho.
    + simpl. intros vol addr Hk. unfold isLoad in Hld. rewrite Hk in Hld. discriminate.
    + exists PH; auto.
    + cbn [mv_inst]. rewrite Hld, read_count_same, read_count_other by discriminate.
      rewrite Hst. auto.
  - right. exists (mkMove L i (body s)).
    destruct (relocate_inv _ _ _ _ _ Hr) as [Hh [Hst Hmv]].
    apply CanMoveOutofLoop_spec in Hcm. destruct Hcm as [Hv [Hg [Hw Hres]]].
    assert (Hvol : vol = false) by (unfold isVolatile in Hv; rewrite Hk in Hv; exact Hv).
    constructor.
    + exact Hh.
    + reflexivity.
    + exact Hi.
    + simpl. unfold movable. rewrite Hk, Hvol, Hg. reflexivity.
    + simpl. unfold AreAllOperandsLoopInvaraint, operands. rewrite Hk. simpl.
      destruct addr; try discriminate. reflexivity.
    + simpl. intros vol0 addr0 Hk0. rewrite Hk in Hk0. inversion Hk0; subst. auto.
    + exists PH; auto.
    + cbn [mv_inst]. unfold isLoad. rewrite Hk.
      rewrite read_count_same, read_count_other by discriminate.
      rewrite Hst. auto.
Qed.

(** ** What a run adds up to *)

Lemma bumps_add (n k : nat) (z : Z) : bumps (n + k) z = bumps k (bumps n z).
Proof. revert z. induction n as [|n IH]; intro z; simpl; auto. Qed.

Lemma wrap_succ (z : Z) : wrap (wrap z + 1) = wrap (z + 1).
Proof. unfold wrap. apply Z.add_mod_idemp_l. discriminate. Qed.

Lemma bumps_wrap (n : nat) (z : Z) : bumps n (wrap z) = wrap (z + Z.of_nat n).
Proof.
  revert z. induction n as [|n IH]; intro z.
  - simpl. rewrite Z.add_0_r. reflexivity.
  - cbn [bumps]. rewrite wrap_succ, IH. f_equal. lia.
Qed.

Lemma wrap_small (z : Z) : 0 <= z < 2 ^ 32 -> wrap z = z.
Proof. intro H. unfold wrap. apply Z.mod_small, H. Qed.

Lemma bumps_small (n : nat) (z : Z) :
  0 <= z < 2 ^ 32 -> bumps n z = wrap (z + Z.of_nat n).
Proof. intro H. rewrite <- (wrap_small z H) at 1. apply bumps_wrap. Qed.

Lemma sound_of_relocated (m : Move) (st st' : State) : relocated m st st' -> sound m.
Proof.
  intros [_ Hb _ _ Hinv Hload _ _]. split.
  - rewrite Hb. exact Hinv.
  - intros vol addr Hk. rewrite Hb. apply (Hload vol addr Hk).
Qed.

Lemma sound_as_specified (m : Move) :
  sound m -> onlyStoresWrite (mv_loop m) (mv_before m) -> soundAsSpecified m.
Proof.
  intros [Hinv Hload] Hos. split; [exact Hinv|].
  intros vol addr Hk. left. destruct (Hload vol addr Hk) as [_ [Hg [Hw _]]].
  split; [exact Hg|]. intros b s Hb Hs.
  destruct (mayWriteTo addr s) eqn:E; [|reflexivity].
  assert (Hm : mayWriteToMemory s = true).
  { revert E. unfold mayWriteTo, mayWriteToMemory.
    destruct (kind s) as [| | | |op ops]; try discriminate; auto.
    destruct op; try discriminate; auto. }
  pose proof (Hos b s Hb Hs Hm) as Hst. pose proof (Hw b s Hb Hs) as Hn.
  revert E Hst Hn. unfold mayWriteTo, writesTo, isStore.
  destruct (kind s) as [| | | |op ops]; try discriminate; congruence.
Qed.

Lemma checked_of_relocated (m : Move) (st st' : State) : relocated m st st' -> checked m.
Proof.
  intro H. pose proof (sound_of_relocated _ _ _ H) as Hs.
  destruct H as [_ Hb Hf Hmov _ _ [PH [HPH _]] _].
  constructor; auto.
  - rewrite Hb. exact Hf.
  - congruence.
Qed.

Lemma summary_refl (st : State) : summary [] st st.
Proof.
  constructor; simpl; auto.
Qed.

Lemma summary_step (st st' : State) : step st st' -> exists ms, summary ms st st'.
Proof.
  intro H. destruct (step_cases _ _ H) as [[Hb [Hh [Hl Hc]]] | [m Hm]].
  - exists []. constructor; simpl; auto; rewrite Hb; auto.
  - exists [m]. pose proof (checked_of_relocated _ _ _ Hm) as Hs.
    destruct Hm as [Hh Hbef Hf Hmov Hinv Hload [PH [HPH Hmv]] Hcnt].
    constructor; simpl; auto.
    + unfold countLoads, isLoadMove. simpl.
      destruct (isLoad (mv_inst m)); simpl; tauto.
    + unfold countOthers, isLoadMove. simpl.
      destruct (isLoad (mv_inst m)); simpl; tauto.
    + apply (moveBeforeTerminator_perm _ _ _ _ Hf Hmv).
    + apply (moveBeforeTerminator_labels _ _ _ _ Hmv).
    + intros P HP. apply (moveBeforeTerminator_view P _ PH _ _ Hf); auto.
Qed.

Lemma summary_trans (ms1 ms2 : list Move) (a b c : State) :
  summary ms1 a b -> summary ms2 b c -> summary (ms2 ++ ms1) a c.
Proof.
  intros [Hh1 Hs1 Hl1 Hb1 Hp1 Hla1 Hf1] [Hh2 Hs2 Hl2 Hb2 Hp2 Hla2 Hf2].
  constructor.
  - rewrite Hh2, Hh1. apply app_assoc.
  - apply Forall_app; auto.
  - unfold countLoads in *. rewrite filter_app, length_app, Nat.add_comm, bumps_add.
    rewrite <- Hl1. exact Hl2.
  - unfold countOthers in *. rewrite filter_app, length_app, Nat.add_comm, bumps_add.
    rewrite <- Hb1. exact Hb2.
  - eapply perm_trans; eassumption.
  - congruence.
  - intros P HP. rewrite Hf2, Hf1; auto; intros m Hm; apply HP, in_or_app; auto.
Qed.

Lemma run_summary (st st' : State) : run st st' -> exists ms, summary ms st st'.
Proof.
  induction 1 as [st | a b c Hs Hr [ms2 IH]].
  - exists []. apply summary_refl.
  - destruct (summary_step _ _ Hs) as [ms1 H1].
    exists (ms2 ++ ms1). eapply summary_trans; eassumption.
Qed.

Lemma sameFunction_weaken (ms ms' : list Move) (f f' : Function) :
  (forall m, In m ms -> In m ms') -> sameFunction ms f f' -> sameFunction ms' f f'.
Proof.
  intros Hsub [H1 [H2 [H3 H4]]]. repeat split; auto.
Qed.

Lemma mrun_summary (M M' : Module) (g g' : Global) :
  mrun M g M' g' -> exists ms, msummary ms M g M' g'.
Proof.
  induction 1 as [g | f f' M M' g g1 g' Hl Hr Hm [ms2 IH]].
  - exists []. constructor; simpl; auto.
  - destruct (run_summary _ _ Hr) as [ms1 [Hh1 Hs1 Hl1 Hb1 Hp1 Hla1 Hf1]].
    destruct IH as [Hh2 Hs2 Hl2 Hb2 HF2].
    cbn [hist stats body] in Hh1, Hl1, Hb1, Hp1, Hla1, Hf1.
    exists (ms2 ++ ms1). constructor.
    + rewrite Hh2, Hh1. apply app_assoc.
    + apply Forall_app; auto.
    + unfold countLoads in *. rewrite filter_app, length_app, Nat.add_comm, bumps_add.
      rewrite <- Hl1. exact Hl2.
    + unfold countOthers in *. rewrite filter_app, length_app, Nat.add_comm, bumps_add.
      rewrite <- Hb1. exact Hb2.
    + constructor.
      * repeat split; auto.
        intros P HP. apply Hf1. intros m Hin. apply HP, in_or_app; auto.
      * eapply Forall2_impl; [|exact HF2].
        intros a b. apply sameFunction_weaken. intros m Hin. apply in_or_app; auto.
Qed.

(** ** The relocations of one run of the pass *)

Lemma newMoves_app (ms h : list Move) : newMoves h (ms ++ h) = ms.
Proof.
  unfold newMoves. rewrite length_app.
  replace (length ms + length h - length h)%nat with (length ms) by lia.
  rewrite firstn_app, Nat.sub_diag, firstn_all. simpl. apply app_nil_r.
Qed.

Lemma read_decr_incr (c : Counter) (s : Statistics) :
  0 <= read c s < 2 ^ 32 -> read c (decr c (incr c s)) = read c s.
Proof.
  intro H. unfold decr, incr. rewrite !read_write_same. unfold wrap.
  rewrite Zminus_mod_idemp_l. replace (read c s + 1 - 1) with (read c s) by lia.
  apply Z.mod_small, H.
Qed.

Lemma LICM_summary (M M' : Module) (g g' : Global) :
  LoopInvariantCodeMotion M g = Some (M', g') ->
  msummary (relocations g g') M
    (mkGlobal (decr LICMLoadHoist (incr LICMLoadHoist (gstats g))) (ghist g)) M' g'.
Proof.
  unfold LoopInvariantCodeMotion. intro H.
  destruct (mrun_summary _ _ _ _ (RunLICMBasic_mrun _ _ _ _ H)) as [ms Hs].
  assert (E : relocations g g' = ms).
  { unfold relocations. rewrite (msum_hist _ _ _ _ _ Hs). simpl. apply newMoves_app. }
  rewrite E. exact Hs.
Qed.

Lemma movable_of_checked (ms : list Move) (P : Instruction -> bool) :
  (forall i, movable i = true -> P i = false) ->
  Forall checked ms -> forall m, In m ms -> P (mv_inst m) = false.
Proof.
  intros HP Hc m Hin. rewrite Forall_forall in Hc.
  apply HP, (chk_movable _ (Hc m Hin)).
Qed.

(** Instructions that are not movable keep their block and their order in it,
    function by function. *)
Lemma LICM_frame (P : Instruction -> bool) (M M' : Module) (g g' : Global) :
  (forall i, movable i = true -> P i = false) ->
  LoopInvariantCodeMotion M g = Some (M', g') ->
  Forall2 (fun f f' => forall b,
             filter P (blockInsts (fbody f') b) = filter P (blockInsts (fbody f) b))
          M M' /\
  Forall (fun m => P (mv_inst m) = false) (relocations g g').
Proof.
  intros HP H. destruct (LICM_summary _ _ _ _ H) as [_ Hc _ _ HF]. split.
  - eapply Forall2_impl; [|exact HF].
    intros f f' [_ [_ [_ Hv]]] b. rewrite <- !blockInsts_view. f_equal.
    apply Hv. apply (movable_of_checked _ P HP Hc).
  - apply Forall_forall. apply (movable_of_checked _ P HP Hc).
Qed.

(** ** The example program, run *)

Example demo_placement :
  map fbody (fst demo_after) =
  [ [ mkBlock 0%N
        [ mkInst 1%N (AllocaInst (Constant 1));
          mkInst 10%N (LoadInst false (GlobalVariable 1%N));
          mkInst 11%N (Generic OpAdd [Constant 3; Constant 4]);
          mkInst 2%N (Generic OpBr [BlockLabel 1%N]) ];
      mkBlock 1%N
        [ mkInst 12%N (LoadInst true (GlobalVariable 2%N));
          mkInst 13%N (LoadInst false (InstResult 1%N));
          mkInst 14%N (StoreInst false (InstResult 11%N) (GlobalVariable 3%N));
          mkInst 15%N (Generic OpBr [BlockLabel 1%N]) ] ] ].
Proof. reflexivity. Qed.

(** ** Soundness of the relocations *)

(** C3, as stated, fails: the loop of [atomic_body] reads global 7, updates
    it with an atomic read-modify-write and passes it to a call that may
    write memory; [NoPossibleStoresToAddressInLoop] looks at store
    instructions only, so the read is relocated to the preheader although
    instructions of the loop write to its address. *)
Lemma hoisted_load_is_written_in_loop :
  exists M' g' m rmw,
    LoopInvariantCodeMotion atomic_module startGlobal = Some (M', g') /\
    relocations startGlobal g' = [m] /\
    mv_loop m = one_block_loop /\ mv_before m = atomic_body /\
    kind (mv_inst m) = LoadInst false (GlobalVariable 7%N) /\
    In rmw (blockInsts atomic_body 1%N) /\
    kind rmw = Generic OpAtomicRMW [GlobalVariable 7%N; Constant 1] /\
    mayWriteTo (GlobalVariable 7%N) rmw = true /\
    ~ soundAsSpecified m.
Proof.
  set (rmw := mkInst 11%N (Generic OpAtomicRMW [GlobalVariable 7%N; Constant 1])).
  assert (Hin : In rmw (blockInsts atomic_body 1%N)) by (simpl; auto).
  eexists. eexists. eexists. exists rmw.
  split; [vm_compute; reflexivity|].
  split; [vm_compute; reflexivity|].
  split; [reflexivity|]. split; [reflexivity|]. split; [reflexivity|].
  split; [exact Hin|]. split; [reflexivity|]. split; [reflexivity|].
  intros [_ H]. cbn [mv_inst mv_loop mv_before] in H.
  destruct (H false (GlobalVariable 7%N) eq_refl) as [[_ Hw] | Hw];
    specialize (Hw 1%N rmw (or_introl eq_refl) Hin); discriminate Hw.
Qed.

(** C3: whatever the pass hoists out of a loop had all its operands
    loop-invariant in the placement current at the time of the move, and a
    hoisted memory read is a non-volatile read of a global which no store
    instruction of the loop has as its pointer operand, while every store
    instruction of the loop goes to an alloca or to a global.  Where store
    instructions are the only instructions of the loop that may write
    memory, no instruction of the loop writes to the address of the read. *)
Theorem hoists_are_checked_against_stores (M M' : Module) (g g' : Global) :
  LoopInvariantCodeMotion M g = Some (M', g') ->
  Forall (fun m => sound m /\
                   (onlyStoresWrite (mv_loop m) (mv_before m) -> soundAsSpecified m))
         (relocations g g').
Proof.
  intro H. destruct (LICM_summary _ _ _ _ H) as [_ Hc _ _ _].
  eapply Forall_impl; [|exact Hc]. intros m Hm.
  split; [apply (chk_sound _ Hm)|]. apply sound_as_specified, (chk_sound _ Hm).
Qed.

Lemma hoists_are_checked_against_stores_witness :
  Forall (fun m => sound m /\
                   (onlyStoresWrite (mv_loop m) (mv_before m) -> soundAsSpecified m))
         (relocations startGlobal (snd demo_after)) /\
  length (relocations startGlobal (snd demo_after)) = 2%nat /\
  Forall (fun m => onlyStoresWrite (mv_loop m) (mv_before m))
         (relocations startGlobal (snd demo_after)).
Proof.
  split; [|split].
  - apply (hoists_are_checked_against_stores demo_module (fst demo_after)).
    vm_compute. reflexivity.
  - reflexivity.
  - repeat constructor; intros b s Hb Hs;
      (destruct Hb as [Hb|[]]; subst b; simpl in Hs;
       repeat (destruct Hs as [Hs|Hs]; [subst s; simpl; auto; discriminate|]);
       destruct Hs).
Defined.

(** ** Reads that stay *)

(** C6: a volatile memory read is never relocated: every block holds the same
    volatile reads, in the same order, after the pass as before, whatever
    their address and whatever the loop contains, and no relocation of the
    run concerns a volatile read. *)
Theorem volatile_load_never_relocated (M M' : Module) (g g' : Global) :
  LoopInvariantCodeMotion M g = Some (M', g') ->
  Forall2 (fun f f' => forall b,
             filter isVolatileLoad (blockInsts (fbody f') b)
             = filter isVolatileLoad (blockInsts (fbody f) b)) M M' /\
  Forall (fun m => isVolatileLoad (mv_inst m) = false) (relocations g g').
Proof.
  apply LICM_frame. intros i. unfold movable, isVolatileLoad, isLoad, isVolatile.
  destruct (kind i) as [vol addr| | | |]; try reflexivity.
  destruct vol; [discriminate | reflexivity].
Qed.

Lemma volatile_load_never_relocated_witness :
  Forall2 (fun f f' => forall b,
             filter isVolatileLoad (blockInsts (fbody f') b)
             = filter isVolatileLoad (blockInsts (fbody f) b))
          demo_module (fst demo_after) /\
  Forall (fun m => isVolatileLoad (mv_inst m) = false)
         (relocations startGlobal (snd demo_after)).
Proof.
  apply (volatile_load_never_relocated demo_module (fst demo_after)).
  vm_compute. reflexivity.
Defined.

(** C7: a memory read whose address is not a global variable is never
    relocated: every block holds the same such reads, in the same order,
    after the pass as before, whether or not the loop contains memory writes,
    and no relocation of the run concerns such a read. *)
Theorem non_global_load_never_relocated (M M' : Module) (g g' : Global) :
  LoopInvariantCodeMotion M g = Some (M', g') ->
  Forall2 (fun f f' => forall b,
             filter isNonGlobalLoad (blockInsts (fbody f') b)
             = filter isNonGlobalLoad (blockInsts (fbody f) b)) M M' /\
  Forall (fun m => isNonGlobalLoad (mv_inst m) = false) (relocations g g').
Proof.
  apply LICM_frame. intros i. unfold movable, isNonGlobalLoad.
  destruct (kind i) as [vol addr| | | |]; try reflexivity.
  destruct (isGlobalVariable addr); [reflexivity|].
  rewrite andb_false_r. discriminate.
Qed.

Lemma non_global_load_never_relocated_witness :
  Forall2 (fun f f' => forall b,
             filter isNonGlobalLoad (blockInsts (fbody f') b)
             = filter isNonGlobalLoad (blockInsts (fbody f) b))
          demo_module (fst demo_after) /\
  Forall (fun m => isNonGlobalLoad (mv_inst m) = false)
         (relocations startGlobal (snd demo_after)).
Proof.
  apply (non_global_load_never_relocated demo_module (fst demo_after)).
  vm_compute. reflexivity.
Defined.

(** ** Nothing is created or destroyed *)

(** C9: the pass neither creates nor destroys blocks or instructions.  After a
    run every function has the same loops and the same blocks, and holds the
    same instructions, each with its address, its kind and its operands (the
    instructions of the result are a permutation of those of the input); and
    whatever was not relocated keeps its block and its order in the block:
    only relocated instructions change place. *)
Theorem pass_only_relocates (M M' : Module) (g g' : Global) :
  LoopInvariantCodeMotion M g = Some (M', g') ->
  Forall2 (fun f f' =>
             floops f' = floops f /\
             map label (fbody f') = map label (fbody f) /\
             Permutation (allInsts (fbody f)) (allInsts (fbody f')) /\
             forall P : Instruction -> bool,
               (forall m, In m (relocations g g') -> P (mv_inst m) = false) ->
               forall b, filter P (blockInsts (fbody f') b)
                         = filter P (blockInsts (fbody f) b))
          M M'.
Proof.
  intro H. destruct (LICM_summary _ _ _ _ H) as [_ _ _ _ HF].
  eapply Forall2_impl; [|exact HF].
  intros f f' [H1 [H2 [H3 H4]]]. repeat split; auto.
  intros P HP b. rewrite <- !blockInsts_view. f_equal. apply H4, HP.
Qed.

Lemma pass_only_relocates_witness :
  Forall2 (fun f f' =>
             floops f' = floops f /\
             map label (fbody f') = map label (fbody f) /\
             Permutation (allInsts (fbody f)) (allInsts (fbody f')) /\
             forall P : Instruction -> bool,
               (forall m, In m (relocations startGlobal (snd demo_after)) ->
                          P (mv_inst m) = false) ->
               forall b, filter P (blockInsts (fbody f') b)
                         = filter P (blockInsts (fbody f) b))
          demo_module (fst demo_after).
Proof.
  apply (pass_only_relocates demo_module (fst demo_after)). vm_compute. reflexivity.
Defined.

(** ** Where a relocated instruction lands *)

Lemma blockInsts_insertBeforeTerminator (x : Instruction) (b : BlockRef)
  (F : list BasicBlock) :
  findBlock F b <> None ->
  blockInsts (insertBeforeTerminator x b F) b = insertBeforeLast x (blockInsts F b).
Proof.
  unfold blockInsts. induction F as [|B F IH]; simpl; [congruence|].
  destruct (N.eqb (label B) b) eqn:E; simpl; rewrite E; auto.
Qed.

Lemma insertBeforeLast_snoc (x t : Instruction) (l : list Instruction) :
  insertBeforeLast x (l ++ [t]) = l ++ [x; t].
Proof.
  induction l as [|y l IH]; [reflexivity|].
  change ((y :: l) ++ [t]) with (y :: (l ++ [t])).
  destruct (l ++ [t]) as [|z r] eqn:E; [destruct l; discriminate|].
  change (insertBeforeLast x (y :: z :: r)) with (y :: insertBeforeLast x (z :: r)).
  rewrite IH. reflexivity.
Qed.

Lemma rev_head_snoc (l : list Instruction) (t : Instruction) (r : list Instruction) :
  rev l = t :: r -> l = rev r ++ [t].
Proof.
  intro H. rewrite <- (rev_involutive l), H. reflexivity.
Qed.

Lemma speculatable_not_terminator (i : Instruction) :
  isSafeToSpeculativelyExecute i = true -> isTerminator i = false.
Proof.
  unfold isSafeToSpeculativelyExecute, isTerminator.
  destruct (kind i) as [| | | |op ops]; try reflexivity.
  destruct op; try reflexivity; discriminate.
Qed.

(** ** A loop without preheader *)

(** C4, as stated, fails: of two nested loops without preheader only the
    outer one is visited, so the no-preheader counter and the loops-analyzed
    counter both end at one although two loops lack a preheader. *)
Lemma no_preheader_counter_misses_nested_loop :
  exists M' g',
    LoopInvariantCodeMotion nested_module startGlobal = Some (M', g') /\
    list_sum (map loopsWithoutPreheader [nested_outer]) = 2%nat /\
    read LICMNoPreheader (gstats g') = 1 /\
    read NumLoops (gstats g') = 1 /\
    read LICMNoPreheader (gstats g')
    <> Z.of_nat (list_sum (map loopsWithoutPreheader [nested_outer])).
Proof.
  eexists. eexists. split; [vm_compute; reflexivity|].
  repeat split; try reflexivity. vm_compute. discriminate.
Qed.

Lemma visit_walk_counters (c : Counter) (L : Loop) (PH : BlockRef) (lcs : bool)
  (p : InstRef) (st st' : State) :
  c = NumLoops \/ c = LICMNoPreheader ->
  visit L PH lcs p st = Some st' -> read c (stats st') = read c (stats st).
Proof.
  intros Hc. unfold visit.
  destruct (findInst (body st) p) as [i|]; [|intro H; inversion H; reflexivity].
  destruct (NotALoadOrStore i).
  - destruct (AreAllOperandsLoopInvaraint L (body st) i);
      [|intro H; inversion H; reflexivity].
    destruct (makeLoopInvariant L i st) as [[st1 ch]|] eqn:Em; [|discriminate].
    assert (E : stats st1 = stats st).
    { unfold makeLoopInvariant in Em.
      destruct (negb (contains L (body st) (ptr i))); [inversion Em; reflexivity|].
      destruct (negb (isSafeToSpeculativelyExecute i)); [inversion Em; reflexivity|].
      destruct (mayReadFromMemory i); [inversion Em; reflexivity|].
      destruct (getLoopPreheader L) as [PH'|]; [|inversion Em; reflexivity].
      destruct (negb (forallb (isLoopInvariant L (body st)) (operands i)));
        [inversion Em; reflexivity|].
      destruct (relocate L i PH' st) as [st2|] eqn:Er; [|discriminate].
      inversion Em; subst. apply (relocate_inv _ _ _ _ _ Er). }
    destruct ch; intro H; inversion H; subst; [|rewrite E; reflexivity].
    rewrite read_count_other, E by (destruct Hc; subst; discriminate). reflexivity.
  - destruct (kind i) as [vol addr| | | |]; try (intro H; inversion H; reflexivity).
    destruct (CanMoveOutofLoop (body st) L i addr lcs);
      [|intro H; inversion H; reflexivity].
    unfold hoistInstructionToPreheader.
    destruct (relocate L i PH st) as [st1|] eqn:Er; [|discriminate].
    intro H; inversion H; subst.
    rewrite read_count_other by (destruct Hc; subst; discriminate).
    rewrite (proj1 (proj2 (relocate_inv _ _ _ _ _ Er))). reflexivity.
Qed.

Lemma drain_walk_counters (c : Counter) (L : Loop) (PH : BlockRef) (lcs : bool)
  (w : list InstRef) :
  c = NumLoops \/ c = LICMNoPreheader ->
  forall st st', drain L PH lcs w st = Some st' -> read c (stats st') = read c (stats st).
Proof.
  intro Hc. induction w as [|p w IH]; simpl; intros st st' H.
  - inversion H; reflexivity.
  - destruct (visit L PH lcs p st) as [st1|] eqn:Ev; [|discriminate].
    rewrite (IH _ _ H). apply (visit_walk_counters c _ _ _ _ _ _ Hc Ev).
Qed.

Lemma updateStats_walk_counters (c : Counter) (hl hs hc : bool) (s : Statistics) :
  c = NumLoops \/ c = LICMNoPreheader ->
  read c (updateStats hl hs hc s) = read c s.
Proof.
  intro Hc. unfold updateStats, incr.
  destruct (negb hs && hl);
    [rewrite read_write_other by (destruct Hc; subst; discriminate); reflexivity|].
  destruct (negb hl);
    [rewrite read_write_other by (destruct Hc; subst; discriminate); reflexivity|].
  destruct (negb hs);
    [rewrite read_write_other by (destruct Hc; subst; discriminate); reflexivity|].
  destruct hc; [|reflexivity].
  rewrite !read_write_other by (destruct Hc; subst; discriminate). reflexivity.
Qed.

Lemma sweepBlocks_walk_counters (c : Counter) (L : Loop) (PH : BlockRef)
  (bs : list BlockRef) :
  c = NumLoops \/ c = LICMNoPreheader ->
  forall lcs st st', sweepBlocks L PH bs lcs st = Some st' ->
                     read c (stats st') = read c (stats st).
Proof.
  intro Hc. induction bs as [|b bs IH]; simpl; intros lcs st st' H.
  - inversion H; reflexivity.
  - unfold sweepBlock in H. cbv zeta in H.
    match type of H with
    | match (match drain ?a ?b ?c ?d ?e with _ => _ end) with _ => _ end = _ =>
        destruct (drain a b c d e) as [st2|] eqn:Ed; [|discriminate]
    end.
    rewrite (IH _ _ _ H), (drain_walk_counters c _ _ _ _ Hc _ _ Ed). cbn [stats].
    apply updateStats_walk_counters, Hc.
Qed.

Lemma list_sum_cons (a : nat) (l : list nat) : list_sum (a :: l) = (a + list_sum l)%nat.
Proof. reflexivity. Qed.

Lemma OptimizeLoops_walk_counters (ls : list Loop) :
  Forall (fun L => forall st st', OptimizeLoop2 L st = Some st' ->
            read NumLoops (stats st')
            = bumps (visitedLoops L) (read NumLoops (stats st)) /\
            read LICMNoPreheader (stats st')
            = bumps (visitedWithoutPreheader L) (read LICMNoPreheader (stats st))) ls ->
  forall st st', OptimizeLoops ls st = Some st' ->
    read NumLoops (stats st')
    = bumps (list_sum (map visitedLoops ls)) (read NumLoops (stats st)) /\
    read LICMNoPreheader (stats st')
    = bumps (list_sum (map visitedWithoutPreheader ls))
            (read LICMNoPreheader (stats st)).
Proof.
  induction 1 as [|L ls HL _ IH]; intros st st' H; cbn [OptimizeLoops] in H.
  - inversion H. split; reflexivity.
  - destruct (OptimizeLoop2 L st) as [st1|] eqn:E; [|discriminate].
    destruct (HL _ _ E) as [H1 H2]. destruct (IH _ _ H) as [H3 H4].
    cbn [map]. rewrite !list_sum_cons, !bumps_add, <- H1, <- H2. auto.
Qed.

(** The two counters of the walk advance once per visited loop. *)
Lemma OptimizeLoop2_walk_counters (L : Loop) :
  forall st st', OptimizeLoop2 L st = Some st' ->
    read NumLoops (stats st')
    = bumps (visitedLoops L) (read NumLoops (stats st)) /\
    read LICMNoPreheader (stats st')
    = bumps (visitedWithoutPreheader L) (read LICMNoPreheader (stats st)).
Proof.
  induction L as [ph bs ss IH] using Loop_forest_ind. intros st st'.
  rewrite OptimizeLoop2_eq. simpl getLoopPreheader. simpl getSubLoops.
  destruct ph as [PH|].
  - destruct (OptimizeLoops ss (count NumLoops st)) as [st1|] eqn:E; [|discriminate].
    intro H. destruct (OptimizeLoops_walk_counters ss IH _ _ E) as [H1 H2].
    unfold rewriteLoop in H.
    rewrite (sweepBlocks_walk_counters NumLoops _ _ _ (or_introl eq_refl) _ _ _ H).
    rewrite (sweepBlocks_walk_counters LICMNoPreheader _ _ _ (or_intror eq_refl) _ _ _ H).
    rewrite H1, H2, read_count_same, read_count_other by discriminate.
    split; reflexivity.
  - intro H; inversion H; subst. split.
    + rewrite read_count_other by discriminate. rewrite read_count_same. reflexivity.
    + rewrite read_count_same, read_count_other by discriminate. reflexivity.
Qed.

Lemma RunLICMBasic_walk_counters (M : Module) :
  forall g M' g', RunLICMBasic M g = Some (M', g') ->
    read NumLoops (gstats g')
    = bumps (visitedIn visitedLoops M) (read NumLoops (gstats g)) /\
    read LICMNoPreheader (gstats g')
    = bumps (visitedIn visitedWithoutPreheader M) (read LICMNoPreheader (gstats g)).
Proof.
  unfold visitedIn. induction M as [|f M IH]; intros g M' g' H;
    cbn [RunLICMBasic] in H.
  - inversion H; subst. split; reflexivity.
  - destruct (runOnFunction f g) as [[f1 g1]|] eqn:Ef; [|discriminate].
    destruct (RunLICMBasic M g1) as [[M1 g2]|] eqn:EM; [|discriminate].
    inversion H; subst. destruct (IH _ _ _ EM) as [H1 H2].
    cbn [map]. rewrite !list_sum_cons, !bumps_add, H1, H2. unfold runOnFunction in Ef.
    destruct (fbody f) as [|B F]; [inversion Ef; subst; split; reflexivity|].
    destruct (OptimizeLoops (floops f) (mkState (B :: F) (gstats g) (ghist g)))
      as [st|] eqn:Eo; [|discriminate].
    inversion Ef; subst. cbn [gstats].
    destruct (OptimizeLoops_walk_counters (floops f)
                (proj2 (Forall_forall _ _) (fun L _ => OptimizeLoop2_walk_counters L))
                _ _ Eo) as [H3 H4].
    cbn [stats] in H3, H4. rewrite H3, H4. split; reflexivity.
Qed.

(** C4, amended: when the pass visits a loop that lacks a preheader, the
    visit relocates nothing, increments the no-preheader counter exactly once
    and the loops-analyzed counter exactly once, and leaves every other
    counter alone.  Over a whole run the loops-analyzed counter advances by
    the number of loops visited and the no-preheader counter by the number of
    visited loops that lack a preheader (the sub-loops of such a loop are not
    visited), and no relocation is made for a loop without preheader. *)
Theorem visited_loop_without_preheader :
  (forall (L : Loop) (st : State),
     getLoopPreheader L = None ->
     exists st',
       OptimizeLoop2 L st = Some st' /\
       body st' = body st /\
       hist st' = hist st /\
       read LICMNoPreheader (stats st') = wrap (read LICMNoPreheader (stats st) + 1) /\
       read NumLoops (stats st') = wrap (read NumLoops (stats st) + 1) /\
       forall c, c <> LICMNoPreheader -> c <> NumLoops ->
                 read c (stats st') = read c (stats st)) /\
  (forall (M M' : Module) (g g' : Global),
     LoopInvariantCodeMotion M g = Some (M', g') ->
     read NumLoops (gstats g')
     = bumps (visitedIn visitedLoops M) (read NumLoops (gstats g)) /\
     read LICMNoPreheader (gstats g')
     = bumps (visitedIn visitedWithoutPreheader M) (read LICMNoPreheader (gstats g)) /\
     Forall (fun m => getLoopPreheader (mv_loop m) <> None) (relocations g g')).
Proof.
  split.
  - intros L st H. rewrite OptimizeLoop2_eq, H. eexists. split; [reflexivity|].
    split; [reflexivity|]. split; [reflexivity|]. split; [|split].
    + rewrite read_count_same, read_count_other by discriminate. reflexivity.
    + rewrite read_count_other by discriminate. apply read_count_same.
    + intros c H1 H2. rewrite !read_count_other by auto. reflexivity.
  - intros M M' g g' H. pose proof (LICM_summary _ _ _ _ H) as [_ Hc _ _ _].
    unfold LoopInvariantCodeMotion in H.
    destruct (RunLICMBasic_walk_counters _ _ _ _ H) as [H1 H2].
    cbn [gstats] in H1, H2. unfold decr, incr in H1, H2.
    rewrite !read_write_other in H1, H2 by discriminate.
    split; [exact H1|]. split; [exact H2|].
    eapply Forall_impl; [|exact Hc]. intros m Hm. apply (chk_preheader _ Hm).
Qed.

Lemma visited_loop_without_preheader_witness :
  (exists st',
     OptimizeLoop2 nested_outer (mkState nested_body zeroStats []) = Some st' /\
     body st' = nested_body /\
     hist st' = [] /\
     read LICMNoPreheader (stats st') = wrap (0 + 1) /\
     read NumLoops (stats st') = wrap (0 + 1) /\
     forall c, c <> LICMNoPreheader -> c <> NumLoops ->
               read c (stats st') = read c zeroStats) /\
  (read NumLoops (gstats (snd mixed_after)) = 2 /\
   read LICMNoPreheader (gstats (snd mixed_after)) = 1 /\
   Forall (fun m => getLoopPreheader (mv_loop m) <> None)
          (relocations startGlobal (snd mixed_after))).
Proof.
  split.
  - apply (proj1 visited_loop_without_preheader nested_outer
             (mkState nested_body zeroStats [])).
    reflexivity.
  - apply (proj2 visited_loop_without_preheader mixed_module (fst mixed_after)
             startGlobal (snd mixed_after)).
    vm_compute. reflexivity.
Defined.

(** ** The decision taken for one instruction *)

Lemma CanMoveOutofLoop_flag (F : list BasicBlock) (L : Loop) (i : Instruction)
  (addr : Value) (lcs : bool) :
  CanMoveOutofLoop F L i addr lcs = CanMoveOutofLoop F L i addr false.
Proof. reflexivity. Qed.

Lemma visit_decision (L : Loop) (PH : BlockRef) (lcs : bool) (p : InstRef)
  (i : Instruction) (st : State) :
  getLoopPreheader L = Some PH ->
  findInst (body st) p = Some i ->
  visit L PH lcs p st =
  if decision L (body st) i
  then match relocate L i PH st with
       | None => None
       | Some st' => Some (count (hoistCounter i) st')
       end
  else Some st.
Proof.
  intros HPH Hi. unfold visit, decision, hoistCounter. rewrite Hi.
  destruct (NotALoadOrStore i) eqn:En.
  - assert (Hl : isLoad i = false)
      by (unfold NotALoadOrStore in En; destruct (isLoad i); [discriminate | reflexivity]).
    rewrite Hl. unfold makeLoopInvariant, AreAllOperandsLoopInvaraint. rewrite HPH.
    destruct (forallb (isLoopInvariant L (body st)) (operands i)); [|reflexivity].
    destruct (contains L (body st) (ptr i)); simpl; [|reflexivity].
    destruct (isSafeToSpeculativelyExecute i); simpl; [|reflexivity].
    destruct (mayReadFromMemory i); simpl; [reflexivity|].
    destruct (relocate L i PH st); reflexivity.
  - destruct (kind i) as [vol addr| | | |] eqn:Ek; try reflexivity.
    assert (Hl : isLoad i = true) by (unfold isLoad; rewrite Ek; reflexivity).
    rewrite Hl. rewrite CanMoveOutofLoop_flag.
    destruct (CanMoveOutofLoop (body st) L i addr false); [|reflexivity].
    unfold hoistInstructionToPreheader. destruct (relocate L i PH st); reflexivity.
Qed.

Lemma visit_absent (L : Loop) (PH : BlockRef) (lcs : bool) (p : InstRef) (st : State) :
  findInst (body st) p = None -> visit L PH lcs p st = Some st.
Proof. intro H. unfold visit. rewrite H. reflexivity. Qed.

Lemma decision_movable (L : Loop) (F : list BasicBlock) (i : Instruction) :
  decision L F i = true -> movable i = true.
Proof.
  unfold decision, movable, NotALoadOrStore, isLoad, isStore.
  destruct (kind i) as [vol addr| | | |] eqn:Ek.
  - intro H. apply CanMoveOutofLoop_spec in H. destruct H as [Hv [Hg _]].
    unfold isVolatile in Hv. rewrite Ek in Hv. rewrite Hv, Hg. reflexivity.
  - discriminate.
  - intro H. apply andb_prop in H. destruct H as [H1 H2].
    apply andb_prop in H1. destruct H1 as [_ H1]. rewrite H1, H2. reflexivity.
  - intro H. apply andb_prop in H. destruct H as [H1 H2].
    apply andb_prop in H1. destruct H1 as [_ H1]. rewrite H1, H2. reflexivity.
  - intro H. apply andb_prop in H. destruct H as [H1 H2].
    apply andb_prop in H1. destruct H1 as [_ H1]. rewrite H1, H2. reflexivity.
Qed.

Lemma movable_not_terminator (i : Instruction) : movable i = true -> isTerminator i = false.
Proof.
  unfold movable. destruct (kind i) eqn:Ek; intro H;
    try (apply andb_prop in H; destruct H as [H _];
         apply speculatable_not_terminator, H);
    unfold isTerminator; rewrite Ek; reflexivity.
Qed.

(** ** On whose behalf a relocation is made *)

Lemma inNest_unfold (L' L : Loop) :
  inNest L' L <-> L' = L \/ inNests L' (getSubLoops L).
Proof.
  destruct L as [ph bs ss]. simpl. unfold inNests.
  assert (E : forall ls,
    (fix any (ls : list Loop) : Prop :=
       match ls with
       | [] => False
       | s :: r => inNest L' s \/ any r
       end) ls <-> Exists (inNest L') ls).
  { induction ls as [|s r IH]; simpl.
    - split; [tauto | intro H; inversion H].
    - rewrite IH. split.
      + intros [H|H]; [apply Exists_cons_hd | apply Exists_cons_tl]; exact H.
      + intro H. inversion H; subst; auto. }
  rewrite E. reflexivity.
Qed.

Lemma movesFor_refl (Q : Loop -> Prop) (st : State) : movesFor Q st st.
Proof. exists []. auto. Qed.

Lemma movesFor_trans (Q : Loop -> Prop) (a b c : State) :
  movesFor Q a b -> movesFor Q b c -> movesFor Q a c.
Proof.
  intros [m1 [E1 F1]] [m2 [E2 F2]]. exists (m2 ++ m1). split.
  - rewrite E2, E1. apply app_assoc.
  - apply Forall_app; auto.
Qed.

Lemma movesFor_weaken (Q Q' : Loop -> Prop) (a b : State) :
  (forall L, Q L -> Q' L) -> movesFor Q a b -> movesFor Q' a b.
Proof.
  intros H [ms [E F]]. exists ms. split; [exact E|].
  eapply Forall_impl; [|exact F]. intros m. apply H.
Qed.

Lemma movesFor_relocate (L : Loop) (i : Instruction) (PH : BlockRef) (c : Counter)
  (st st' : State) :
  relocate L i PH st = Some st' -> movesFor (eq L) st (count c st').
Proof.
  intro H. destruct (relocate_inv _ _ _ _ _ H) as [Hh _].
  exists [mkMove L i (body st)]. split; [exact Hh | repeat constructor].
Qed.

Lemma visit_movesFor (L : Loop) (PH : BlockRef) (lcs : bool) (p : InstRef)
  (st st' : State) :
  visit L PH lcs p st = Some st' -> movesFor (eq L) st st'.
Proof.
  unfold visit.
  destruct (findInst (body st) p) as [i|];
    [|intro H; inversion H; apply movesFor_refl].
  destruct (NotALoadOrStore i).
  - destruct (AreAllOperandsLoopInvaraint L (body st) i);
      [|intro H; inversion H; apply movesFor_refl].
    unfold makeLoopInvariant.
    destruct (negb (contains L (body st) (ptr i)));
      [intro H; inversion H; apply movesFor_refl|].
    destruct (negb (isSafeToSpeculativelyExecute i));
      [intro H; inversion H; apply movesFor_refl|].
    destruct (mayReadFromMemory i); [intro H; inversion H; apply movesFor_refl|].
    destruct (getLoopPreheader L) as [PH'|];
      [|intro H; inversion H; apply movesFor_refl].
    destruct (negb (forallb (isLoopInvariant L (body st)) (operands i)));
      [intro H; inversion H; apply movesFor_refl|].
    destruct (relocate L i PH' st) as [st1|] eqn:Er; [|discriminate].
    intro H; inversion H; subst. apply (movesFor_relocate _ _ _ _ _ _ Er).
  - destruct (kind i) as [vol addr| | | |];
      try (intro H; inversion H; apply movesFor_refl).
    destruct (CanMoveOutofLoop (body st) L i addr lcs);
      [|intro H; inversion H; apply movesFor_refl].
    unfold hoistInstructionToPreheader.
    destruct (relocate L i PH st) as [st1|] eqn:Er; [|discriminate].
    intro H; inversion H; subst. apply (movesFor_relocate _ _ _ _ _ _ Er).
Qed.

Lemma drain_movesFor (L : Loop) (PH : BlockRef) (lcs : bool) (w : list InstRef) :
  forall st st', drain L PH lcs w st = Some st' -> movesFor (eq L) st st'.
Proof.
  induction w as [|p w IH]; simpl; intros st st' H.
  - inversion H. apply movesFor_refl.
  - destruct (visit L PH lcs p st) as [st1|] eqn:Ev; [|discriminate].
    eapply movesFor_trans; [apply (visit_movesFor _ _ _ _ _ _ Ev) | apply (IH _ _ H)].
Qed.

Lemma sweepBlocks_movesFor (L : Loop) (PH : BlockRef) (bs : list BlockRef) :
  forall lcs st st', sweepBlocks L PH bs lcs st = Some st' -> movesFor (eq L) st st'.
Proof.
  induction bs as [|b bs IH]; simpl; intros lcs st st' H.
  - inversion H. apply movesFor_refl.
  - unfold sweepBlock in H. cbv zeta in H.
    match type of H with
    | match (match drain ?a ?b ?c ?d ?e with _ => _ end) with _ => _ end = _ =>
        destruct (drain a b c d e) as [st2|] eqn:Ed; [|discriminate]
    end.
    eapply movesFor_trans; [|apply (IH _ _ _ H)].
    destruct (drain_movesFor _ _ _ _ _ _ Ed) as [ms [E F]]. exists ms. auto.
Qed.

Lemma OptimizeLoops_movesFor (ls : list Loop) :
  Forall (fun L => forall st st', OptimizeLoop2 L st = Some st' ->
                                  movesFor (fun L' => inNest L' L) st st') ls ->
  forall st st', OptimizeLoops ls st = Some st' ->
                 movesFor (fun L' => inNests L' ls) st st'.
Proof.
  induction 1 as [|L ls HL _ IH]; simpl; intros st st' H.
  - inversion H. apply movesFor_refl.
  - destruct (OptimizeLoop2 L st) as [st1|] eqn:E; [|discriminate].
    eapply movesFor_trans.
    + eapply movesFor_weaken; [|apply (HL _ _ E)].
      intros L' HL'. apply Exists_cons_hd, HL'.
    + eapply movesFor_weaken; [|apply (IH _ _ H)].
      intros L' HL'. apply Exists_cons_tl, HL'.
Qed.

Lemma count_movesFor (Q : Loop -> Prop) (c : Counter) (st : State) :
  movesFor Q st (count c st).
Proof. exists []. auto. Qed.

Lemma OptimizeLoop2_movesFor (L : Loop) :
  forall st st', OptimizeLoop2 L st = Some st' ->
                 movesFor (fun L' => inNest L' L) st st'.
Proof.
  induction L as [ph bs ss IH] using Loop_forest_ind. intros st st'.
  rewrite OptimizeLoop2_eq. simpl getLoopPreheader. simpl getSubLoops.
  destruct ph as [PH|].
  - destruct (OptimizeLoops ss (count NumLoops st)) as [st1|] eqn:E; [|discriminate].
    intro H. eapply movesFor_trans; [apply (count_movesFor _ NumLoops)|].
    eapply movesFor_trans.
    + eapply movesFor_weaken; [|apply (OptimizeLoops_movesFor _ IH _ _ E)].
      intros L' HL'. apply inNest_unfold. right. exact HL'.
    + eapply movesFor_weaken; [|apply (sweepBlocks_movesFor _ _ _ _ _ _ H)].
      intros L' HL'. apply inNest_unfold. left. symmetry. exact HL'.
  - intro H; inversion H; subst. exists []. auto.
Qed.

(** ** The order of the walk over a loop nest *)

(** C2, as stated, fails: below a loop without preheader the sub-loop is
    neither analyzed nor optimized.  The pass leaves the function as it is
    and counts one loop, although the inner loop, visited on its own, has its
    addition hoisted into its preheader. *)
Lemma loop_without_preheader_hides_sub_loops :
  (exists g',
     LoopInvariantCodeMotion skipped_module startGlobal = Some (skipped_module, g') /\
     ghist g' = [] /\
     read NumLoops (gstats g') = 1) /\
  (exists st',
     OptimizeLoop2 skipped_inner (mkState skipped_body zeroStats []) = Some st' /\
     getParent skipped_body 4%N = Some 2%N /\
     getParent (body st') 4%N = Some 1%N /\
     read LICMBasic (stats st') = 1).
Proof.
  split.
  - eexists. split; [vm_compute; reflexivity|]. split; reflexivity.
  - eexists. split; [vm_compute; reflexivity|]. repeat split.
Qed.

(** C2, amended: for a loop that has a preheader the pass first walks the
    sub-loops, in order, and only then rewrites the loop itself: the
    relocations made for the loop all come after those made for the loops
    nested in it.  A loop without preheader is counted and skipped together
    with its sub-loops, and the loops that follow it are processed all the
    same. *)
Theorem sub_loops_first_then_loop (L : Loop) (st : State) :
  (forall PH, getLoopPreheader L = Some PH ->
     OptimizeLoop2 L st =
     match OptimizeLoops (getSubLoops L) (count NumLoops st) with
     | None => None
     | Some st1 => rewriteLoop L PH st1
     end /\
     forall st', OptimizeLoop2 L st = Some st' ->
       exists st1 subs own,
         OptimizeLoops (getSubLoops L) (count NumLoops st) = Some st1 /\
         rewriteLoop L PH st1 = Some st' /\
         hist st1 = subs ++ hist st /\
         hist st' = own ++ subs ++ hist st /\
         Forall (fun m => inNests (mv_loop m) (getSubLoops L)) subs /\
         Forall (fun m => mv_loop m = L) own) /\
  (getLoopPreheader L = None ->
     OptimizeLoop2 L st = Some (count LICMNoPreheader (count NumLoops st)) /\
     forall rest,
       OptimizeLoops (L :: rest) st
       = OptimizeLoops rest (count LICMNoPreheader (count NumLoops st))).
Proof.
  split.
  - intros PH H. rewrite OptimizeLoop2_eq, H. split; [reflexivity|].
    intro st'.
    destruct (OptimizeLoops (getSubLoops L) (count NumLoops st)) as [st1|] eqn:E;
      [|discriminate].
    intro Hr. exists st1.
    assert (Hs : movesFor (fun L' => inNests L' (getSubLoops L)) (count NumLoops st) st1).
    { apply (OptimizeLoops_movesFor _) with (st := count NumLoops st); [|exact E].
      apply Forall_forall. intros S _. apply OptimizeLoop2_movesFor. }
    destruct Hs as [subs [Es Fs]].
    destruct (sweepBlocks_movesFor _ _ _ _ _ _ Hr) as [own [Eo Fo]].
    exists subs, own. split; [reflexivity|]. split; [exact Hr|].
    split; [exact Es|]. split; [rewrite Eo, Es; reflexivity|]. split; [exact Fs|].
    eapply Forall_impl; [|exact Fo]. intros m Hm. symmetry. exact Hm.
  - intro H. assert (E : OptimizeLoop2 L st
                         = Some (count LICMNoPreheader (count NumLoops st)))
      by (rewrite OptimizeLoop2_eq, H; reflexivity).
    split; [exact E|]. intro rest. simpl. rewrite E. reflexivity.
Qed.

Lemma sub_loops_first_then_loop_witness :
  (OptimizeLoop2 twice_outer (mkState twice_body zeroStats [])
   = match OptimizeLoops [twice_inner]
             (count NumLoops (mkState twice_body zeroStats [])) with
     | None => None
     | Some st1 => rewriteLoop twice_outer 0%N st1
     end /\
   forall st', OptimizeLoop2 twice_outer (mkState twice_body zeroStats []) = Some st' ->
     exists st1 subs own,
       OptimizeLoops [twice_inner] (count NumLoops (mkState twice_body zeroStats []))
       = Some st1 /\
       rewriteLoop twice_outer 0%N st1 = Some st' /\
       hist st1 = subs ++ [] /\
       hist st' = own ++ subs ++ [] /\
       Forall (fun m => inNests (mv_loop m) [twice_inner]) subs /\
       Forall (fun m => mv_loop m = twice_outer) own) /\
  (exists st',
     OptimizeLoop2 twice_outer (mkState twice_body zeroStats []) = Some st' /\
     map mv_loop (hist st') = [twice_outer; twice_inner]) /\
  (OptimizeLoop2 skipped_outer (mkState skipped_body zeroStats [])
   = Some (count LICMNoPreheader (count NumLoops (mkState skipped_body zeroStats []))) /\
   forall rest,
     OptimizeLoops (skipped_outer :: rest) (mkState skipped_body zeroStats [])
     = OptimizeLoops rest
         (count LICMNoPreheader (count NumLoops (mkState skipped_body zeroStats [])))).
Proof.
  split; [|split].
  - apply (proj1 (sub_loops_first_then_loop twice_outer (mkState twice_body zeroStats []))).
    reflexivity.
  - eexists. split; vm_compute; reflexivity.
  - apply (proj2 (sub_loops_first_then_loop skipped_outer
                    (mkState skipped_body zeroStats []))).
    reflexivity.
Defined.

(** ** Where the hoisting rules, as stated, fail *)

(** C1, as stated, fails: no store of the loop has the global as its
    destination, the read is not volatile and its address is a global, yet a
    store through an unresolved pointer keeps the read in the loop. *)
Lemma store_through_pointer_blocks_hoist :
  noWriteTo one_block_loop pointer_store_body (GlobalVariable 7%N) /\
  exists st',
    OptimizeLoop2 one_block_loop (mkState pointer_store_body zeroStats []) = Some st' /\
    body st' = pointer_store_body /\
    getParent (body st') 10%N = Some 1%N /\
    read LICMLoadHoist (stats st') = 0.
Proof.
  split.
  - intros b s [Hb|[]] Hs; subst b.
    vm_compute in Hs. destruct Hs as [H|[H|[H|[]]]]; subst s; reflexivity.
  - eexists. split; [vm_compute; reflexivity|]. repeat split.
Qed.


(** C8, as stated, fails: the worklist is swept once, in address order.  The
    user at address 20 is examined before its operand at address 30 and
    stays in the loop in the first run; the second run hoists it. *)
Lemma second_run_hoists_more :
  exists M1 g1 M2 g2,
    LoopInvariantCodeMotion chain_module startGlobal = Some (M1, g1) /\
    LoopInvariantCodeMotion M1 g1 = Some (M2, g2) /\
    map fbody M1 <> map fbody M2 /\
    map (fun f => getParent (fbody f) 20%N) M1 = [Some 1%N] /\
    map (fun f => getParent (fbody f) 20%N) M2 = [Some 0%N].
Proof.
  do 4 eexists. split; [vm_compute; reflexivity|].
  split; [vm_compute; reflexivity|].
  split; [vm_compute; discriminate|]. split; reflexivity.
Qed.

(** ** Well-formed bodies: distinct blocks, distinct instruction objects *)

Lemma findBlock_In (F : list BasicBlock) (b : BlockRef) (B : BasicBlock) :
  findBlock F b = Some B -> In B F /\ label B = b.
Proof.
  induction F as [|C F IH]; simpl; [discriminate|].
  destruct (N.eqb (label C) b) eqn:E.
  - intro H; inversion H; subst. apply N.eqb_eq in E. auto.
  - intro H. destruct (IH H). auto.
Qed.

Lemma findBlock_unique (F : list BasicBlock) (B : BasicBlock) :
  NoDup (map label F) -> In B F -> findBlock F (label B) = Some B.
Proof.
  induction F as [|C F IH]; simpl; [tauto|].
  intros Hnd [H|H].
  - subst. rewrite N.eqb_refl. reflexivity.
  - inversion Hnd as [|x l Hx Hl]; subst.
    destruct (N.eqb (label C) (label B)) eqn:E; [|auto].
    apply N.eqb_eq in E. exfalso. apply Hx. rewrite E. apply in_map, H.
Qed.

Lemma In_blockInsts (F : list BasicBlock) (b : BlockRef) (j : Instruction) :
  In j (blockInsts F b) -> exists B, In B F /\ label B = b /\ In j (insts B).
Proof.
  unfold blockInsts. destruct (findBlock F b) as [B|] eqn:E; [|intros []].
  intro H. exists B. destruct (findBlock_In _ _ _ E). auto.
Qed.

Lemma blockInsts_unique (F : list BasicBlock) (B : BasicBlock) :
  NoDup (map label F) -> In B F -> blockInsts F (label B) = insts B.
Proof.
  intros Hnd Hin. unfold blockInsts. rewrite (findBlock_unique _ _ Hnd Hin). reflexivity.
Qed.

Lemma In_allInsts (F : list BasicBlock) (j : Instruction) :
  In j (allInsts F) <-> exists B, In B F /\ In j (insts B).
Proof.
  unfold allInsts. rewrite in_concat. split.
  - intros [l [Hl Hj]]. apply in_map_iff in Hl. destruct Hl as [B [E HB]].
    subst. exists B. auto.
  - intros [B [HB Hj]]. exists (insts B). split; [apply in_map, HB | exact Hj].
Qed.

Lemma find_unique (l : list Instruction) (j : Instruction) :
  NoDup (map ptr l) -> In j l -> find (hasPtr (ptr j)) l = Some j.
Proof.
  induction l as [|k l IH]; simpl; [tauto|].
  intros Hnd [H|H].
  - subst. unfold hasPtr. rewrite N.eqb_refl. reflexivity.
  - inversion Hnd as [|x r Hx Hr]; subst.
    unfold hasPtr at 1. destruct (N.eqb (ptr k) (ptr j)) eqn:E; [|auto].
    apply N.eqb_eq in E. exfalso. apply Hx. rewrite E. apply in_map, H.
Qed.

Lemma find_none_ptr (l : list Instruction) (p : InstRef) :
  ~ In p (map ptr l) -> find (hasPtr p) l = None.
Proof.
  induction l as [|k l IH]; simpl; [reflexivity|].
  intro H. unfold hasPtr at 1. destruct (N.eqb (ptr k) p) eqn:E.
  - apply N.eqb_eq in E. tauto.
  - apply IH. tauto.
Qed.

Lemma NoDup_app_disjoint (A : Type) (l1 l2 : list A) (x : A) :
  NoDup (l1 ++ l2) -> In x l1 -> In x l2 -> False.
Proof.
  induction l1 as [|a l1 IH]; simpl; [tauto|].
  intros Hnd [H|H] H2; inversion Hnd as [|y r Hy Hr]; subst.
  - apply Hy, in_or_app. auto.
  - apply (IH Hr H H2).
Qed.

Lemma findInst_unique (F : list BasicBlock) (j : Instruction) :
  NoDup (map ptr (allInsts F)) -> In j (allInsts F) -> findInst F (ptr j) = Some j.
Proof.
  unfold allInsts. induction F as [|B F IH]; simpl; [tauto|].
  rewrite map_app. intros Hnd Hin. apply in_app_or in Hin.
  destruct (in_dec N.eq_dec (ptr j) (map ptr (insts B))) as [Hp|Hp].
  - destruct Hin as [Hin|Hin].
    + rewrite (find_unique _ _ (NoDup_app_remove_r _ _ Hnd) Hin). reflexivity.
    + exfalso. apply (NoDup_app_disjoint _ _ _ _ Hnd Hp). apply in_map, Hin.
  - rewrite (find_none_ptr _ _ Hp). destruct Hin as [Hin|Hin].
    + exfalso. apply Hp, in_map, Hin.
    + apply IH; [apply (NoDup_app_remove_l _ _ Hnd) | exact Hin].
Qed.

Lemma getParent_unique (F : list BasicBlock) (B : BasicBlock) (j : Instruction) :
  NoDup (map ptr (allInsts F)) -> In B F -> In j (insts B) ->
  getParent F (ptr j) = Some (label B).
Proof.
  unfold allInsts. induction F as [|C F IH]; simpl; [tauto|].
  rewrite map_app. intros Hnd HB Hj. rewrite find_existsb_hasPtr.
  destruct HB as [HB|HB].
  - subst. rewrite (find_unique _ _ (NoDup_app_remove_r _ _ Hnd) Hj). reflexivity.
  - destruct (find (hasPtr (ptr j)) (insts C)) as [k|] eqn:E.
    + exfalso. apply find_hasPtr in E. destruct E as [Ep Ek].
      apply (NoDup_app_disjoint _ _ _ (ptr j) Hnd).
      * rewrite <- Ep. apply in_map, Ek.
      * apply in_map. apply in_concat. exists (insts B). split; [apply in_map, HB | exact Hj].
    + apply IH; [apply (NoDup_app_remove_l _ _ Hnd) | exact HB | exact Hj].
Qed.

Lemma getParent_In (F : list BasicBlock) (p : InstRef) (b : BlockRef) :
  getParent F p = Some b ->
  exists B j, In B F /\ label B = b /\ In j (insts B) /\ ptr j = p.
Proof.
  induction F as [|C F IH]; simpl; [discriminate|].
  destruct (existsb (hasPtr p) (insts C)) eqn:E.
  - intro H; inversion H; subst. apply existsb_exists in E. destruct E as [j [Hj Hp]].
    unfold hasPtr in Hp. apply N.eqb_eq in Hp. exists C, j. auto.
  - intro H. destruct (IH H) as [B [j [HB HR]]]. exists B, j. auto.
Qed.

(** In a well-formed body an instruction is in the loop exactly when one of
    the blocks of the loop holds it. *)
Lemma contains_spec (L : Loop) (F : list BasicBlock) (p : InstRef) :
  wf F ->
  (contains L F p = true <->
   exists b j, In b (getBlocks L) /\ In j (blockInsts F b) /\ ptr j = p).
Proof.
  intros [Hl Hp]. unfold contains, inBlocks. split.
  - destruct (getParent F p) as [b|] eqn:E; [|discriminate].
    intro H. apply existsb_exists in H. destruct H as [b' [Hb' Hbb]].
    apply N.eqb_eq in Hbb. subst b'.
    destruct (getParent_In _ _ _ E) as [B [j [HB [Hlab [Hj Hpj]]]]].
    exists b, j. split; [exact Hb'|]. split; [|exact Hpj].
    rewrite <- Hlab, (blockInsts_unique _ _ Hl HB). exact Hj.
  - intros [b [j [Hb [Hj Hpj]]]].
    destruct (In_blockInsts _ _ _ Hj) as [B [HB [Hlab HjB]]].
    rewrite <- Hpj, (getParent_unique _ _ _ Hp HB HjB), Hlab.
    apply existsb_exists. exists b. split; [exact Hb | apply N.eqb_refl].
Qed.

Lemma blockInsts_allInsts (F : list BasicBlock) (b : BlockRef) (j : Instruction) :
  In j (blockInsts F b) -> In j (allInsts F).
Proof.
  intro H. destruct (In_blockInsts _ _ _ H) as [B [HB [_ Hj]]].
  apply In_allInsts. exists B. auto.
Qed.

Lemma findInst_blockInsts (F : list BasicBlock) (b : BlockRef) (j : Instruction) :
  wf F -> In j (blockInsts F b) -> findInst F (ptr j) = Some j.
Proof.
  intros [_ Hp] H. apply (findInst_unique _ _ Hp), (blockInsts_allInsts _ _ _ H).
Qed.

(** ** Relocation in a well-formed body *)

Lemma filter_id (A : Type) (f : A -> bool) (l : list A) :
  (forall x, In x l -> f x = true) -> filter f l = l.
Proof.
  induction l as [|a l IH]; simpl; intro H; [reflexivity|].
  rewrite (H a (or_introl eq_refl)), IH; auto.
Qed.

Lemma filter_filter (A : Type) (f g : A -> bool) (l : list A) :
  filter f (filter g l) = filter (fun x => g x && f x) l.
Proof.
  induction l as [|a l IH]; simpl; [reflexivity|].
  destruct (g a); simpl; [destruct (f a)|]; rewrite IH; reflexivity.
Qed.

Lemma filter_ext_in (A : Type) (f g : A -> bool) (l : list A) :
  (forall x, In x l -> f x = g x) -> filter f l = filter g l.
Proof.
  induction l as [|a l IH]; simpl; intro H; [reflexivity|].
  rewrite (H a (or_introl eq_refl)), IH; auto.
Qed.

Lemma unlink_as_filter (p : InstRef) (l : list Instruction) :
  NoDup (map ptr l) -> unlink p l = filter (notAt p) l.
Proof.
  induction l as [|j l IH]; simpl; [reflexivity|].
  intro Hnd. inversion Hnd as [|x r Hx Hr]; subst.
  unfold notAt at 1. destruct (hasPtr p j) eqn:E; simpl.
  - symmetry. apply filter_id. intros k Hk. unfold notAt, hasPtr.
    unfold hasPtr in E. apply N.eqb_eq in E.
    destruct (N.eqb (ptr k) p) eqn:Ek; [|reflexivity].
    apply N.eqb_eq in Ek. exfalso. apply Hx. rewrite E, <- Ek. apply in_map, Hk.
  - rewrite (IH Hr). reflexivity.
Qed.

Lemma blockInsts_removeInst_wf (p : InstRef) (F : list BasicBlock) (b : BlockRef) :
  NoDup (map ptr (allInsts F)) ->
  blockInsts (removeInst p F) b = filter (notAt p) (blockInsts F b).
Proof.
  unfold allInsts, blockInsts. induction F as [|B F IH]; simpl; [reflexivity|].
  rewrite map_app. intro Hnd. rewrite find_existsb_hasPtr.
  destruct (find (hasPtr p) (insts B)) as [k|] eqn:E; simpl.
  - destruct (N.eqb (label B) b).
    + apply unlink_as_filter, (NoDup_app_remove_r _ _ Hnd).
    + symmetry. apply filter_id. intros x Hx. unfold notAt, hasPtr.
      destruct (N.eqb (ptr x) p) eqn:Ex; [|reflexivity].
      apply N.eqb_eq in Ex. exfalso. apply find_hasPtr in E. destruct E as [Ep Ek].
      apply (NoDup_app_disjoint _ _ _ p Hnd).
      * rewrite <- Ep. apply in_map, Ek.
      * rewrite <- Ex. apply in_map.
        destruct (findBlock F b) as [C|] eqn:EC; [|destruct Hx].
        apply in_concat. exists (insts C). split; [|exact Hx].
        apply in_map. apply (findBlock_In _ _ _ EC).
  - destruct (N.eqb (label B) b).
    + symmetry. apply filter_id. intros x Hx. unfold notAt.
      destruct (hasPtr p x) eqn:Ex; [|reflexivity].
      exfalso. pose proof (find_none _ _ E x Hx) as Hf. congruence.
    + apply IH, (NoDup_app_remove_l _ _ Hnd).
Qed.

Lemma blockInsts_insertBeforeTerminator_other (x : Instruction) (PH b : BlockRef)
  (F : list BasicBlock) :
  b <> PH -> blockInsts (insertBeforeTerminator x PH F) b = blockInsts F b.
Proof.
  unfold blockInsts. intro Hne. induction F as [|B F IH]; simpl; [reflexivity|].
  destruct (N.eqb (label B) PH) eqn:E; simpl.
  - apply N.eqb_eq in E. destruct (N.eqb (label B) b) eqn:Eb; [|reflexivity].
    apply N.eqb_eq in Eb. congruence.
  - destruct (N.eqb (label B) b); [reflexivity | exact IH].
Qed.

Lemma wf_moved (F F' : list BasicBlock) :
  wf F -> map label F' = map label F -> Permutation (allInsts F) (allInsts F') -> wf F'.
Proof.
  intros [Hl Hp] El Hperm. split; [rewrite El; exact Hl|].
  eapply Permutation_NoDup; [apply Permutation_map, Hperm | exact Hp].
Qed.

Lemma findInst_perm (F F' : list BasicBlock) (q : InstRef) :
  wf F -> wf F' -> Permutation (allInsts F) (allInsts F') ->
  findInst F' q = findInst F q.
Proof.
  intros [_ Hp] [_ Hp'] Hperm.
  destruct (findInst F q) as [j|] eqn:E.
  - pose proof (findInst_ptr _ _ _ E) as Ej. rewrite <- Ej.
    apply (findInst_unique _ _ Hp').
    eapply Permutation_in; [exact Hperm | apply (findInst_In _ _ _ E)].
  - destruct (findInst F' q) as [j|] eqn:E'; [|reflexivity].
    pose proof (findInst_ptr _ _ _ E') as Ej.
    assert (Hin : In j (allInsts F))
      by (eapply Permutation_in; [apply Permutation_sym, Hperm | apply (findInst_In _ _ _ E')]).
    rewrite <- Ej, (findInst_unique _ _ Hp Hin) in E. discriminate.
Qed.

Lemma getTerminator_blockInsts (F : list BasicBlock) (b : BlockRef) :
  getTerminator F b = lastTerminator (blockInsts F b).
Proof.
  unfold getTerminator, blockInsts, lastTerminator.
  destruct (findBlock F b); reflexivity.
Qed.

Lemma lastTerminator_snoc (l : list Instruction) (t : Instruction) :
  lastTerminator l = Some t -> exists front, l = front ++ [t].
Proof.
  unfold lastTerminator. destruct (rev l) as [|t' r] eqn:E; [discriminate|].
  destruct (isTerminator t'); [|discriminate].
  intro H; inversion H; subst. exists (rev r). apply rev_head_snoc, E.
Qed.

Lemma lastTerminator_app (l : list Instruction) (t : Instruction) :
  isTerminator t = true -> lastTerminator (l ++ [t]) = Some t.
Proof.
  intro H. unfold lastTerminator. rewrite rev_app_distr. simpl. rewrite H. reflexivity.
Qed.

Lemma lastTerminator_is (l : list Instruction) (t : Instruction) :
  lastTerminator l = Some t -> isTerminator t = true.
Proof.
  unfold lastTerminator. destruct (rev l) as [|t' r]; [discriminate|].
  destruct (isTerminator t') eqn:E; [|discriminate].
  intro H; inversion H; subst; exact E.
Qed.

(** ** The worklist as a set *)

Lemma set_insert_In (p q : InstRef) (s : list InstRef) :
  In p (set_insert q s) <-> p = q \/ In p s.
Proof.
  induction s as [|r s IH]; simpl; [intuition|].
  destruct (N.ltb q r) eqn:E1; [simpl; intuition|].
  destruct (N.eqb q r) eqn:E2.
  - apply N.eqb_eq in E2. subst. simpl. intuition.
  - simpl. rewrite IH. intuition.
Qed.

Lemma set_insert_ascending (q : InstRef) (s : list InstRef) :
  ascending s -> ascending (set_insert q s).
Proof.
  induction s as [|r s IH]; simpl; [intuition|].
  intros [Hr Hs]. destruct (N.ltb q r) eqn:E1.
  - apply N.ltb_lt in E1. simpl. split; [|auto].
    intros x [Hx|Hx]; [subst; exact E1 | specialize (Hr x Hx); lia].
  - destruct (N.eqb q r) eqn:E2; [simpl; auto|].
    apply N.ltb_ge in E1. apply N.eqb_neq in E2. simpl. split; [|auto].
    intros x Hx. apply set_insert_In in Hx. destruct Hx as [Hx|Hx]; [subst; lia | auto].
Qed.

Lemma ascending_NoDup (s : list InstRef) : ascending s -> NoDup s.
Proof.
  induction s as [|p s IH]; simpl; [constructor|].
  intros [Hp Hs]. constructor; [|auto].
  intro Hin. specialize (Hp p Hin). lia.
Qed.

Lemma fillWorklist_from (l : list Instruction) (acc : list InstRef) :
  (forall p, In p (fold_left (fun wl i => set_insert (ptr i) wl) l acc)
             <-> In p acc \/ In p (map ptr l)) /\
  (ascending acc -> ascending (fold_left (fun wl i => set_insert (ptr i) wl) l acc)).
Proof.
  revert acc. induction l as [|j l IH]; intro acc; simpl.
  - split; [intuition | auto].
  - destruct (IH (set_insert (ptr j) acc)) as [H1 H2]. split.
    + intro p. rewrite H1, set_insert_In. intuition.
    + intro Ha. apply H2, set_insert_ascending, Ha.
Qed.

Lemma fillWorklist_In (l : list Instruction) (p : InstRef) :
  In p (fillWorklist l) <-> In p (map ptr l).
Proof.
  unfold fillWorklist. rewrite (proj1 (fillWorklist_from l [])). simpl. intuition.
Qed.

Lemma fillWorklist_NoDup (l : list Instruction) : NoDup (fillWorklist l).
Proof.
  apply ascending_NoDup. unfold fillWorklist.
  apply (proj2 (fillWorklist_from l [])). exact Logic.I.
Qed.

(** ** The order in which a loop is swept *)

Lemma mem_In (q : InstRef) (l : list InstRef) : mem q l = true <-> In q l.
Proof.
  unfold mem. rewrite existsb_exists. split.
  - intros [x [Hx E]]. apply N.eqb_eq in E. subst. exact Hx.
  - intro H. exists q. split; [exact H | apply N.eqb_refl].
Qed.

Lemma mem_false (q : InstRef) (l : list InstRef) : mem q l = false <-> ~ In q l.
Proof.
  rewrite <- mem_In. destruct (mem q l); split; congruence.
Qed.

Lemma schedule_In (L : Loop) (F : list BasicBlock) (p : InstRef) :
  In p (schedule L F) <->
  exists b j, In b (getBlocks L) /\ In j (blockInsts F b) /\ ptr j = p.
Proof.
  unfold schedule. rewrite in_flat_map. split.
  - intros [b [Hb Hp]]. apply fillWorklist_In in Hp. apply in_map_iff in Hp.
    destruct Hp as [j [Ej Hj]]. exists b, j. auto.
  - intros [b [j [Hb [Hj Ej]]]]. exists b. split; [exact Hb|].
    apply fillWorklist_In. rewrite <- Ej. apply in_map, Hj.
Qed.

Lemma blockInsts_parent (F : list BasicBlock) (b : BlockRef) (j : Instruction) :
  wf F -> In j (blockInsts F b) -> getParent F (ptr j) = Some b.
Proof.
  intros [_ Hp] H. destruct (In_blockInsts _ _ _ H) as [B [HB [Hl Hj]]].
  rewrite <- Hl. apply (getParent_unique _ _ _ Hp HB Hj).
Qed.

Lemma NoDup_flat_map (A B : Type) (f : A -> list B) (l : list A) :
  NoDup l ->
  (forall a, In a l -> NoDup (f a)) ->
  (forall a a' x, In a l -> In a' l -> In x (f a) -> In x (f a') -> a = a') ->
  NoDup (flat_map f l).
Proof.
  induction l as [|a l IH]; simpl; intros Hnd Hf Hd; [constructor|].
  inversion Hnd as [|x r Hx Hr]; subst.
  apply NoDup_app.
  - apply Hf. auto.
  - apply IH; auto. intros a1 a2 y H1 H2. apply Hd; auto.
  - intros y Hy Hy'. apply in_flat_map in Hy'. destruct Hy' as [a' [Ha' Hya']].
    assert (E : a = a') by (apply (Hd a a' y); auto). subst. contradiction.
Qed.

Lemma schedule_NoDup (L : Loop) (F : list BasicBlock) :
  wf F -> NoDup (getBlocks L) -> NoDup (schedule L F).
Proof.
  intros Hwf Hnd. unfold schedule. apply NoDup_flat_map; [exact Hnd | |].
  - intros b _. apply fillWorklist_NoDup.
  - intros b b' p _ _ H1 H2.
    apply fillWorklist_In, in_map_iff in H1. destruct H1 as [j [Ej Hj]].
    apply fillWorklist_In, in_map_iff in H2. destruct H2 as [j' [Ej' Hj']].
    pose proof (blockInsts_parent _ _ _ Hwf Hj) as P1.
    pose proof (blockInsts_parent _ _ _ Hwf Hj') as P2.
    rewrite Ej in P1. rewrite Ej' in P2. congruence.
Qed.

Lemma ordered_prefix (L : Loop) (F : list BasicBlock) (s1 s2 : list InstRef)
  (x q : InstRef) (j : Instruction) :
  forall seen,
  orderedFrom L F seen (s1 ++ x :: s2) = true ->
  findInst F x = Some j ->
  NotALoadOrStore j = true ->
  movable j = true ->
  In (InstResult q) (operands j) ->
  contains L F q = true ->
  movableAt F q = true ->
  In q seen \/ In q s1.
Proof.
  induction s1 as [|y s1 IH]; simpl; intros seen H Hj Hn Hm Hq Hc Hmq.
  - rewrite Hj, Hn, Hm in H. simpl in H. apply andb_prop in H. destruct H as [H _].
    unfold operandsSeen in H. rewrite forallb_forall in H. specialize (H _ Hq).
    simpl in H. rewrite Hc, Hmq in H. simpl in H. apply mem_In in H. auto.
  - apply andb_prop in H. destruct H as [_ H].
    destruct (IH _ H Hj Hn Hm Hq Hc Hmq) as [[E|H1]|H1]; auto.
Qed.

(** ** The sweep of one loop, step by step *)

Lemma bumps_succ_r (n : nat) (z : Z) : bumps (S n) z = wrap (bumps n z + 1).
Proof.
  replace (S n) with (n + 1)%nat by lia. rewrite bumps_add. reflexivity.
Qed.

Lemma countOtherInsts_cons (j : Instruction) (mv : list Instruction) :
  countOtherInsts (j :: mv)
  = if isLoad j then countOtherInsts mv else S (countOtherInsts mv).
Proof. unfold countOtherInsts. simpl. destruct (isLoad j); reflexivity. Qed.

Lemma countLoadInsts_cons (j : Instruction) (mv : list Instruction) :
  countLoadInsts (j :: mv)
  = if isLoad j then S (countLoadInsts mv) else countLoadInsts mv.
Proof. unfold countLoadInsts. simpl. destruct (isLoad j); reflexivity. Qed.

Lemma storeAllows_nonstore (F : list BasicBlock) (a : Value) (i : Instruction) :
  isStore i = false -> storeAllows F a i = true.
Proof.
  unfold isStore, storeAllows. destruct (kind i); try reflexivity. discriminate.
Qed.

Lemma forallb_filter_stores (F : list BasicBlock) (a : Value) (l : list Instruction) :
  forallb (storeAllows F a) l = forallb (storeAllows F a) (filter isStore l).
Proof.
  induction l as [|i l IH]; simpl; [reflexivity|].
  destruct (isStore i) eqn:E; simpl; [rewrite IH; reflexivity|].
  rewrite (storeAllows_nonstore F a i E). exact IH.
Qed.

Lemma storeAllows_ext (F F' : list BasicBlock) (a : Value) (i : Instruction) :
  (forall q, findInst F' q = findInst F q) ->
  storeAllows F' a i = storeAllows F a i.
Proof.
  intro H. unfold storeAllows, isAlloca. destruct (kind i) as [| vol v addr | | |]; try reflexivity.
  destruct addr; try reflexivity. rewrite H. reflexivity.
Qed.

Lemma forallb_ext_all (A : Type) (f g : A -> bool) (l : list A) :
  (forall x, f x = g x) -> forallb f l = forallb g l.
Proof.
  intro H. induction l as [|a l IH]; simpl; [reflexivity|]. rewrite H, IH. reflexivity.
Qed.

(** The decision on a load depends on the placement only through the stores
    of the loop and the instruction objects. *)
Lemma CanMoveOutofLoop_static (F F' : list BasicBlock) (L : Loop) (i : Instruction)
  (a : Value) (f : bool) :
  view isStore F' = view isStore F ->
  (forall q, findInst F' q = findInst F q) ->
  CanMoveOutofLoop F' L i a f = CanMoveOutofLoop F L i a f.
Proof.
  intros Hv Hf. unfold CanMoveOutofLoop, NoPossibleStoresToAddressInLoop.
  destruct (isVolatile i); [reflexivity|].
  destruct (isGlobalVariable a); [|reflexivity]. simpl.
  assert (E : forall l,
    forallb (fun bb => forallb (storeAllows F' a) (blockInsts F' bb)) l
    = forallb (fun bb => forallb (storeAllows F a) (blockInsts F bb)) l).
  { intro l. apply forallb_ext_all. intro bb.
    rewrite (forallb_filter_stores F' a), (forallb_filter_stores F a).
    rewrite <- !blockInsts_view, Hv.
    apply forallb_ext_all. intro x. apply storeAllows_ext, Hf. }
  rewrite E. reflexivity.
Qed.

Lemma updateStats_hoist_counters (hl hs hc : bool) (s : Statistics) :
  read LICMBasic (updateStats hl hs hc s) = read LICMBasic s /\
  read LICMLoadHoist (updateStats hl hs hc s) = read LICMLoadHoist s.
Proof.
  unfold updateStats, incr.
  destruct (negb hs && hl); [rewrite !read_write_other by discriminate; auto|].
  destruct (negb hl); [rewrite !read_write_other by discriminate; auto|].
  destruct (negb hs); [rewrite !read_write_other by discriminate; auto|].
  destruct hc; [rewrite !read_write_other by discriminate; auto | auto].
Qed.

Lemma forallb_false (A : Type) (f : A -> bool) (l : list A) :
  forallb f l = false -> exists x, In x l /\ f x = false.
Proof.
  induction l as [|a l IH]; simpl; [discriminate|].
  destruct (f a) eqn:E; simpl.
  - intro H. destruct (IH H) as [x [Hx Hf]]. exists x. auto.
  - intros _. exists a. auto.
Qed.

Lemma same_ptr_same_inst (F : list BasicBlock) (b b' : BlockRef) (j k : Instruction) :
  wf F -> In j (blockInsts F b) -> In k (blockInsts F b') -> ptr j = ptr k -> j = k.
Proof.
  intros Hwf Hj Hk E.
  pose proof (findInst_blockInsts _ _ _ Hwf Hj) as H1.
  pose proof (findInst_blockInsts _ _ _ Hwf Hk) as H2.
  rewrite E in H1. congruence.
Qed.

Lemma moved_loop_block (x : Instruction) (PH b : BlockRef) (F : list BasicBlock) :
  wf F -> b <> PH ->
  blockInsts (insertBeforeTerminator x PH (removeInst (ptr x) F)) b
  = filter (notAt (ptr x)) (blockInsts F b).
Proof.
  intros [_ Hp] Hne. rewrite (blockInsts_insertBeforeTerminator_other _ _ _ _ Hne).
  apply blockInsts_removeInst_wf, Hp.
Qed.

Lemma moved_preheader_block (x : Instruction) (PH b : BlockRef) (F : list BasicBlock) :
  wf F -> b <> PH -> In x (blockInsts F b) -> findBlock F PH <> None ->
  blockInsts (insertBeforeTerminator x PH (removeInst (ptr x) F)) PH
  = insertBeforeLast x (blockInsts F PH).
Proof.
  intros Hwf Hne Hx Hb.
  rewrite blockInsts_insertBeforeTerminator.
  - rewrite (blockInsts_removeInst_wf _ _ _ (proj2 Hwf)). f_equal.
    apply filter_id. intros k Hk. unfold notAt, hasPtr.
    destruct (N.eqb (ptr k) (ptr x)) eqn:E; [|reflexivity].
    apply N.eqb_eq in E. exfalso. apply Hne.
    pose proof (blockInsts_parent _ _ _ Hwf Hx) as P1.
    pose proof (blockInsts_parent _ _ _ Hwf Hk) as P2.
    rewrite E in P2. congruence.
  - intro Hn. apply Hb. eapply findBlock_labels; [|exact Hn]. apply removeInst_labels.
Qed.

Lemma notMoved_cons (x : Instruction) (mv : list Instruction) (j : Instruction) :
  notMoved (x :: mv) j = notMoved mv j && notAt (ptr x) j.
Proof.
  unfold notMoved, notAt, hasPtr, mem. simpl.
  destruct (N.eqb (ptr j) (ptr x)); destruct (existsb (N.eqb (ptr j)) (map ptr mv));
    reflexivity.
Qed.

Lemma movable_not_store (i : Instruction) : movable i = true -> isStore i = false.
Proof.
  unfold movable, isStore. destruct (kind i); try reflexivity. discriminate.
Qed.

Section LoopSweep.

Variable L : Loop.
Variable PH : BlockRef.
Variable t : Instruction.
Variable st0 : State.

Hypothesis HPH : getLoopPreheader L = Some PH.
Hypothesis Hout : ~ In PH (getBlocks L).
Hypothesis Hnd : NoDup (getBlocks L).
Hypothesis Hwf0 : wf (body st0).
Hypothesis Hterm : getTerminator (body st0) PH = Some t.

Lemma in_loop_not_PH (b : BlockRef) : In b (getBlocks L) -> b <> PH.
Proof. intros Hb E. subst. contradiction. Qed.

Lemma contains_filtered (mv : list Instruction) (F : list BasicBlock) (q : InstRef) :
  wf F ->
  (forall b, In b (getBlocks L) ->
     blockInsts F b = filter (notMoved mv) (blockInsts (body st0) b)) ->
  (contains L F q = true <->
   contains L (body st0) q = true /\ ~ In q (map ptr mv)).
Proof.
  intros Hwf Hloop. rewrite (contains_spec L _ q Hwf), (contains_spec L _ q Hwf0). split.
  - intros [b [j [Hb [Hj Ej]]]]. rewrite (Hloop b Hb) in Hj.
    apply filter_In in Hj. destruct Hj as [Hj Hm]. split.
    + exists b, j. auto.
    + unfold notMoved in Hm. apply negb_true_iff, mem_false in Hm. congruence.
  - intros [[b [j [Hb [Hj Ej]]]] Hn]. exists b, j. split; [exact Hb|]. split; [|exact Ej].
    rewrite (Hloop b Hb). apply filter_In. split; [exact Hj|].
    unfold notMoved. apply negb_true_iff, mem_false. congruence.
Qed.

Lemma load_decision_static (F : list BasicBlock) (j : Instruction) :
  view isStore F = view isStore (body st0) ->
  (forall q, findInst F q = findInst (body st0) q) ->
  NotALoadOrStore j = false ->
  decision L F j = decision L (body st0) j.
Proof.
  intros Hv Hf Hn. unfold decision. rewrite Hn.
  destruct (kind j); try reflexivity.
  apply CanMoveOutofLoop_static; assumption.
Qed.

Lemma prog_findInst (D R : list InstRef) (mv : list Instruction) (st : State) :
  prog L PH t st0 D R mv st -> forall q, findInst (body st) q = findInst (body st0) q.
Proof.
  intros H q.
  apply findInst_perm; [exact Hwf0 | apply (pg_wf _ _ _ _ _ _ _ _ H) | apply (pg_perm _ _ _ _ _ _ _ _ H)].
Qed.

Lemma prog_contains (D R : list InstRef) (mv : list Instruction) (st : State) (q : InstRef) :
  prog L PH t st0 D R mv st ->
  (contains L (body st) q = true <->
   contains L (body st0) q = true /\ ~ In q (map ptr mv)).
Proof.
  intro H. apply contains_filtered; [apply (pg_wf _ _ _ _ _ _ _ _ H)|].
  intros b Hb. apply (pg_loop _ _ _ _ _ _ _ _ H b (in_loop_not_PH b Hb)).
Qed.

Lemma prog_terminator (D R : list InstRef) (mv : list Instruction) (st : State) :
  prog L PH t st0 D R mv st -> getTerminator (body st) PH = Some t.
Proof.
  intro H. destruct (pg_ph _ _ _ _ _ _ _ _ H) as [front [_ E]].
  rewrite getTerminator_blockInsts, E, app_assoc.
  apply lastTerminator_app. rewrite getTerminator_blockInsts in Hterm.
  apply (lastTerminator_is _ _ Hterm).
Qed.

Lemma prog_load_decision (D R : list InstRef) (mv : list Instruction) (st : State)
  (j : Instruction) :
  prog L PH t st0 D R mv st -> NotALoadOrStore j = false ->
  decision L (body st) j = decision L (body st0) j.
Proof.
  intros H Hn.
  apply load_decision_static; [apply (pg_stores _ _ _ _ _ _ _ _ H) | apply (prog_findInst _ _ _ _ H) | exact Hn].
Qed.

Lemma prog_invariant_operands (D R : list InstRef) (mv : list Instruction) (st : State)
  (j : Instruction) :
  prog L PH t st0 D R mv st ->
  AreAllOperandsLoopInvaraint L (body st0) j = true ->
  AreAllOperandsLoopInvaraint L (body st) j = true.
Proof.
  intros H. unfold AreAllOperandsLoopInvaraint. rewrite !forallb_forall.
  intros Ho v Hv. specialize (Ho v Hv). destruct v; try reflexivity.
  simpl in *. apply negb_true_iff. apply negb_true_iff in Ho.
  destruct (contains L (body st) i) eqn:E; [|reflexivity].
  apply (prog_contains _ _ _ _ i H) in E. destruct E as [E _]. congruence.
Qed.

(** A decision that is positive in the initial placement stays positive as
    long as the instruction is in the loop. *)
Lemma prog_decision_mono (D R : list InstRef) (mv : list Instruction) (st : State)
  (j : Instruction) :
  prog L PH t st0 D R mv st ->
  contains L (body st) (ptr j) = true ->
  decision L (body st0) j = true -> decision L (body st) j = true.
Proof.
  intros H Hc Hd. destruct (NotALoadOrStore j) eqn:En.
  - unfold decision in *. rewrite En in *.
    apply andb_prop in Hd. destruct Hd as [Hd H4].
    apply andb_prop in Hd. destruct Hd as [Hd H3].
    apply andb_prop in Hd. destruct Hd as [H1 H2].
    rewrite (prog_invariant_operands _ _ _ _ j H H1), Hc, H3, H4. reflexivity.
  - rewrite (prog_load_decision _ _ _ _ j H En). exact Hd.
Qed.

(** The instruction behind the next address of the schedule: it is still in
    its block of the loop. *)
Lemma prog_next (D R : list InstRef) (mv : list Instruction) (st : State) (p : InstRef) :
  prog L PH t st0 D (p :: R) mv st ->
  ~ In p D /\
  exists b j, In b (getBlocks L) /\ In j (blockInsts (body st0) b) /\ ptr j = p /\
              In j (blockInsts (body st) b) /\
              findInst (body st) p = Some j /\
              contains L (body st) p = true.
Proof.
  intro H. pose proof (pg_sched _ _ _ _ _ _ _ _ H) as Hs.
  pose proof (schedule_NoDup L _ Hwf0 Hnd) as Hn. rewrite Hs in Hn.
  assert (HpD : ~ In p D).
  { intro Hin. apply (NoDup_remove_2 _ _ _ Hn). apply in_or_app. left.
    apply in_rev in Hin. exact Hin. }
  split; [exact HpD|].
  assert (Hp : In p (schedule L (body st0)))
    by (rewrite Hs; apply in_or_app; right; left; reflexivity).
  apply schedule_In in Hp. destruct Hp as [b [j [Hb [Hj Ej]]]].
  assert (Hnm : ~ In p (map ptr mv)).
  { intro Hin. apply in_map_iff in Hin. destruct Hin as [k [Ek Hk]].
    apply HpD. rewrite <- Ek. apply (pg_mv _ _ _ _ _ _ _ _ H k Hk). }
  assert (Hj' : In j (blockInsts (body st) b)).
  { rewrite (pg_loop _ _ _ _ _ _ _ _ H b (in_loop_not_PH b Hb)). apply filter_In. split; [exact Hj|].
    unfold notMoved. apply negb_true_iff, mem_false. congruence. }
  exists b, j. repeat split; auto.
  - rewrite <- Ej. apply (findInst_blockInsts _ _ _ (pg_wf _ _ _ _ _ _ _ _ H) Hj').
  - apply (contains_spec L _ p (pg_wf _ _ _ _ _ _ _ _ H)). exists b, j. auto.
Qed.

Lemma prog_keep (D R : list InstRef) (mv : list Instruction) (st : State) (p : InstRef)
  (j : Instruction) :
  prog L PH t st0 D (p :: R) mv st ->
  findInst (body st) p = Some j ->
  decision L (body st) j = false ->
  prog L PH t st0 (p :: D) R mv st.
Proof.
  intros H Hf Hd. destruct (prog_next _ _ _ _ _ H) as [HpD [b [j0 [Hb [Hj0 [Ej [Hj' [Hf' Hc]]]]]]]].
  assert (j0 = j) by congruence. subst j0.
  destruct H as [Hs Hmv Hwf Hperm Hst Hloop Hph Hh Hb1 Hl1 Hho Hde Hse].
  constructor; auto.
  - simpl. rewrite <- app_assoc. exact Hs.
  - intros k Hk. right. auto.
  - intros k b' Hb' Hk [Hp|HD] Hdk; [|eauto].
    exfalso. assert (k = j).
    { apply (same_ptr_same_inst _ _ _ _ _ Hwf0 Hk Hj0). congruence. }
    subst k.
    assert (Hpr : prog L PH t st0 D (p :: R) mv st) by (constructor; auto).
    rewrite <- Ej in Hc.
    rewrite (prog_decision_mono _ _ _ _ j Hpr Hc Hdk) in Hd. discriminate.
  - intros Hord k b' Hb' Hk [Hp|HD]; [|eauto].
    assert (k = j).
    { apply (same_ptr_same_inst _ _ _ _ _ Hwf Hk Hj'). congruence. }
    subst k. exact Hd.
Qed.

Lemma prog_move (D R : list InstRef) (mv : list Instruction) (st : State) (p : InstRef)
  (j : Instruction) :
  prog L PH t st0 D (p :: R) mv st ->
  findInst (body st) p = Some j ->
  decision L (body st) j = true ->
  exists st1,
    relocate L j PH st = Some st1 /\
    prog L PH t st0 (p :: D) R (j :: mv) (count (hoistCounter j) st1).
Proof.
  intros H Hf Hd.
  destruct (prog_next _ _ _ _ _ H) as [HpD [b [j0 [Hb [Hj0 [Ej [Hj' [Hf' Hc]]]]]]]].
  assert (j0 = j) by congruence. subst j0.
  pose proof (prog_terminator _ _ _ _ H) as Ht.
  pose proof (prog_findInst _ _ _ _ H) as Hfi.
  pose proof (decision_movable _ _ _ Hd) as Hmo.
  assert (HbPH : b <> PH) by (intro E; subst; contradiction).
  assert (Hfj : findInst (body st) (ptr j) = Some j) by (rewrite Ej; exact Hf).
  set (F' := insertBeforeTerminator j PH (removeInst (ptr j) (body st))).
  assert (Hmv' : moveBeforeTerminator j PH (body st) = Some F')
    by (unfold moveBeforeTerminator; rewrite Ht; reflexivity).
  assert (Hperm' : Permutation (allInsts (body st)) (allInsts F'))
    by (apply (moveBeforeTerminator_perm _ _ _ _ Hfj Hmv')).
  assert (Hlab' : map label F' = map label (body st))
    by (apply (moveBeforeTerminator_labels _ _ _ _ Hmv')).
  assert (Hwf' : wf F') by (apply (wf_moved _ _ (pg_wf _ _ _ _ _ _ _ _ H) Hlab' Hperm')).
  assert (Hst' : view isStore F' = view isStore (body st0)).
  { rewrite (moveBeforeTerminator_view isStore _ _ _ _ Hfj (movable_not_store _ Hmo) Hmv').
    apply (pg_stores _ _ _ _ _ _ _ _ H). }
  assert (Hfi' : forall q, findInst F' q = findInst (body st0) q).
  { intro q. rewrite <- Hfi. apply findInst_perm; [apply (pg_wf _ _ _ _ _ _ _ _ H) | exact Hwf' | exact Hperm']. }
  assert (Hloop' : forall b', b' <> PH ->
            blockInsts F' b' = filter (notMoved (j :: mv)) (blockInsts (body st0) b')).
  { intros b' Hb'.
    unfold F'. rewrite (moved_loop_block _ _ _ _ (pg_wf _ _ _ _ _ _ _ _ H)) by assumption.
    rewrite (pg_loop _ _ _ _ _ _ _ _ H b' Hb'), filter_filter.
    apply filter_ext_in. intros k _. symmetry. apply notMoved_cons. }
  exists (mkState F' (stats st) (mkMove L j (body st) :: hist st)).
  split; [unfold relocate; rewrite Hmv'; reflexivity|].
  destruct H as [Hs Hmv Hwf Hperm Hst Hloop Hph Hh Hb1 Hl1 Hho Hde Hse].
  constructor; cbn [body stats hist count].
  - simpl. rewrite <- app_assoc. exact Hs.
  - intros k [Hk|Hk]; [subst; left; auto | right; auto].
  - exact Hwf'.
  - eapply perm_trans; eassumption.
  - exact Hst'.
  - exact Hloop'.
  - destruct Hph as [front [E0 E]]. exists front. split; [exact E0|].
    unfold F'. rewrite (moved_preheader_block _ _ _ _ Hwf HbPH Hj').
    + rewrite E, app_assoc, insertBeforeLast_snoc. simpl.
      rewrite <- !app_assoc. reflexivity.
    + apply (getTerminator_findBlock _ _ _ Ht).
  - destruct Hh as [ms [E1 [E2 E3]]]. exists (mkMove L j (body st) :: ms).
    split; [rewrite E1; reflexivity|]. split; [simpl; rewrite E2; reflexivity|].
    constructor; auto.
  - rewrite countOtherInsts_cons. unfold hoistCounter, incr. destruct (isLoad j).
    + rewrite read_write_other by discriminate. exact Hb1.
    + rewrite read_write_same, bumps_succ_r, Hb1. reflexivity.
  - rewrite countLoadInsts_cons. unfold hoistCounter, incr. destruct (isLoad j).
    + rewrite read_write_same, bumps_succ_r, Hl1. reflexivity.
    + rewrite read_write_other by discriminate. exact Hl1.
  - intros k b' Hb' Hk [Hp|HD] Hdk; [left | right; eauto].
    symmetry. apply (same_ptr_same_inst _ _ _ _ _ Hwf0 Hk Hj0). congruence.
  - intros k [Hk|Hk]; [subst k | auto].
    split; [exists b; auto|]. split; [exact Hmo|].
    intro Hl. rewrite <- Hd. symmetry.
    apply load_decision_static; [exact Hst | exact Hfi|].
    unfold NotALoadOrStore. rewrite Hl. reflexivity.
  - intros Hord k b' Hb' Hk HD.
    rewrite (Hloop' b' (in_loop_not_PH _ Hb')) in Hk.
    apply filter_In in Hk. destruct Hk as [Hk0 Hnm].
    rewrite notMoved_cons in Hnm. apply andb_prop in Hnm. destruct Hnm as [Hnm Hna].
    assert (Hne : ptr k <> p).
    { unfold notAt, hasPtr in Hna. apply negb_true_iff, N.eqb_neq in Hna. congruence. }
    destruct HD as [HD|HD]; [congruence|].
    assert (Hk' : In k (blockInsts (body st) b'))
      by (rewrite (Hloop b' (in_loop_not_PH _ Hb')); apply filter_In; auto).
    pose proof (Hse Hord k b' Hb' Hk' HD) as IHs.
    destruct (NotALoadOrStore k) eqn:En.
    + destruct (decision L F' k) eqn:Ed'; [exfalso | reflexivity].
      unfold decision in Ed', IHs. rewrite En in Ed', IHs.
      apply andb_prop in Ed'. destruct Ed' as [Ed' H4].
      apply andb_prop in Ed'. destruct Ed' as [Ed' H3].
      apply andb_prop in Ed'. destruct Ed' as [H1 H2].
      assert (Hck : contains L (body st) (ptr k) = true)
        by (apply (contains_spec L _ _ Hwf); exists b', k; auto).
      rewrite Hck, H3, H4, !andb_true_r in IHs.
      destruct (forallb_false _ _ _ IHs) as [v [Hv Hiv]].
      destruct v as [| | | | |q]; try discriminate.
      simpl in Hiv. apply negb_false_iff in Hiv.
      unfold AreAllOperandsLoopInvaraint in H1. rewrite forallb_forall in H1.
      specialize (H1 _ Hv). simpl in H1. apply negb_true_iff in H1.
      apply (contains_filtered mv _ q Hwf (fun x Hx => Hloop x (in_loop_not_PH x Hx))) in Hiv.
      destruct Hiv as [Hq0 Hqm].
      assert (Hqp : q = p).
      { destruct (N.eq_dec q p) as [E|E]; [exact E|]. exfalso.
        assert (Hc' : contains L F' q = true).
        { apply (contains_filtered (j :: mv) _ q Hwf'
                   (fun x Hx => Hloop' x (in_loop_not_PH x Hx))).
          split; [exact Hq0|].
          simpl. intros [E'|E']; [congruence | contradiction]. }
        congruence. }
      apply in_rev in HD. apply in_split in HD. destruct HD as [s1 [s2 Es]].
      unfold examinedAfterOperands in Hord. rewrite Hs, Es, <- app_assoc in Hord.
      simpl in Hord.
      assert (Hfk : findInst (body st0) (ptr k) = Some k)
        by (apply (findInst_blockInsts _ _ _ Hwf0 Hk0)).
      assert (Hmk : movable k = true).
      { unfold movable. unfold NotALoadOrStore, isLoad, isStore in En.
        destruct (kind k); try discriminate; rewrite H3, H4; reflexivity. }
      assert (Hmq : movableAt (body st0) q = true).
      { unfold movableAt. rewrite <- Hfi, Hqp, Hf. exact Hmo. }
      destruct (ordered_prefix _ _ _ _ _ _ _ _ Hord Hfk En Hmk Hv Hq0 Hmq) as [[]|Hin].
      apply HpD. apply in_rev. rewrite Es. apply in_or_app. left. congruence.
    + rewrite (load_decision_static F' k Hst' Hfi' En).
      rewrite <- (load_decision_static (body st) k Hst Hfi En). exact IHs.
Qed.

Lemma prog_visit (D R : list InstRef) (mv : list Instruction) (st : State) (p : InstRef)
  (lcs : bool) :
  prog L PH t st0 D (p :: R) mv st ->
  exists st' mv', visit L PH lcs p st = Some st' /\ prog L PH t st0 (p :: D) R mv' st'.
Proof.
  intro H. destruct (prog_next _ _ _ _ _ H) as [_ [b [j [_ [_ [_ [_ [Hf _]]]]]]]].
  rewrite (visit_decision L PH lcs p j st HPH Hf).
  destruct (decision L (body st) j) eqn:Hd.
  - destruct (prog_move _ _ _ _ _ _ H Hf Hd) as [st1 [Hr Hp]].
    rewrite Hr. exists (count (hoistCounter j) st1), (j :: mv). auto.
  - exists st, mv. split; [reflexivity|]. apply (prog_keep _ _ _ _ _ _ H Hf Hd).
Qed.

Lemma prog_drain (lcs : bool) (R : list InstRef) (w : list InstRef) :
  forall D mv st,
  prog L PH t st0 D (w ++ R) mv st ->
  exists st' mv', drain L PH lcs w st = Some st' /\ prog L PH t st0 (rev w ++ D) R mv' st'.
Proof.
  induction w as [|p w IH]; intros D mv st H.
  - exists st, mv. split; [reflexivity | exact H].
  - simpl in H. destruct (prog_visit _ _ _ _ _ lcs H) as [st1 [mv1 [Hv H1]]].
    destruct (IH _ _ _ H1) as [st2 [mv2 [Hd H2]]].
    exists st2, mv2. split.
    + simpl. rewrite Hv. exact Hd.
    + simpl. rewrite <- app_assoc. exact H2.
Qed.

(** Bumping the counters of [updateStats] does not disturb the sweep. *)
Lemma prog_updateStats (D R : list InstRef) (mv : list Instruction) (st : State)
  (hl hs hc : bool) :
  prog L PH t st0 D R mv st ->
  prog L PH t st0 D R mv (mkState (body st) (updateStats hl hs hc (stats st)) (hist st)).
Proof.
  intros [Hs Hmv Hwf Hperm Hst Hloop Hph Hh Hb1 Hl1 Hho Hde Hse].
  destruct (updateStats_hoist_counters hl hs hc (stats st)) as [E1 E2].
  constructor; cbn [body stats hist]; auto; congruence.
Qed.

Lemma prog_block_untouched (D R : list InstRef) (mv : list Instruction) (st : State)
  (b : BlockRef) :
  In b (getBlocks L) ->
  prog L PH t st0 D (fillWorklist (blockInsts (body st0) b) ++ R) mv st ->
  blockInsts (body st) b = blockInsts (body st0) b.
Proof.
  intros Hb H. rewrite (pg_loop _ _ _ _ _ _ _ _ H b (in_loop_not_PH b Hb)). apply filter_id.
  intros j Hj. unfold notMoved. apply negb_true_iff, mem_false.
  intro Hin. apply in_map_iff in Hin. destruct Hin as [k [Ek Hk]].
  pose proof (pg_mv _ _ _ _ _ _ _ _ H k Hk) as HD.
  pose proof (schedule_NoDup L _ Hwf0 Hnd) as Hn.
  rewrite (pg_sched _ _ _ _ _ _ _ _ H) in Hn.
  apply (NoDup_app_disjoint _ _ _ (ptr j) Hn).
  - rewrite <- Ek. apply in_rev in HD. exact HD.
  - apply in_or_app. left. apply fillWorklist_In. apply in_map, Hj.
Qed.

Lemma prog_sweepBlock (D R : list InstRef) (mv : list Instruction) (st : State)
  (b : BlockRef) (lcs : bool) :
  In b (getBlocks L) ->
  prog L PH t st0 D (fillWorklist (blockInsts (body st0) b) ++ R) mv st ->
  exists st' mv' lcs',
    sweepBlock L PH b lcs st = Some (st', lcs') /\
    prog L PH t st0 (rev (fillWorklist (blockInsts (body st0) b)) ++ D) R mv' st'.
Proof.
  intros Hb H. unfold sweepBlock. cbv zeta.
  rewrite (prog_block_untouched _ _ _ _ _ Hb H).
  pose proof (prog_updateStats _ _ _ _
                (existsb isLoad (blockInsts (body st0) b))
                (existsb isStore (blockInsts (body st0) b))
                (existsb isCall (blockInsts (body st0) b)) H) as H1.
  destruct (prog_drain (lcs || existsb isStore (blockInsts (body st0) b)) R _ _ _ _ H1)
    as [st2 [mv2 [Hd H2]]].
  cbn [body] in Hd. rewrite Hd.
  exists st2, mv2, (lcs || existsb isStore (blockInsts (body st0) b)). auto.
Qed.

Lemma prog_sweepBlocks (bs : list BlockRef) :
  forall D mv st lcs,
  incl bs (getBlocks L) ->
  prog L PH t st0 D (flat_map (fun b => fillWorklist (blockInsts (body st0) b)) bs) mv st ->
  exists st' mv',
    sweepBlocks L PH bs lcs st = Some st' /\
    prog L PH t st0 (rev (flat_map (fun b => fillWorklist (blockInsts (body st0) b)) bs) ++ D)
         [] mv' st'.
Proof.
  induction bs as [|b bs IH]; intros D mv st lcs Hin H.
  - exists st, mv. split; [reflexivity | exact H].
  - simpl in H.
    destruct (prog_sweepBlock _ _ _ _ b lcs (Hin b (or_introl eq_refl)) H)
      as [st1 [mv1 [lcs1 [Hs H1]]]].
    assert (Hin' : incl bs (getBlocks L)) by (intros x Hx; apply Hin; right; exact Hx).
    destruct (IH _ _ _ lcs1 Hin' H1) as [st2 [mv2 [Hs2 H2]]].
    exists st2, mv2. split.
    + simpl. rewrite Hs. exact Hs2.
    + simpl. rewrite rev_app_distr, <- app_assoc. exact H2.
Qed.

Lemma prog_start : prog L PH t st0 [] (schedule L (body st0)) [] st0.
Proof.
  constructor.
  - reflexivity.
  - intros j [].
  - exact Hwf0.
  - apply Permutation_refl.
  - reflexivity.
  - intros b _. symmetry. apply filter_id. intros; reflexivity.
  - rewrite getTerminator_blockInsts in Hterm.
    destruct (lastTerminator_snoc _ _ Hterm) as [front E]. exists front. auto.
  - exists []. auto.
  - reflexivity.
  - reflexivity.
  - intros j b _ _ [].
  - intros j [].
  - intros _ j b _ _ [].
Qed.

(** The sweep of the loop goes through, and its result is described by the
    instructions it has relocated. *)
Lemma rewriteLoop_prog :
  exists st' mv,
    rewriteLoop L PH st0 = Some st' /\
    prog L PH t st0 (rev (schedule L (body st0))) [] mv st'.
Proof.
  unfold rewriteLoop.
  destruct (prog_sweepBlocks (getBlocks L) [] [] st0 false (incl_refl _) prog_start)
    as [st' [mv [Hs H]]].
  rewrite app_nil_r in H. exists st', mv. auto.
Qed.

End LoopSweep.

(** ** What the sweep of a loop hoists *)


Lemma countLoadInsts_rev (mv : list Instruction) :
  countLoadInsts (rev mv) = countLoadInsts mv.
Proof. unfold countLoadInsts. rewrite filter_rev. apply length_rev. Qed.

Lemma in_rev_schedule (L : Loop) (F : list BasicBlock) (b : BlockRef) (i : Instruction) :
  In b (getBlocks L) -> In i (blockInsts F b) -> In (ptr i) (rev (schedule L F)).
Proof.
  intros Hb Hi. apply in_rev. rewrite rev_involutive.
  apply schedule_In. exists b, i. auto.
Qed.



(** C1, amended: in a well-formed function, when a loop whose preheader lies
    outside the loop and ends in a terminator is swept, a non-volatile read of
    a global that is in the loop is hoisted into the preheader if and only if
    no store of the loop has that global as its destination and every store
    of the loop goes to an alloca or to a global; otherwise (a store to the
    same global, or a store through any other pointer) the read stays in its
    block. *)
Theorem global_load_hoisted_iff (L : Loop) (PH b : BlockRef) (t i : Instruction) (g : N)
  (st : State) :
  getLoopPreheader L = Some PH ->
  ~ In PH (getBlocks L) ->
  NoDup (getBlocks L) ->
  wf (body st) ->
  getTerminator (body st) PH = Some t ->
  In b (getBlocks L) ->
  In i (blockInsts (body st) b) ->
  kind i = LoadInst false (GlobalVariable g) ->
  exists st' front hoisted,
    rewriteLoop L PH st = Some st' /\
    blockInsts (body st) PH = front ++ [t] /\
    blockInsts (body st') PH = front ++ hoisted ++ [t] /\
    (In i hoisted <->
     noWriteTo L (body st) (GlobalVariable g) /\ writesResolved L (body st)) /\
    (In i (blockInsts (body st') b) <-> ~ In i hoisted) /\
    read LICMLoadHoist (stats st')
    = bumps (countLoadInsts hoisted) (read LICMLoadHoist (stats st)).
Proof.
  intros HPH Hout Hnd Hwf Ht Hb Hi Hk.
  destruct (rewriteLoop_prog L PH t st HPH Hout Hnd Hwf Ht) as [st' [mv [Hr Hp]]].
  destruct (pg_ph _ _ _ _ _ _ _ _ Hp) as [front [E0 E1]].
  exists st', front, (rev mv). split; [exact Hr|]. split; [exact E0|]. split; [exact E1|].
  assert (Hl : isLoad i = true) by (unfold isLoad; rewrite Hk; reflexivity).
  assert (Hd : decision L (body st) i = true <->
               noWriteTo L (body st) (GlobalVariable g) /\ writesResolved L (body st)).
  { unfold decision, NotALoadOrStore. rewrite Hl, Hk.
    rewrite CanMoveOutofLoop_spec. unfold isVolatile. rewrite Hk. simpl. tauto. }
  split; [|split].
  - rewrite <- in_rev, <- Hd. split.
    + intro Hin. apply (pg_decided _ _ _ _ _ _ _ _ Hp i Hin), Hl.
    + apply (pg_hoisted _ _ _ _ _ _ _ _ Hp i b Hb Hi (in_rev_schedule _ _ _ _ Hb Hi)).
  - rewrite (pg_loop _ _ _ _ _ _ _ _ Hp b (in_loop_not_PH L PH Hout b Hb)).
    rewrite filter_In, <- in_rev. unfold notMoved. rewrite negb_true_iff, mem_false. split.
    + intros [_ Hn] Hin. apply Hn, in_map, Hin.
    + intro Hn. split; [exact Hi|]. intro Hin. apply in_map_iff in Hin.
      destruct Hin as [k [Ek Hkin]]. apply Hn.
      destruct (pg_decided _ _ _ _ _ _ _ _ Hp k Hkin) as [[b' [Hb' Hk']] _].
      rewrite (same_ptr_same_inst _ _ _ _ _ Hwf Hi Hk' (eq_sym Ek)). exact Hkin.
  - rewrite countLoadInsts_rev. apply (pg_loadc _ _ _ _ _ _ _ _ Hp).
Qed.

Lemma global_load_hoisted_iff_witness :
  exists st' front hoisted,
    rewriteLoop demo_loop 0%N (mkState demo_body zeroStats []) = Some st' /\
    blockInsts demo_body 0%N
    = front ++ [mkInst 2%N (Generic OpBr [BlockLabel 1%N])] /\
    blockInsts (body st') 0%N
    = front ++ hoisted ++ [mkInst 2%N (Generic OpBr [BlockLabel 1%N])] /\
    (In (mkInst 10%N (LoadInst false (GlobalVariable 1%N))) hoisted <->
     noWriteTo demo_loop demo_body (GlobalVariable 1%N) /\
     writesResolved demo_loop demo_body) /\
    (In (mkInst 10%N (LoadInst false (GlobalVariable 1%N))) (blockInsts (body st') 1%N)
     <-> ~ In (mkInst 10%N (LoadInst false (GlobalVariable 1%N))) hoisted) /\
    read LICMLoadHoist (stats st') = bumps (countLoadInsts hoisted) 0.
Proof.
  apply (global_load_hoisted_iff demo_loop 0%N 1%N
           (mkInst 2%N (Generic OpBr [BlockLabel 1%N]))
           (mkInst 10%N (LoadInst false (GlobalVariable 1%N))) 1%N
           (mkState demo_body zeroStats [])).
  - reflexivity.
  - simpl. intros [H|[]]. discriminate.
  - repeat constructor. simpl. tauto.
  - split; simpl; repeat constructor; simpl; intuition discriminate.
  - reflexivity.
  - simpl. auto.
  - simpl. auto.
  - reflexivity.
Defined.

(** ** Placements on which a sweep changes nothing *)

Lemma settled_drain (L : Loop) (PH : BlockRef) (lcs : bool) (st : State)
  (w : list InstRef) :
  getLoopPreheader L = Some PH ->
  (forall p i, In p w -> findInst (body st) p = Some i ->
               decision L (body st) i = false) ->
  drain L PH lcs w st = Some st.
Proof.
  intros HPH. induction w as [|p w IH]; intro H; simpl; [reflexivity|].
  assert (Hv : visit L PH lcs p st = Some st).
  { destruct (findInst (body st) p) as [i|] eqn:E.
    - rewrite (visit_decision L PH lcs p i st HPH E).
      rewrite (H p i (or_introl eq_refl) E). reflexivity.
    - apply visit_absent, E. }
  rewrite Hv. apply IH. intros q i Hq. apply H. right. exact Hq.
Qed.

Lemma settled_sweepBlocks (L : Loop) (PH : BlockRef) (bs : list BlockRef) :
  getLoopPreheader L = Some PH ->
  incl bs (getBlocks L) ->
  forall lcs st, settled L (body st) ->
  exists st', sweepBlocks L PH bs lcs st = Some st' /\
              body st' = body st /\ hist st' = hist st.
Proof.
  intros HPH. induction bs as [|b bs IH]; intros Hin lcs st Hs.
  - exists st. auto.
  - simpl. unfold sweepBlock. cbv zeta.
    rewrite settled_drain.
    + destruct (IH (fun x Hx => Hin x (or_intror Hx))
                  (lcs || existsb isStore (blockInsts (body st) b))
                  (mkState (body st)
                     (updateStats (existsb isLoad (blockInsts (body st) b))
                        (existsb isStore (blockInsts (body st) b))
                        (existsb isCall (blockInsts (body st) b)) (stats st))
                     (hist st)) Hs) as [st' [E [E1 E2]]].
      exists st'. auto.
    + exact HPH.
    + cbn [body]. intros p i Hp Hf. apply fillWorklist_In, in_map_iff in Hp.
      destruct Hp as [j [Ej Hj]]. subst p.
      apply (Hs b j i (Hin b (or_introl eq_refl)) Hj Hf).
Qed.

Lemma settled_rewriteLoop (L : Loop) (PH : BlockRef) (st : State) :
  getLoopPreheader L = Some PH -> settled L (body st) ->
  exists st', rewriteLoop L PH st = Some st' /\
              body st' = body st /\ hist st' = hist st.
Proof.
  intros HPH Hs. apply (settled_sweepBlocks L PH (getBlocks L) HPH (incl_refl _) false st Hs).
Qed.

(** ** Loops that do not share blocks *)

Lemma bool_iff_eq (a b : bool) : (a = true <-> b = true) -> a = b.
Proof.
  destruct a, b; intros [H1 H2]; try reflexivity.
  - symmetry. apply H1. reflexivity.
  - apply H2. reflexivity.
Qed.

Lemma contains_unaffected (A : Loop) (F F' : list BasicBlock) (q : InstRef) :
  wf F -> wf F' -> unaffected A F F' -> contains A F' q = contains A F q.
Proof.
  intros Hwf Hwf' Hu. apply bool_iff_eq.
  rewrite (contains_spec A _ q Hwf), (contains_spec A _ q Hwf'). split.
  - intros [b [j [Hb [Hj E]]]]. exists b, j. rewrite <- (Hu b Hb). auto.
  - intros [b [j [Hb [Hj E]]]]. exists b, j. rewrite (Hu b Hb). auto.
Qed.

Lemma isLoopInvariant_unaffected (A : Loop) (F F' : list BasicBlock) (v : Value) :
  wf F -> wf F' -> unaffected A F F' -> isLoopInvariant A F' v = isLoopInvariant A F v.
Proof.
  intros Hwf Hwf' Hu. destruct v; try reflexivity. simpl.
  rewrite (contains_unaffected A F F' i Hwf Hwf' Hu). reflexivity.
Qed.

Lemma decision_unaffected (A : Loop) (F F' : list BasicBlock) (i : Instruction) :
  wf F -> wf F' ->
  (forall q, findInst F' q = findInst F q) ->
  view isStore F' = view isStore F ->
  unaffected A F F' ->
  decision A F' i = decision A F i.
Proof.
  intros Hwf Hwf' Hf Hv Hu. unfold decision.
  destruct (NotALoadOrStore i).
  - unfold AreAllOperandsLoopInvaraint.
    rewrite (contains_unaffected A F F' (ptr i) Hwf Hwf' Hu).
    rewrite (forallb_ext_all _ (isLoopInvariant A F') (isLoopInvariant A F));
      [reflexivity|].
    intro v. apply isLoopInvariant_unaffected; assumption.
  - destruct (kind i); try reflexivity. apply CanMoveOutofLoop_static; assumption.
Qed.

Lemma settled_unaffected (A : Loop) (F F' : list BasicBlock) :
  wf F -> wf F' ->
  (forall q, findInst F' q = findInst F q) ->
  view isStore F' = view isStore F ->
  unaffected A F F' ->
  settled A F -> settled A F'.
Proof.
  intros Hwf Hwf' Hf Hv Hu Hs b j i Hb Hj Hi.
  rewrite (decision_unaffected A F F' i Hwf Hwf' Hf Hv Hu).
  rewrite (Hu b Hb) in Hj. rewrite Hf in Hi. apply (Hs b j i Hb Hj Hi).
Qed.

Lemma lastTerminator_filter (f : Instruction -> bool) (l : list Instruction)
  (t : Instruction) :
  lastTerminator l = Some t -> f t = true -> lastTerminator (filter f l) = Some t.
Proof.
  intros H Hf. destruct (lastTerminator_snoc _ _ H) as [front E]. subst l.
  rewrite filter_app. simpl. rewrite Hf.
  apply lastTerminator_app, (lastTerminator_is _ _ H).
Qed.

(** What the sweep of one loop does to the rest of the function. *)
Lemma rewriteLoop_effect (A : Loop) (PH : BlockRef) (t : Instruction) (st : State) :
  getLoopPreheader A = Some PH ->
  ~ In PH (getBlocks A) ->
  NoDup (getBlocks A) ->
  wf (body st) ->
  getTerminator (body st) PH = Some t ->
  exists st',
    rewriteLoop A PH st = Some st' /\
    wf (body st') /\
    (forall q, findInst (body st') q = findInst (body st) q) /\
    view isStore (body st') = view isStore (body st) /\
    (forall b t', getTerminator (body st) b = Some t' ->
                  getTerminator (body st') b = Some t') /\
    (forall B, disjointLoops A B -> ~ In PH (getBlocks B) ->
               unaffected B (body st) (body st')) /\
    (examinedAfterOperands A (body st) = true -> settled A (body st')).
Proof.
  intros HPH Hout Hnd Hwf Ht.
  destruct (rewriteLoop_prog A PH t st HPH Hout Hnd Hwf Ht) as [st' [mv [Hr Hp]]].
  pose proof (pg_wf _ _ _ _ _ _ _ _ Hp) as Hwf'.
  pose proof (pg_loop _ _ _ _ _ _ _ _ Hp) as Hloop.
  pose proof (pg_decided _ _ _ _ _ _ _ _ Hp) as Hdec.
  exists st'. split; [exact Hr|]. split; [exact Hwf'|].
  split; [apply (prog_findInst _ _ _ _ Hwf _ _ _ _ Hp)|].
  split; [apply (pg_stores _ _ _ _ _ _ _ _ Hp)|]. split; [|split].
  - intros b t' Hb. destruct (N.eq_dec b PH) as [E|E].
    + subst b. rewrite Ht in Hb. inversion Hb; subst t'.
      destruct (pg_ph _ _ _ _ _ _ _ _ Hp) as [front [_ E1]].
      rewrite getTerminator_blockInsts, E1, app_assoc.
      apply lastTerminator_app. rewrite getTerminator_blockInsts in Ht.
      apply (lastTerminator_is _ _ Ht).
    + rewrite getTerminator_blockInsts in *. rewrite (Hloop b E).
      apply lastTerminator_filter; [exact Hb|].
      unfold notMoved. apply negb_true_iff, mem_false. intro Hin.
      apply in_map_iff in Hin. destruct Hin as [k [Ek Hk]].
      destruct (Hdec k Hk) as [[bk [Hbk Hkin]] [Hmo _]].
      destruct (lastTerminator_snoc _ _ Hb) as [front Ef].
      assert (Hin' : In t' (blockInsts (body st) b))
        by (rewrite Ef; apply in_or_app; right; left; reflexivity).
      rewrite (same_ptr_same_inst _ _ _ _ _ Hwf Hkin Hin' Ek) in Hmo.
      apply movable_not_terminator in Hmo.
      rewrite (lastTerminator_is _ _ Hb) in Hmo. discriminate.
  - intros B Hdis HoutB b Hb.
    assert (E : b <> PH) by (intro E; subst; contradiction).
    rewrite (Hloop b E). apply filter_id. intros j Hj.
    unfold notMoved. apply negb_true_iff, mem_false. intro Hin.
    apply in_map_iff in Hin. destruct Hin as [k [Ek Hk]].
    destruct (Hdec k Hk) as [[bk [Hbk Hkin]] _].
    pose proof (blockInsts_parent _ _ _ Hwf Hkin) as P1.
    pose proof (blockInsts_parent _ _ _ Hwf Hj) as P2.
    rewrite Ek in P1. assert (bk = b) by congruence. subst bk.
    apply (Hdis b Hbk Hb).
  - intro Hord. intros b j i Hb Hj Hf.
    rewrite (findInst_blockInsts _ _ _ Hwf' Hj) in Hf. inversion Hf; subst i.
    apply (pg_settled _ _ _ _ _ _ _ _ Hp Hord j b Hb Hj).
    rewrite (Hloop b (in_loop_not_PH A PH Hout b Hb)) in Hj.
    apply filter_In in Hj. destruct Hj as [Hj _].
    apply (in_rev_schedule _ _ _ _ Hb Hj).
Qed.

(** ** A second run over settled loops *)

Lemma settledNest_unfold (F : list BasicBlock) (L : Loop) :
  settledNest F L <->
  match getLoopPreheader L with
  | None => True
  | Some _ => settled L F /\ Forall (settledNest F) (getSubLoops L)
  end.
Proof.
  destruct L as [[PH|] bs ss]; simpl; [|tauto].
  assert (E : forall ls,
    (fix all (ls : list Loop) : Prop :=
       match ls with
       | [] => True
       | s :: r => settledNest F s /\ all r
       end) ls <-> Forall (settledNest F) ls).
  { induction ls as [|s r IH]; simpl.
    - split; [constructor | tauto].
    - rewrite IH. split.
      + intros [H1 H2]. constructor; assumption.
      + intro H. inversion H; subst. auto. }
  rewrite E. reflexivity.
Qed.

Lemma settled_OptimizeLoops (ls : list Loop) :
  Forall (fun L => forall st, settledNest (body st) L ->
            exists st', OptimizeLoop2 L st = Some st' /\
                        body st' = body st /\ hist st' = hist st) ls ->
  forall st, Forall (settledNest (body st)) ls ->
  exists st', OptimizeLoops ls st = Some st' /\
              body st' = body st /\ hist st' = hist st.
Proof.
  induction 1 as [|L ls HL _ IH]; intros st Hs.
  - exists st. auto.
  - inversion Hs as [|x l H1 H2]; subst.
    destruct (HL st H1) as [st1 [E1 [Eb1 Eh1]]].
    simpl. rewrite E1. rewrite <- Eb1 in H2.
    destruct (IH st1 H2) as [st' [E [Eb Eh]]].
    exists st'. split; [exact E|]. split; congruence.
Qed.

(** A run over a nest whose visited loops are all settled changes nothing. *)
Lemma settled_OptimizeLoop2 (L : Loop) :
  forall st, settledNest (body st) L ->
  exists st', OptimizeLoop2 L st = Some st' /\
              body st' = body st /\ hist st' = hist st.
Proof.
  induction L as [ph bs ss IH] using Loop_forest_ind. intros st Hs.
  apply settledNest_unfold in Hs. rewrite OptimizeLoop2_eq.
  simpl getLoopPreheader in *. simpl getSubLoops in *.
  destruct ph as [PH|].
  - destruct Hs as [Hset Hsub].
    destruct (settled_OptimizeLoops ss IH (count NumLoops st) Hsub) as [st1 [E1 [Eb1 Eh1]]].
    rewrite E1. cbn [body hist count] in Eb1, Eh1.
    rewrite <- Eb1 in Hset.
    destruct (settled_rewriteLoop (mkLoop (Some PH) bs ss) PH st1 eq_refl Hset)
      as [st' [E [Eb Eh]]].
    exists st'. split; [exact E|]. split; congruence.
  - eexists. split; [reflexivity|]. auto.
Qed.

Lemma settled_function_runs (f : Function) (g : Global) :
  settledFunction f ->
  exists g2, runOnFunction f g = Some (f, g2) /\ ghist g2 = ghist g.
Proof.
  intro Hs. unfold runOnFunction. destruct f as [F ls]. cbn [fbody floops] in *.
  destruct F as [|B F]; [exists g; auto|].
  destruct (settled_OptimizeLoops ls
              (proj2 (Forall_forall _ _) (fun L _ => settled_OptimizeLoop2 L))
              (mkState (B :: F) (gstats g) (ghist g)) Hs) as [st' [E [Eb Eh]]].
  rewrite E. cbn [body hist] in Eb, Eh. rewrite Eb.
  exists (mkGlobal (stats st') (hist st')). auto.
Qed.

Lemma settled_module_runs (M : Module) :
  Forall settledFunction M ->
  forall g, exists g2, RunLICMBasic M g = Some (M, g2) /\ ghist g2 = ghist g.
Proof.
  induction 1 as [|f M Hf _ IH]; intro g.
  - exists g. auto.
  - destruct (settled_function_runs f g Hf) as [g1 [E1 H1]].
    destruct (IH g1) as [g2 [E2 H2]].
    exists g2. split; [simpl; rewrite E1, E2; reflexivity | congruence].
Qed.

(** ** The statistics on the module *)

Lemma summarizeBlock_closed (l : list Instruction) (s : ModuleStatistics) :
  fold_left (fun s I => summarizeInstruction I s) l s
  = mkModuleStats (nFunctions s)
                  (bumps (length l) (nInstructions s))
                  (bumps (howMany _ isLoad l) (nLoads s))
                  (bumps (howMany _ isStore l) (nStores s)).
Proof.
  unfold howMany. revert s. induction l as [|I l IH]; intro s.
  - destruct s; reflexivity.
  - cbn [fold_left]. rewrite IH. unfold summarizeInstruction, isLoad, isStore.
    cbn [filter]. unfold isLoad, isStore.
    destruct (kind I); reflexivity.
Qed.

Lemma summarizeBlocks_closed (F : list BasicBlock) (s : ModuleStatistics) :
  fold_left (fun s j => summarizeBlock j s) F s
  = mkModuleStats (nFunctions s)
                  (bumps (length (allInsts F)) (nInstructions s))
                  (bumps (howMany _ isLoad (allInsts F)) (nLoads s))
                  (bumps (howMany _ isStore (allInsts F)) (nStores s)).
Proof.
  unfold allInsts, howMany. revert s. induction F as [|B F IH]; intro s.
  - destruct s; reflexivity.
  - cbn [fold_left map concat]. rewrite IH. unfold summarizeBlock.
    rewrite summarizeBlock_closed. unfold howMany. cbn [nFunctions nInstructions nLoads nStores].
    rewrite !filter_app, !length_app, !bumps_add. reflexivity.
Qed.

Lemma summarizeFunction_closed (f : Function) (s : ModuleStatistics) :
  summarizeFunction f s
  = mkModuleStats (bumps (if hasBody f then 1 else 0) (nFunctions s))
                  (bumps (length (allInsts (fbody f))) (nInstructions s))
                  (bumps (howMany _ isLoad (allInsts (fbody f))) (nLoads s))
                  (bumps (howMany _ isStore (allInsts (fbody f))) (nStores s)).
Proof.
  unfold summarizeFunction, hasBody. rewrite summarizeBlocks_closed.
  destruct (fbody f); reflexivity.
Qed.

Lemma summarize_closed (M : Module) (s : ModuleStatistics) :
  summarize M s
  = mkModuleStats (bumps (howMany _ hasBody M) (nFunctions s))
                  (bumps (length (moduleInsts M)) (nInstructions s))
                  (bumps (howMany _ isLoad (moduleInsts M)) (nLoads s))
                  (bumps (howMany _ isStore (moduleInsts M)) (nStores s)).
Proof.
  unfold summarize, moduleInsts, howMany. revert s. induction M as [|f M IH]; intro s.
  - destruct s; reflexivity.
  - cbn [fold_left flat_map filter]. rewrite IH, summarizeFunction_closed.
    unfold howMany. cbn [nFunctions nInstructions nLoads nStores].
    rewrite !filter_app, !length_app, !bumps_add.
    destruct (hasBody f); reflexivity.
Qed.

Lemma bumps_zero (n : nat) : bumps n 0 = wrap (Z.of_nat n).
Proof.
  pose proof (bumps_wrap n 0) as H. exact H.
Qed.

(** X1: [summarize] advances the four counters by the number of functions
    that have a body, the number of instructions, the number of loads and the
    number of stores of the module; from zero the counters end at these
    numbers, reduced to 32 bits. *)
Theorem summarize_counts (M : Module) (s : ModuleStatistics) :
  summarize M s
  = mkModuleStats (bumps (howMany _ hasBody M) (nFunctions s))
                  (bumps (length (moduleInsts M)) (nInstructions s))
                  (bumps (howMany _ isLoad (moduleInsts M)) (nLoads s))
                  (bumps (howMany _ isStore (moduleInsts M)) (nStores s)) /\
  summarize M zeroModuleStats
  = mkModuleStats (wrap (Z.of_nat (howMany _ hasBody M)))
                  (wrap (Z.of_nat (length (moduleInsts M))))
                  (wrap (Z.of_nat (howMany _ isLoad (moduleInsts M))))
                  (wrap (Z.of_nat (howMany _ isStore (moduleInsts M)))).
Proof.
  split; [apply summarize_closed|].
  rewrite summarize_closed. cbn [zeroModuleStats nFunctions nInstructions nLoads nStores].
  rewrite !bumps_zero. reflexivity.
Qed.

Lemma sameFunction_summarize (ms : list Move) (f f' : Function) (s : ModuleStatistics) :
  sameFunction ms f f' -> summarizeFunction f' s = summarizeFunction f s.
Proof.
  intros [_ [Hl [Hp _]]]. rewrite !summarizeFunction_closed. unfold howMany.
  assert (Hb : hasBody f' = hasBody f).
  { unfold hasBody. destruct (fbody f), (fbody f'); try reflexivity; discriminate. }
  assert (Hf : forall P : Instruction -> bool,
             length (filter P (allInsts (fbody f'))) = length (filter P (allInsts (fbody f)))).
  { intro P. apply Permutation_length, Permutation_sym.
    clear -Hp. induction Hp; simpl; auto.
    - destruct (P x); auto.
    - destruct (P x), (P y); auto. apply perm_swap.
    - eapply perm_trans; eauto. }
  rewrite Hb, !Hf, (Permutation_length Hp). reflexivity.
Qed.

(** X2: the statistics on the module are the same whether they are taken
    before or after the pass. *)
Theorem summarize_after_pass (M M' : Module) (g g' : Global) (s : ModuleStatistics) :
  LoopInvariantCodeMotion M g = Some (M', g') ->
  summarize M' s = summarize M s.
Proof.
  intro H. destruct (LICM_summary _ _ _ _ H) as [_ _ _ _ HF].
  clear H. unfold summarize. revert s.
  induction HF as [|f f' M M' Hf _ IH]; intro s; [reflexivity|].
  cbn [fold_left]. rewrite (sameFunction_summarize _ _ _ s Hf). apply IH.
Qed.

Lemma summarize_after_pass_witness :
  summarize (fst demo_after) zeroModuleStats = summarize demo_module zeroModuleStats /\
  summarize demo_module zeroModuleStats = mkModuleStats 1 8 3 1.
Proof.
  split; [|reflexivity].
  apply (summarize_after_pass demo_module (fst demo_after) startGlobal (snd demo_after)).
  vm_compute. reflexivity.
Defined.

(** ** The statistics on the blocks of the loops *)

Lemma makeLoopInvariant_stats (L : Loop) (i : Instruction) (st st1 : State) (ch : bool) :
  makeLoopInvariant L i st = Some (st1, ch) -> stats st1 = stats st.
Proof.
  unfold makeLoopInvariant.
  destruct (negb (contains L (body st) (ptr i))); [intro H; inversion H; reflexivity|].
  destruct (negb (isSafeToSpeculativelyExecute i)); [intro H; inversion H; reflexivity|].
  destruct (mayReadFromMemory i); [intro H; inversion H; reflexivity|].
  destruct (getLoopPreheader L) as [PH'|]; [|intro H; inversion H; reflexivity].
  destruct (negb (forallb (isLoopInvariant L (body st)) (operands i)));
    [intro H; inversion H; reflexivity|].
  destruct (relocate L i PH' st) as [st2|] eqn:Er; [|discriminate].
  intro H; inversion H; subst. apply (relocate_inv _ _ _ _ _ Er).
Qed.

Lemma visit_block_counters (c : Counter) (L : Loop) (PH : BlockRef) (lcs : bool)
  (p : InstRef) (st st' : State) :
  isBlockCounter c = true ->
  visit L PH lcs p st = Some st' -> read c (stats st') = read c (stats st).
Proof.
  intros Hc. unfold visit.
  destruct (findInst (body st) p) as [i|]; [|intro H; inversion H; reflexivity].
  destruct (NotALoadOrStore i).
  - destruct (AreAllOperandsLoopInvaraint L (body st) i);
      [|intro H; inversion H; reflexivity].
    destruct (makeLoopInvariant L i st) as [[st1 ch]|] eqn:Em; [|discriminate].
    pose proof (makeLoopInvariant_stats _ _ _ _ _ Em) as E.
    destruct ch; intro H; inversion H; subst; [|rewrite E; reflexivity].
    rewrite read_count_other, E by (destruct c; discriminate). reflexivity.
  - destruct (kind i) as [vol addr| | | |]; try (intro H; inversion H; reflexivity).
    destruct (CanMoveOutofLoop (body st) L i addr lcs);
      [|intro H; inversion H; reflexivity].
    unfold hoistInstructionToPreheader.
    destruct (relocate L i PH st) as [st1|] eqn:Er; [|discriminate].
    intro H; inversion H; subst.
    rewrite read_count_other by (destruct c; discriminate).
    rewrite (proj1 (proj2 (relocate_inv _ _ _ _ _ Er))). reflexivity.
Qed.

Lemma drain_block_counters (c : Counter) (L : Loop) (PH : BlockRef) (lcs : bool)
  (w : list InstRef) :
  isBlockCounter c = true ->
  forall st st', drain L PH lcs w st = Some st' -> read c (stats st') = read c (stats st).
Proof.
  intro Hc. induction w as [|p w IH]; intros st st' H; cbn [drain] in H.
  - inversion H; reflexivity.
  - destruct (visit L PH lcs p st) as [st1|] eqn:Ev; [|discriminate].
    rewrite (IH _ _ H). apply (visit_block_counters c _ _ _ _ _ _ Hc Ev).
Qed.

Lemma tally_same (s s' : Statistics) :
  (forall c, isBlockCounter c = true -> read c s' = read c s) -> tally 0 s s'.
Proof.
  intro H. exists O, O, O. repeat split; try (apply H; reflexivity). lia.
Qed.

Lemma tally_trans (n m : nat) (s s1 s2 : Statistics) :
  tally n s s1 -> tally m s1 s2 -> tally (n + m) s s2.
Proof.
  intros [a [b [c [H0 [H1 [H2 [H3 H4]]]]]]] [a' [b' [c' [H0' [H1' [H2' [H3' H4']]]]]]].
  exists (a + a')%nat, (b + b')%nat, (c + c')%nat.
  split; [lia|].
  rewrite H1', H2', H3', H4', H1, H2, H3, H4, <- !bumps_add.
  replace (2 * c + 2 * c')%nat with (2 * (c + c'))%nat by lia. auto.
Qed.

Lemma tally_updateStats (hl hs hc : bool) (s : Statistics) :
  tally 1 s (updateStats hl hs hc s).
Proof.
  unfold updateStats, incr.
  destruct hs, hl, hc; cbn [negb andb];
    [ exists O, O, 1%nat | exists O, O, O | exists 1%nat, O, O | exists 1%nat, O, O
    | exists O, 1%nat, O | exists O, 1%nat, O | exists 1%nat, O, O | exists 1%nat, O, O ];
    (split; [lia|]);
    repeat (rewrite read_write_same || rewrite read_write_other by discriminate);
    repeat split; reflexivity.
Qed.

Lemma tally_count (c : Counter) (st : State) :
  isBlockCounter c = false -> tally 0 (stats st) (stats (count c st)).
Proof.
  intro Hc. apply tally_same. intros d Hd.
  apply read_count_other. intro E; subst. congruence.
Qed.

Lemma sweepBlocks_tally (L : Loop) (PH : BlockRef) (bs : list BlockRef) :
  forall lcs st st', sweepBlocks L PH bs lcs st = Some st' ->
                     tally (length bs) (stats st) (stats st').
Proof.
  induction bs as [|b bs IH]; intros lcs st st' H; cbn [sweepBlocks] in H.
  - inversion H; subst. apply tally_same. reflexivity.
  - unfold sweepBlock in H. cbv zeta in H.
    match type of H with
    | match (match drain ?a ?b ?c ?d ?e with _ => _ end) with _ => _ end = _ =>
        destruct (drain a b c d e) as [st2|] eqn:Ed; [|discriminate]
    end.
    change (length (b :: bs)) with (1 + length bs)%nat.
    eapply tally_trans; [|apply (IH _ _ _ H)].
    change 1%nat with (1 + 0)%nat.
    eapply tally_trans; [apply tally_updateStats|].
    apply tally_same. intros c Hc.
    rewrite (drain_block_counters c _ _ _ _ Hc _ _ Ed). reflexivity.
Qed.

Lemma OptimizeLoops_tally (ls : list Loop) :
  Forall (fun L => forall st st', OptimizeLoop2 L st = Some st' ->
                     tally (sweptBlocks L) (stats st) (stats st')) ls ->
  forall st st', OptimizeLoops ls st = Some st' ->
    tally (list_sum (map sweptBlocks ls)) (stats st) (stats st').
Proof.
  induction 1 as [|L ls HL _ IH]; intros st st' H; cbn [OptimizeLoops] in H.
  - inversion H; subst. apply tally_same. reflexivity.
  - destruct (OptimizeLoop2 L st) as [st1|] eqn:E; [|discriminate].
    cbn [map]. rewrite list_sum_cons.
    eapply tally_trans; [apply (HL _ _ E) | apply (IH _ _ H)].
Qed.

Lemma OptimizeLoop2_tally (L : Loop) :
  forall st st', OptimizeLoop2 L st = Some st' ->
    tally (sweptBlocks L) (stats st) (stats st').
Proof.
  induction L as [ph bs ss IH] using Loop_forest_ind. intros st st'.
  rewrite OptimizeLoop2_eq. cbn [getLoopPreheader getSubLoops].
  destruct ph as [PH|].
  - destruct (OptimizeLoops ss (count NumLoops st)) as [st1|] eqn:E; [|discriminate].
    intro H. unfold rewriteLoop in H. cbn [getBlocks] in H.
    cbn [sweptBlocks]. rewrite Nat.add_comm.
    eapply tally_trans; [|apply (sweepBlocks_tally _ _ _ _ _ _ H)].
    change (list_sum (map sweptBlocks ss)) with (0 + list_sum (map sweptBlocks ss))%nat.
    eapply tally_trans; [apply (tally_count NumLoops st); reflexivity|].
    apply (OptimizeLoops_tally _ IH _ _ E).
  - intro H; inversion H; subst. cbn [sweptBlocks].
    change O with (0 + 0)%nat.
    eapply tally_trans; [apply (tally_count NumLoops st); reflexivity|].
    apply (tally_count LICMNoPreheader); reflexivity.
Qed.

Lemma RunLICMBasic_tally (M : Module) :
  forall g M' g', RunLICMBasic M g = Some (M', g') ->
    tally (visitedIn sweptBlocks M) (gstats g) (gstats g').
Proof.
  unfold visitedIn. induction M as [|f M IH]; intros g M' g' H;
    cbn [RunLICMBasic] in H.
  - inversion H; subst. apply tally_same. reflexivity.
  - destruct (runOnFunction f g) as [[f1 g1]|] eqn:Ef; [|discriminate].
    destruct (RunLICMBasic M g1) as [[M1 g2]|] eqn:EM; [|discriminate].
    inversion H; subst. cbn [map]. rewrite list_sum_cons.
    eapply tally_trans; [|apply (IH _ _ _ EM)].
    unfold runOnFunction in Ef.
    destruct (fbody f) as [|B F]; [inversion Ef; subst; apply tally_same; reflexivity|].
    destruct (OptimizeLoops (floops f) (mkState (B :: F) (gstats g) (ghist g)))
      as [st|] eqn:Eo; [|discriminate].
    inversion Ef; subst. cbn [gstats].
    apply (OptimizeLoops_tally (floops f)
             (proj2 (Forall_forall _ _) (fun L _ => OptimizeLoop2_tally L)) _ _ Eo).
Qed.

Lemma LICM_tally (M M' : Module) (g g' : Global) :
  LoopInvariantCodeMotion M g = Some (M', g') ->
  tally (visitedIn sweptBlocks M) (gstats g) (gstats g').
Proof.
  unfold LoopInvariantCodeMotion. intro H.
  change (visitedIn sweptBlocks M) with (0 + visitedIn sweptBlocks M)%nat.
  eapply tally_trans; [|apply (RunLICMBasic_tally _ _ _ _ H)].
  cbn [gstats]. apply tally_same. intros c Hc. unfold decr, incr.
  rewrite !read_write_other by (destruct c; discriminate). reflexivity.
Qed.

(** X3: the pass never changes the counter [NumLoopsNoStore]: the branch of
    [updateStats] that increments it is only reached with a load and a store
    in the block, where its test fails. *)
Theorem no_store_counter_never_moves (M M' : Module) (g g' : Global) :
  LoopInvariantCodeMotion M g = Some (M', g') ->
  read NumLoopsNoStore (gstats g') = read NumLoopsNoStore (gstats g).
Proof.
  intro H. destruct (LICM_tally _ _ _ _ H) as [a [b [c [_ [_ [_ [_ E]]]]]]]. exact E.
Qed.

Lemma no_store_counter_never_moves_witness :
  read NumLoopsNoStore (gstats (snd demo_after)) = read NumLoopsNoStore (gstats startGlobal).
Proof.
  apply (no_store_counter_never_moves demo_module (fst demo_after)).
  vm_compute. reflexivity.
Defined.

Lemma updateStats_counts (hl hs hc : bool) (s : Statistics) :
  read NumLoopsNoLoad (updateStats hl hs hc s)
  = bumps (if negb hl then 1 else 0) (read NumLoopsNoLoad s) /\
  read NumLoopsNoStoreWithLoad (updateStats hl hs hc s)
  = bumps (if hl && negb hs then 1 else 0) (read NumLoopsNoStoreWithLoad s) /\
  read NumLoopsWithCall (updateStats hl hs hc s)
  = bumps (2 * (if hl && hs && hc then 1 else 0)) (read NumLoopsWithCall s) /\
  read NumLoopsNoStore (updateStats hl hs hc s) = read NumLoopsNoStore s.
Proof.
  unfold updateStats, incr.
  destruct hs, hl, hc; cbn [negb andb Nat.mul Nat.add bumps];
    repeat (rewrite read_write_same || rewrite read_write_other by discriminate);
    rewrite ?wrap_succ; repeat split; reflexivity.
Qed.

Lemma howMany_cons (A : Type) (P : A -> bool) (a : A) (l : list A) :
  howMany A P (a :: l) = ((if P a then 1 else 0) + howMany A P l)%nat.
Proof. unfold howMany. cbn [filter]. destruct (P a); reflexivity. Qed.

(** When the sweep reaches a block, the block is as it was when the sweep
    started: the scan of each block sees the instructions the block had
    then. *)
Lemma sweepBlocks_block_counters (L : Loop) (PH : BlockRef) (t : Instruction)
  (st0 : State) :
  getLoopPreheader L = Some PH -> ~ In PH (getBlocks L) -> NoDup (getBlocks L) ->
  wf (body st0) -> getTerminator (body st0) PH = Some t ->
  forall bs D mv st lcs st',
    incl bs (getBlocks L) ->
    prog L PH t st0 D (flat_map (fun b => fillWorklist (blockInsts (body st0) b)) bs) mv st ->
    sweepBlocks L PH bs lcs st = Some st' ->
    read NumLoopsNoLoad (stats st')
    = bumps (howMany _ (countsNoLoad (body st0)) bs) (read NumLoopsNoLoad (stats st)) /\
    read NumLoopsNoStoreWithLoad (stats st')
    = bumps (howMany _ (countsNoStoreWithLoad (body st0)) bs)
            (read NumLoopsNoStoreWithLoad (stats st)) /\
    read NumLoopsWithCall (stats st')
    = bumps (2 * howMany _ (countsWithCall (body st0)) bs)
            (read NumLoopsWithCall (stats st)) /\
    read NumLoopsNoStore (stats st') = read NumLoopsNoStore (stats st).
Proof.
  intros HPH Hout Hnd Hwf0 Hterm.
  induction bs as [|b bs IH]; intros D mv st lcs st' Hin Hp H; cbn [sweepBlocks] in H.
  - inversion H; subst. repeat split; reflexivity.
  - cbn [flat_map] in Hp.
    pose proof (Hin b (or_introl eq_refl)) as Hb.
    destruct (prog_sweepBlock L PH t st0 HPH Hout Hnd Hwf0 Hterm _ _ _ _ b lcs Hb Hp)
      as [st1 [mv1 [lcs1 [Hs H1]]]].
    rewrite Hs in H.
    destruct (IH _ _ _ _ _ (fun x Hx => Hin x (or_intror Hx)) H1 H)
      as [E1 [E2 [E3 E4]]].
    unfold sweepBlock in Hs. cbv zeta in Hs.
    rewrite (prog_block_untouched L PH t st0 Hout Hnd Hwf0 _ _ _ _ b Hb Hp) in Hs.
    match type of Hs with
    | match drain ?a ?b ?c ?d ?e with _ => _ end = _ =>
        destruct (drain a b c d e) as [st2|] eqn:Ed; [|discriminate]
    end.
    injection Hs as Hs _. subst st2.
    assert (Hd : forall c, isBlockCounter c = true ->
                   read c (stats st1)
                   = read c (updateStats (existsb isLoad (blockInsts (body st0) b))
                                         (existsb isStore (blockInsts (body st0) b))
                                         (existsb isCall (blockInsts (body st0) b))
                                         (stats st)))
      by (intros c Hc; apply (drain_block_counters c _ _ _ _ Hc _ _ Ed)).
    destruct (updateStats_counts (existsb isLoad (blockInsts (body st0) b))
                (existsb isStore (blockInsts (body st0) b))
                (existsb isCall (blockInsts (body st0) b)) (stats st))
      as [U1 [U2 [U3 U4]]].
    rewrite !howMany_cons, Nat.mul_add_distr_l, !bumps_add.
    rewrite E1, E2, E3, E4, !Hd by reflexivity.
    unfold countsNoLoad, countsNoStoreWithLoad, countsWithCall, blockHas.
    rewrite U1, U2, U3, U4. repeat split; reflexivity.
Qed.

(** X4: the three other counters of [updateStats] count blocks, not loops.
    The sweep of a loop whose blocks are distinct and whose preheader lies
    outside the loop and ends in a terminator goes through, and advances
    [NumLoopsNoLoad] by the number of blocks of the loop that held no load
    when the sweep started, [NumLoopsNoStoreWithLoad] by the number of those
    that held a load and no store, and [NumLoopsWithCall] by twice the number
    of those that held a load, a store and a call: what the sweep hoists out
    of one block does not change what it finds in the next. *)
Theorem block_counters_exact (L : Loop) (PH : BlockRef) (t : Instruction) (st : State) :
  getLoopPreheader L = Some PH -> ~ In PH (getBlocks L) -> NoDup (getBlocks L) ->
  wf (body st) -> getTerminator (body st) PH = Some t ->
  exists st',
    rewriteLoop L PH st = Some st' /\
    read NumLoopsNoLoad (stats st')
    = bumps (howMany _ (countsNoLoad (body st)) (getBlocks L))
            (read NumLoopsNoLoad (stats st)) /\
    read NumLoopsNoStoreWithLoad (stats st')
    = bumps (howMany _ (countsNoStoreWithLoad (body st)) (getBlocks L))
            (read NumLoopsNoStoreWithLoad (stats st)) /\
    read NumLoopsWithCall (stats st')
    = bumps (2 * howMany _ (countsWithCall (body st)) (getBlocks L))
            (read NumLoopsWithCall (stats st)) /\
    read NumLoopsNoStore (stats st') = read NumLoopsNoStore (stats st).
Proof.
  intros HPH Hout Hnd Hwf Hterm.
  destruct (rewriteLoop_prog L PH t st HPH Hout Hnd Hwf Hterm) as [st' [mv [Hr _]]].
  exists st'. split; [exact Hr|].
  apply (sweepBlocks_block_counters L PH t st HPH Hout Hnd Hwf Hterm
           (getBlocks L) [] [] st false st' (incl_refl _)
           (prog_start L PH t st Hwf Hterm) Hr).
Qed.

Lemma block_counters_exact_witness :
  exists st',
    rewriteLoop blocks_loop 0%N (mkState blocks_body zeroStats []) = Some st' /\
    read NumLoopsNoLoad (stats st') = bumps 1 0 /\
    read NumLoopsNoStoreWithLoad (stats st') = bumps 1 0 /\
    read NumLoopsWithCall (stats st') = bumps 2 0 /\
    read NumLoopsNoStore (stats st') = 0.
Proof.
  apply (block_counters_exact blocks_loop 0%N (mkInst 1%N (Generic OpBr [BlockLabel 1%N]))
           (mkState blocks_body zeroStats [])).
  - reflexivity.
  - simpl. intuition discriminate.
  - repeat constructor; simpl; intuition discriminate.
  - split; vm_compute; repeat constructor; simpl; intuition discriminate.
  - reflexivity.
Defined.

(** ** Terminators stay where they are *)

Lemma unlink_keeps_last (p : InstRef) (t i : Instruction) (front : list Instruction) :
  find (hasPtr p) (front ++ [t]) = Some i ->
  isTerminator i = false -> isTerminator t = true ->
  exists front', unlink p (front ++ [t]) = front' ++ [t].
Proof.
  intros Hf Hi Ht. induction front as [|j front IH].
  - cbn [app find] in Hf. destruct (hasPtr p t); [|discriminate].
    inversion Hf; subst. congruence.
  - cbn [app find unlink] in *. destruct (hasPtr p j).
    + exists front. reflexivity.
    + destruct (IH Hf) as [front' E]. exists (j :: front'). rewrite E. reflexivity.
Qed.

Lemma lastTerminator_unlink (p : InstRef) (l : list Instruction) (t i : Instruction) :
  lastTerminator l = Some t -> find (hasPtr p) l = Some i -> isTerminator i = false ->
  lastTerminator (unlink p l) = Some t.
Proof.
  intros Hl Hf Hi. pose proof (lastTerminator_is _ _ Hl) as Ht.
  destruct (lastTerminator_snoc _ _ Hl) as [front E]. subst l.
  destruct (unlink_keeps_last _ _ _ _ Hf Hi Ht) as [front' E]. rewrite E.
  apply lastTerminator_app, Ht.
Qed.

Lemma lastTerminator_insertBeforeLast (x : Instruction) (l : list Instruction)
  (t : Instruction) :
  lastTerminator l = Some t -> lastTerminator (insertBeforeLast x l) = Some t.
Proof.
  intro Hl. pose proof (lastTerminator_is _ _ Hl) as Ht.
  destruct (lastTerminator_snoc _ _ Hl) as [front E]. subst l.
  rewrite insertBeforeLast_snoc.
  change (front ++ [x; t]) with (front ++ [x] ++ [t]). rewrite app_assoc.
  apply lastTerminator_app, Ht.
Qed.

(** What unlinking the instruction at [p] does to the block [b]: nothing, or
    it unlinks there the instruction [findInst] gives. *)
Lemma blockInsts_removeInst (p : InstRef) (F : list BasicBlock) (b : BlockRef) :
  blockInsts (removeInst p F) b = blockInsts F b \/
  (blockInsts (removeInst p F) b = unlink p (blockInsts F b) /\
   find (hasPtr p) (blockInsts F b) = findInst F p /\ findInst F p <> None).
Proof.
  unfold blockInsts. induction F as [|B F IH]; [left; reflexivity|].
  cbn [removeInst findInst]. rewrite find_existsb_hasPtr.
  destruct (find (hasPtr p) (insts B)) as [k|] eqn:E.
  - cbn [findBlock label insts]. destruct (N.eqb (label B) b).
    + right. split; [reflexivity|]. split; [exact E | discriminate].
    + left. reflexivity.
  - cbn [findBlock]. destruct (N.eqb (label B) b); [left; reflexivity | exact IH].
Qed.

Lemma getTerminator_removeInst (F : list BasicBlock) (i : Instruction) (b : BlockRef)
  (t : Instruction) :
  findInst F (ptr i) = Some i -> isTerminator i = false ->
  getTerminator F b = Some t -> getTerminator (removeInst (ptr i) F) b = Some t.
Proof.
  intros Hf Hi. rewrite !getTerminator_blockInsts. intro Ht.
  destruct (blockInsts_removeInst (ptr i) F b) as [E | [E [Hfind _]]]; rewrite E;
    [exact Ht|].
  rewrite Hf in Hfind. apply (lastTerminator_unlink _ _ _ _ Ht Hfind Hi).
Qed.

Lemma getTerminator_insertBeforeTerminator (x : Instruction) (PH : BlockRef)
  (F : list BasicBlock) (b : BlockRef) (t : Instruction) :
  getTerminator F b = Some t -> getTerminator (insertBeforeTerminator x PH F) b = Some t.
Proof.
  intro Ht. pose proof (getTerminator_findBlock _ _ _ Ht) as Hb.
  rewrite getTerminator_blockInsts in *.
  destruct (N.eq_dec b PH) as [E|E].
  - subst. rewrite (blockInsts_insertBeforeTerminator _ _ _ Hb).
    apply lastTerminator_insertBeforeLast, Ht.
  - rewrite (blockInsts_insertBeforeTerminator_other _ _ _ _ E). exact Ht.
Qed.

Lemma moveBeforeTerminator_keeps (i : Instruction) (PH : BlockRef) (F F' : list BasicBlock) :
  findInst F (ptr i) = Some i -> isTerminator i = false ->
  moveBeforeTerminator i PH F = Some F' -> keepsTerminators F F'.
Proof.
  intros Hf Hi. unfold moveBeforeTerminator.
  destruct (getTerminator F PH); [|discriminate].
  intro H; inversion H; subst. intros b t Ht.
  apply getTerminator_insertBeforeTerminator, getTerminator_removeInst; assumption.
Qed.

Lemma step_keeps (st st' : State) : step st st' -> keepsTerminators (body st) (body st').
Proof.
  intros [c s Hb Hl | L PH i s s' HPH Hi Hn Ho Hc Hs Hm Hr
                    | L PH i vol addr lcs s s' HPH Hi Hk Hcm Hr].
  - intros b t H. exact H.
  - cbn [count body]. destruct (relocate_inv _ _ _ _ _ Hr) as [_ [_ Hmv]].
    apply (moveBeforeTerminator_keeps _ _ _ _ Hi (speculatable_not_terminator _ Hs) Hmv).
  - cbn [count body]. destruct (relocate_inv _ _ _ _ _ Hr) as [_ [_ Hmv]].
    apply (moveBeforeTerminator_keeps i PH _ _ Hi); [|exact Hmv].
    unfold isTerminator. rewrite Hk. reflexivity.
Qed.

Lemma run_keeps (st st' : State) : run st st' -> keepsTerminators (body st) (body st').
Proof.
  induction 1 as [st|st1 st2 st3 Hs _ IH]; intros b t H; [exact H|].
  apply IH, (step_keeps _ _ Hs), H.
Qed.

Lemma keeps_terminated (F F' : list BasicBlock) (b : BlockRef) :
  keepsTerminators F F' -> getTerminator F b <> None -> getTerminator F' b <> None.
Proof.
  intros Hk Hb. destruct (getTerminator F b) as [t|] eqn:E; [|congruence].
  rewrite (Hk _ _ E). discriminate.
Qed.

(** ** The control-flow graph *)

Lemma successors_kept (F F' : list BasicBlock) :
  map label F' = map label F -> keepsTerminators F F' -> terminated F ->
  forall b, successors F' b = successors F b.
Proof.
  intros Hl Hk Ht b. unfold successors.
  destruct (findBlock F b) as [B|] eqn:E.
  - destruct (findBlock_In _ _ _ E) as [HB Hb]. subst b.
    destruct (getTerminator F (label B)) as [t|] eqn:Et; [|exfalso; apply (Ht B HB Et)].
    rewrite (Hk _ _ Et). reflexivity.
  - assert (E' : findBlock F' b = None)
      by (eapply findBlock_labels; [symmetry; exact Hl | exact E]).
    unfold getTerminator. rewrite E, E'. reflexivity.
Qed.

Lemma getExitBlocks_ext (L : Loop) (F F' : list BasicBlock) :
  (forall b, successors F' b = successors F b) -> getExitBlocks L F' = getExitBlocks L F.
Proof.
  intro H. unfold getExitBlocks. apply flat_map_ext. intro b. rewrite H. reflexivity.
Qed.

Lemma iter_ext (A : Type) (f g : A -> A) (n : nat) (x : A) :
  (forall y, f y = g y) -> Nat.iter n f x = Nat.iter n g x.
Proof.
  intro H. induction n as [|n IH]; [reflexivity|]. rewrite !Nat.iter_succ, IH. apply H.
Qed.

Lemma reached_ext (F F' : list BasicBlock) (avoid : option BlockRef) :
  map label F' = map label F -> (forall b, successors F' b = successors F b) ->
  reached F' avoid = reached F avoid.
Proof.
  intros Hl Hs. unfold reached.
  assert (He : entryBlock F' = entryBlock F).
  { destruct F, F'; try discriminate; [reflexivity|]. inversion Hl. cbn. congruence. }
  assert (Hn : length F' = length F) by (rewrite <- (length_map label F'), Hl; apply length_map).
  rewrite He, Hn. destruct (entryBlock F) as [e|]; [|reflexivity].
  destruct (allowed avoid e); [|reflexivity].
  apply iter_ext. intro seen. unfold grow. do 3 f_equal. apply flat_map_ext, Hs.
Qed.

Lemma dominates_ext (F F' : list BasicBlock) (A : option BlockRef) (B : BlockRef) :
  map label F' = map label F -> (forall b, successors F' b = successors F b) ->
  dominates F' A B = dominates F A B.
Proof.
  intros Hl Hs. unfold dominates, isReachableFromEntry.
  rewrite (reached_ext _ _ None Hl Hs).
  destruct A as [a|]; [|reflexivity].
  rewrite (reached_ext _ _ (Some a) Hl Hs). reflexivity.
Qed.

Lemma mrun_keeps (M M' : Module) (g g' : Global) :
  mrun M g M' g' ->
  Forall2 (fun f f' => map label (fbody f') = map label (fbody f) /\
                       keepsTerminators (fbody f) (fbody f')) M M'.
Proof.
  induction 1 as [g|f f' M M' g g1 g' Hl Hr _ IH]; constructor; [|exact IH].
  split.
  - destruct (run_summary _ _ Hr) as [ms Hs]. apply (sum_labels _ _ _ Hs).
  - apply (run_keeps _ _ Hr).
Qed.

(** X6: the pass leaves the control-flow graph alone.  A block that ends in a
    terminator ends in the same terminator afterwards; in a function whose
    blocks all end in a terminator every block keeps its successors, every
    loop its exit blocks, and the dominance relation between blocks is the
    same. *)
Theorem control_flow_unchanged (M M' : Module) (g g' : Global) :
  LoopInvariantCodeMotion M g = Some (M', g') ->
  Forall2 (fun f f' =>
             keepsTerminators (fbody f) (fbody f') /\
             (terminated (fbody f) ->
              (forall b, successors (fbody f') b = successors (fbody f) b) /\
              (forall L, getExitBlocks L (fbody f') = getExitBlocks L (fbody f)) /\
              (forall A B, dominates (fbody f') A B = dominates (fbody f) A B)))
          M M'.
Proof.
  unfold LoopInvariantCodeMotion. intro H.
  eapply Forall2_impl; [|apply (mrun_keeps _ _ _ _ (RunLICMBasic_mrun _ _ _ _ H))].
  intros f f' [Hl Hk]. split; [exact Hk|]. intro Ht.
  pose proof (successors_kept _ _ Hl Hk Ht) as Hs.
  split; [exact Hs|]. split.
  - intro L. apply getExitBlocks_ext, Hs.
  - intros A B. apply dominates_ext; assumption.
Qed.

Lemma control_flow_unchanged_witness :
  Forall2 (fun f f' =>
             keepsTerminators (fbody f) (fbody f') /\
             (terminated (fbody f) ->
              (forall b, successors (fbody f') b = successors (fbody f) b) /\
              (forall L, getExitBlocks L (fbody f') = getExitBlocks L (fbody f)) /\
              (forall A B, dominates (fbody f') A B = dominates (fbody f) A B)))
          demo_module (fst demo_after).
Proof.
  apply (control_flow_unchanged demo_module (fst demo_after) startGlobal (snd demo_after)).
  vm_compute. reflexivity.
Defined.

(** ** The dominance test the pass does not call *)

Lemma existsb_filter_same (A : Type) (f : A -> bool) (l : list A) :
  existsb f (filter f l) = existsb f l.
Proof.
  induction l as [|a l IH]; [reflexivity|]. cbn [filter existsb].
  destruct (f a) eqn:E; cbn [existsb orb]; rewrite ?E; cbn [orb]; auto.
Qed.

Lemma getParent_view (p : InstRef) (F : list BasicBlock) :
  getParent (view (hasPtr p) F) p = getParent F p.
Proof.
  induction F as [|B F IH]; [reflexivity|].
  cbn [view map getParent insts label]. rewrite existsb_filter_same.
  destruct (existsb (hasPtr p) (insts B)); [reflexivity | exact IH].
Qed.

Lemma Forall2_conj (A B : Type) (P Q : A -> B -> Prop) (l : list A) (l' : list B) :
  Forall2 P l l' -> Forall2 Q l l' -> Forall2 (fun a b => P a b /\ Q a b) l l'.
Proof.
  intro H. induction H as [|a b l l' Hab _ IH]; intro HQ; inversion HQ; subst;
    constructor; auto.
Qed.

(** X13: the pass does not change what [dominatesLoopExit] answers for a
    value it has not relocated.  In a function whose blocks all end in a
    terminator the exit blocks of every loop, the dominance between blocks
    and the block of every instruction that was not relocated are the same
    after the pass as before, and so is whether the call is lost. *)
Theorem dominatesLoopExit_stable (M M' : Module) (g g' : Global) :
  LoopInvariantCodeMotion M g = Some (M', g') ->
  Forall2 (fun f f' =>
             terminated (fbody f) ->
             forall L V,
               (forall m, In m (relocations g g') -> V <> InstResult (ptr (mv_inst m))) ->
               dominatesLoopExit (fbody f') L V = dominatesLoopExit (fbody f) L V)
          M M'.
Proof.
  intro H. destruct (LICM_summary _ _ _ _ H) as [_ _ _ _ HF].
  unfold LoopInvariantCodeMotion in H.
  pose proof (mrun_keeps _ _ _ _ (RunLICMBasic_mrun _ _ _ _ H)) as HK.
  eapply Forall2_impl; [|apply (Forall2_conj _ _ _ _ _ _ HF HK)].
  intros f f' [[_ [_ [_ Hv]]] [Hl Hk]] Ht L V HV.
  pose proof (successors_kept _ _ Hl Hk Ht) as Hs.
  unfold dominatesLoopExit. cbv zeta. rewrite (getExitBlocks_ext L _ _ Hs).
  destruct (getExitBlocks L (fbody f)) as [|e es]; [reflexivity|].
  destruct V as [c|n|x|b|x|i]; try reflexivity.
  assert (Hp : getParent (fbody f') i = getParent (fbody f) i).
  { rewrite <- (getParent_view i (fbody f')), <- (getParent_view i (fbody f)).
    rewrite (Hv (hasPtr i)); [reflexivity|].
    intros m Hm. unfold hasPtr. apply N.eqb_neq. intro E.
    apply (HV m Hm). rewrite E. reflexivity. }
  rewrite Hp. f_equal. apply forallb_ext_all. intro bb.
  apply (dominates_ext _ _ _ _ Hl Hs).
Qed.

Lemma dominatesLoopExit_stable_witness :
  Forall2 (fun f f' =>
             terminated (fbody f) ->
             forall L V,
               (forall m, In m (relocations startGlobal (snd twice_after)) ->
                          V <> InstResult (ptr (mv_inst m))) ->
               dominatesLoopExit (fbody f') L V = dominatesLoopExit (fbody f) L V)
          twice_module (fst twice_after) /\
  terminated twice_body /\
  dominatesLoopExit twice_body twice_inner (InstResult 2%N) = Some true /\
  dominatesLoopExit twice_body twice_inner (InstResult 11%N) = Some false /\
  map (fun m => ptr (mv_inst m)) (relocations startGlobal (snd twice_after))
  = [10%N; 10%N] /\
  dominatesLoopExit twice_body twice_inner (InstResult 10%N) = Some false /\
  Forall (fun f' => dominatesLoopExit (fbody f') twice_inner (InstResult 10%N) = Some true)
         (fst twice_after).
Proof.
  split.
  - apply (dominatesLoopExit_stable twice_module (fst twice_after)).
    vm_compute. reflexivity.
  - split.
    + intros B HB. simpl in HB.
      repeat (destruct HB as [HB|HB]; [subst B; vm_compute; discriminate|]).
      destruct HB.
    + repeat split; try reflexivity. repeat constructor.
Defined.

(** ** The pass returns *)

Lemma relocate_returns (L : Loop) (i : Instruction) (PH : BlockRef) (st : State) :
  getTerminator (body st) PH <> None -> exists st', relocate L i PH st = Some st'.
Proof.
  intro H. unfold relocate, moveBeforeTerminator.
  destruct (getTerminator (body st) PH); [|congruence]. eexists. reflexivity.
Qed.

Lemma visit_returns (L : Loop) (PH : BlockRef) (lcs : bool) (p : InstRef) (st : State) :
  getLoopPreheader L = Some PH -> getTerminator (body st) PH <> None ->
  exists st', visit L PH lcs p st = Some st'.
Proof.
  intros HPH Ht. unfold visit.
  destruct (findInst (body st) p) as [i|]; [|eexists; reflexivity].
  destruct (relocate_returns L i PH st Ht) as [st1 Er].
  destruct (NotALoadOrStore i).
  - destruct (AreAllOperandsLoopInvaraint L (body st) i); [|eexists; reflexivity].
    unfold makeLoopInvariant. rewrite HPH, Er.
    destruct (negb (contains L (body st) (ptr i))); [eexists; reflexivity|].
    destruct (negb (isSafeToSpeculativelyExecute i)); [eexists; reflexivity|].
    destruct (mayReadFromMemory i); [eexists; reflexivity|].
    destruct (negb (forallb (isLoopInvariant L (body st)) (operands i)));
      eexists; reflexivity.
  - destruct (kind i) as [vol addr| | | |]; try (eexists; reflexivity).
    destruct (CanMoveOutofLoop (body st) L i addr lcs); [|eexists; reflexivity].
    unfold hoistInstructionToPreheader. rewrite Er. eexists. reflexivity.
Qed.

Lemma drain_returns (L : Loop) (PH : BlockRef) (lcs : bool) (w : list InstRef) :
  getLoopPreheader L = Some PH ->
  forall st, getTerminator (body st) PH <> None ->
  exists st', drain L PH lcs w st = Some st'.
Proof.
  intro HPH. induction w as [|p w IH]; intros st Ht; cbn [drain].
  - eexists. reflexivity.
  - destruct (visit_returns L PH lcs p st HPH Ht) as [st1 Ev]. rewrite Ev.
    apply IH. apply (keeps_terminated (body st)); [|exact Ht].
    apply run_keeps, (visit_run _ _ _ _ _ _ HPH Ev).
Qed.

Lemma sweepBlocks_returns (L : Loop) (PH : BlockRef) (bs : list BlockRef) :
  getLoopPreheader L = Some PH ->
  forall lcs st, getTerminator (body st) PH <> None ->
  exists st', sweepBlocks L PH bs lcs st = Some st'.
Proof.
  intro HPH. induction bs as [|b bs IH]; intros lcs st Ht; cbn [sweepBlocks].
  - eexists. reflexivity.
  - destruct (sweepBlock L PH b lcs st) as [[st1 l1]|] eqn:Es.
    + apply IH. apply (keeps_terminated (body st)); [|exact Ht].
      apply run_keeps, (sweepBlock_run _ _ _ _ _ _ _ HPH Es).
    + exfalso. unfold sweepBlock in Es. cbv zeta in Es.
      match type of Es with
      | match drain ?a ?b ?c ?d ?e with _ => _ end = _ =>
          destruct (drain_returns a b c d HPH e Ht) as [st2 Ed]; rewrite Ed in Es
      end.
      discriminate.
Qed.

Lemma OptimizeLoops_returns (ls : list Loop) :
  Forall (fun L => forall st,
            (forall b, In b (preheaders L) -> getTerminator (body st) b <> None) ->
            exists st', OptimizeLoop2 L st = Some st') ls ->
  forall st,
    (forall b, In b (flat_map preheaders ls) -> getTerminator (body st) b <> None) ->
    exists st', OptimizeLoops ls st = Some st'.
Proof.
  induction 1 as [|L ls HL _ IH]; intros st Ht; cbn [OptimizeLoops].
  - eexists. reflexivity.
  - cbn [flat_map] in Ht.
    destruct (HL st) as [st1 E]; [intros b Hb; apply Ht, in_or_app; auto|].
    rewrite E. apply IH. intros b Hb.
    apply (keeps_terminated (body st)); [|apply Ht, in_or_app; auto].
    apply run_keeps, (OptimizeLoop2_run _ _ _ E).
Qed.

Lemma OptimizeLoop2_returns (L : Loop) :
  forall st,
    (forall b, In b (preheaders L) -> getTerminator (body st) b <> None) ->
    exists st', OptimizeLoop2 L st = Some st'.
Proof.
  induction L as [ph bs ss IH] using Loop_forest_ind. intros st Ht.
  rewrite OptimizeLoop2_eq. cbn [getLoopPreheader getSubLoops].
  destruct ph as [PH|]; [|eexists; reflexivity].
  cbn [preheaders] in Ht.
  destruct (OptimizeLoops_returns ss IH (count NumLoops st)) as [st1 E].
  { intros b Hb. cbn [count body]. apply Ht, in_or_app. auto. }
  rewrite E. unfold rewriteLoop. apply sweepBlocks_returns; [reflexivity|].
  apply (keeps_terminated (body st)); [|apply Ht, in_or_app; left; left; reflexivity].
  apply (run_keeps (count NumLoops st)), (OptimizeLoops_run _ _ _ E).
Qed.

Lemma RunLICMBasic_returns (M : Module) :
  (forall f b, In f M -> hasBody f = true -> In b (flat_map preheaders (floops f)) ->
               getTerminator (fbody f) b <> None) ->
  forall g, exists M' g', RunLICMBasic M g = Some (M', g').
Proof.
  induction M as [|f M IH]; intros Ht g; cbn [RunLICMBasic].
  - eexists. eexists. reflexivity.
  - assert (Hf : exists f1 g1, runOnFunction f g = Some (f1, g1)).
    { unfold runOnFunction. destruct (fbody f) as [|B F] eqn:EF.
      - eexists. eexists. reflexivity.
      - destruct (OptimizeLoops_returns (floops f)
                    (proj2 (Forall_forall _ _) (fun L _ => OptimizeLoop2_returns L))
                    (mkState (B :: F) (gstats g) (ghist g))) as [st E].
        + intros b Hb. cbn [body]. rewrite <- EF.
          apply (Ht f b); [left; reflexivity | unfold hasBody; rewrite EF; reflexivity
                          | exact Hb].
        + rewrite E. eexists. eexists. reflexivity. }
    destruct Hf as [f1 [g1 Ef]]. rewrite Ef.
    destruct (IH (fun f0 b H0 => Ht f0 b (or_intror H0)) g1) as [M1 [g2 EM]].
    rewrite EM. eexists. eexists. reflexivity.
Qed.

(** X7: the pass returns whenever, in every function that has a body, the
    preheader of every loop ends in a terminator: the only call that can fail
    is the move in front of the terminator of a preheader, and no move takes
    a terminator away. *)
Theorem pass_returns (M : Module) (g : Global) :
  (forall f b, In f M -> hasBody f = true -> In b (flat_map preheaders (floops f)) ->
               getTerminator (fbody f) b <> None) ->
  exists M' g', LoopInvariantCodeMotion M g = Some (M', g').
Proof.
  intro Ht. unfold LoopInvariantCodeMotion. apply RunLICMBasic_returns, Ht.
Qed.

Lemma pass_returns_witness :
  exists M' g', LoopInvariantCodeMotion twice_module startGlobal = Some (M', g').
Proof.
  apply (pass_returns twice_module startGlobal).
  intros f b [Hf|[]] _ Hb; subst f; cbn in Hb; destruct Hb as [Hb|[Hb|[]]]; subst b;
    vm_compute; discriminate.
Defined.

(** ** Instructions the pass leaves in place *)

Lemma movable_not_pinned (i : Instruction) : movable i = true -> pinned i = false.
Proof.
  unfold movable, pinned, isTerminator, isPHI, isSafeToSpeculativelyExecute,
    mayReadFromMemory.
  destruct (kind i) as [vol addr| | |sp rd wr args callee|op ops]; try discriminate;
    try reflexivity.
  - destruct sp, rd; try discriminate; reflexivity.
  - destruct op; try discriminate; try reflexivity.
Qed.

(** X8: the pass never moves a store, a terminator, a phi, an alloca, or a
    call that is not speculatable or that reads memory: every block holds
    the same such instructions, in the same order, after the pass as before,
    and no relocation of the run concerns one. *)
Theorem pinned_never_relocated (M M' : Module) (g g' : Global) :
  LoopInvariantCodeMotion M g = Some (M', g') ->
  Forall2 (fun f f' => forall b,
             filter pinned (blockInsts (fbody f') b)
             = filter pinned (blockInsts (fbody f) b)) M M' /\
  Forall (fun m => pinned (mv_inst m) = false) (relocations g g').
Proof.
  apply LICM_frame. exact movable_not_pinned.
Qed.

Lemma pinned_never_relocated_witness :
  Forall2 (fun f f' => forall b,
             filter pinned (blockInsts (fbody f') b)
             = filter pinned (blockInsts (fbody f) b))
          demo_module (fst demo_after) /\
  Forall (fun m => pinned (mv_inst m) = false)
         (relocations startGlobal (snd demo_after)).
Proof.
  apply (pinned_never_relocated demo_module (fst demo_after)).
  vm_compute. reflexivity.
Defined.

(** ** Where a hoisted instruction lands *)

Lemma filter_notAt_snoc (F : list BasicBlock) (i t : Instruction) (b : BlockRef)
  (front : list Instruction) :
  wf F -> findInst F (ptr i) = Some i -> isTerminator i = false ->
  blockInsts F b = front ++ [t] -> isTerminator t = true ->
  filter (notAt (ptr i)) (blockInsts F b) = filter (notAt (ptr i)) front ++ [t].
Proof.
  intros Hwf Hf Hi E Ht. rewrite E, filter_app. f_equal. cbn [filter].
  unfold notAt, hasPtr. destruct (N.eqb (ptr t) (ptr i)) eqn:Ep; [|reflexivity].
  apply N.eqb_eq in Ep. exfalso.
  assert (Hin : In t (blockInsts F b)) by (rewrite E; apply in_or_app; right; left; reflexivity).
  pose proof (findInst_blockInsts _ _ _ Hwf Hin) as H1. rewrite Ep, Hf in H1.
  inversion H1; subst. congruence.
Qed.

(** X9: [hoistInstructionToPreheader], called in a function with distinct
    blocks and instruction objects on an instruction of the function that is
    no terminator, succeeds exactly when the preheader ends in a terminator.
    It then puts the instruction immediately in front of that terminator and
    takes it away from where it was, changes nothing else, and leaves the
    counters alone; if the preheader is outside the loop, the instruction is
    loop-invariant afterwards. *)
Theorem hoist_lands_before_terminator (L : Loop) (i : Instruction) (PH : BlockRef)
  (st : State) :
  wf (body st) -> findInst (body st) (ptr i) = Some i -> isTerminator i = false ->
  (hoistInstructionToPreheader L i PH st = None <-> getTerminator (body st) PH = None) /\
  forall st', hoistInstructionToPreheader L i PH st = Some st' ->
    exists front t,
      blockInsts (body st) PH = front ++ [t] /\ isTerminator t = true /\
      blockInsts (body st') PH = filter (notAt (ptr i)) front ++ [i; t] /\
      (forall b, b <> PH ->
         blockInsts (body st') b = filter (notAt (ptr i)) (blockInsts (body st) b)) /\
      getParent (body st') (ptr i) = Some PH /\
      (~ In PH (getBlocks L) -> isLoopInvariant L (body st') (InstResult (ptr i)) = true) /\
      stats st' = stats st /\
      hist st' = mkMove L i (body st) :: hist st.
Proof.
  intros Hwf Hf Hi. unfold hoistInstructionToPreheader. split.
  - unfold relocate, moveBeforeTerminator.
    destruct (getTerminator (body st) PH); split; congruence.
  - intros st' Hr. destruct (relocate_inv _ _ _ _ _ Hr) as [Hh [Hs Hmv]].
    pose proof (moveBeforeTerminator_perm _ _ _ _ Hf Hmv) as Hperm.
    pose proof (moveBeforeTerminator_labels _ _ _ _ Hmv) as Hlab.
    pose proof (wf_moved _ _ Hwf Hlab Hperm) as Hwf'.
    unfold moveBeforeTerminator in Hmv.
    destruct (getTerminator (body st) PH) as [t|] eqn:Et; [|discriminate].
    injection Hmv as Hb.
    pose proof (getTerminator_findBlock _ _ _ Et) as HPHb.
    rewrite getTerminator_blockInsts in Et.
    pose proof (lastTerminator_is _ _ Et) as Ht.
    destruct (lastTerminator_snoc _ _ Et) as [front E].
    assert (EPH : blockInsts (body st') PH = filter (notAt (ptr i)) front ++ [i; t]).
    { rewrite <- Hb, blockInsts_insertBeforeTerminator.
      - rewrite (blockInsts_removeInst_wf _ _ _ (proj2 Hwf)).
        rewrite (filter_notAt_snoc _ _ _ _ _ Hwf Hf Hi E Ht).
        apply insertBeforeLast_snoc.
      - intro Hn. apply HPHb. eapply findBlock_labels; [|exact Hn].
        apply removeInst_labels. }
    assert (Hpar : getParent (body st') (ptr i) = Some PH).
    { apply (blockInsts_parent _ _ _ Hwf'). rewrite EPH.
      apply in_or_app. right. left. reflexivity. }
    exists front, t. split; [exact E|]. split; [exact Ht|]. split; [exact EPH|].
    split; [|split; [exact Hpar|split; [|split; [exact Hs | exact Hh]]]].
    + intros b Hne. rewrite <- Hb. apply (moved_loop_block _ _ _ _ Hwf Hne).
    + intro Hout. cbn [isLoopInvariant]. unfold contains. rewrite Hpar.
      apply negb_true_iff. unfold inBlocks.
      destruct (existsb (N.eqb PH) (getBlocks L)) eqn:Ex; [|reflexivity].
      apply existsb_exists in Ex. destruct Ex as [x [Hx Ex]].
      apply N.eqb_eq in Ex. subst x. contradiction.
Qed.

Lemma hoist_lands_before_terminator_witness :
  exists st', hoistInstructionToPreheader demo_loop
                (mkInst 10%N (LoadInst false (GlobalVariable 1%N))) 0%N
                (mkState demo_body zeroStats []) = Some st' /\
    exists front t,
      blockInsts demo_body 0%N = front ++ [t] /\ isTerminator t = true /\
      blockInsts (body st') 0%N
      = filter (notAt 10%N) front ++ [mkInst 10%N (LoadInst false (GlobalVariable 1%N)); t].
Proof.
  destruct (hoist_lands_before_terminator demo_loop
              (mkInst 10%N (LoadInst false (GlobalVariable 1%N))) 0%N
              (mkState demo_body zeroStats [])) as [_ H].
  - split; vm_compute; repeat constructor; simpl; intuition discriminate.
  - reflexivity.
  - reflexivity.
  - eexists. split; [vm_compute; reflexivity|].
    destruct (H _ eq_refl) as [front [t [H1 [H2 [H3 _]]]]].
    exists front, t. auto.
Defined.

(** ** The tests on the stores of a loop *)

Lemma storeAllows_of_nonstore (F : list BasicBlock) (a : Value) (i : Instruction) :
  isStore i = false -> storeAllows F a i = true.
Proof.
  unfold isStore, storeAllows. destruct (kind i); try reflexivity. discriminate.
Qed.

(** X10: a loop without any store passes the test on the stores for every
    address, so that [CanMoveOutofLoop] accepts there exactly the
    non-volatile instructions whose address is a global variable. *)
Theorem no_store_allows_every_address (L : Loop) (F : list BasicBlock) :
  NoPossibleStoresToAnyAddressInLoop L F = true ->
  (forall LoadAddress, NoPossibleStoresToAddressInLoop L F LoadAddress = true) /\
  (forall i LoadAddress loopHasStore,
     CanMoveOutofLoop F L i LoadAddress loopHasStore
     = negb (isVolatile i) && isGlobalVariable LoadAddress).
Proof.
  intro H.
  assert (H1 : forall a, NoPossibleStoresToAddressInLoop L F a = true).
  { intro a. unfold NoPossibleStoresToAnyAddressInLoop in H.
    unfold NoPossibleStoresToAddressInLoop. rewrite forallb_forall in *.
    intros b Hb. specialize (H b Hb). rewrite forallb_forall in *.
    intros i Hi. apply storeAllows_of_nonstore, negb_true_iff, (H i Hi). }
  split; [exact H1|]. intros i a lhs. unfold CanMoveOutofLoop. rewrite H1.
  destruct (isVolatile i), (isGlobalVariable a); reflexivity.
Qed.

Lemma no_store_allows_every_address_witness :
  (forall LoadAddress,
     NoPossibleStoresToAddressInLoop one_block_loop division_body LoadAddress = true) /\
  (forall i LoadAddress loopHasStore,
     CanMoveOutofLoop division_body one_block_loop i LoadAddress loopHasStore
     = negb (isVolatile i) && isGlobalVariable LoadAddress).
Proof.
  apply (no_store_allows_every_address one_block_loop division_body). reflexivity.
Defined.

Lemma inBlocks_In (b : BlockRef) (bs : list BlockRef) : inBlocks b bs = true <-> In b bs.
Proof.
  unfold inBlocks. rewrite existsb_exists. split.
  - intros [x [Hx E]]. apply N.eqb_eq in E. subst. exact Hx.
  - intro H. exists b. split; [exact H | apply N.eqb_refl].
Qed.

Lemma isLoopInvariant_within (L' L : Loop) (F : list BasicBlock) (v : Value) :
  blocksWithin L' L -> isLoopInvariant L F v = true -> isLoopInvariant L' F v = true.
Proof.
  intro Hin. destruct v; try reflexivity. cbn [isLoopInvariant]. unfold contains.
  destruct (getParent F i) as [b|]; [|reflexivity].
  rewrite !negb_true_iff. intro H.
  destruct (inBlocks b (getBlocks L')) eqn:E; [|reflexivity].
  apply inBlocks_In in E. apply Hin, inBlocks_In in E. congruence.
Qed.

(** X11: the two tests of the pass pass from a loop to the loops made of
    some of its blocks, its sub-loops among them: operands that are
    invariant in the loop are invariant in the smaller loop, and a load that
    may leave the loop may leave the smaller loop. *)
Theorem tests_pass_to_inner_loops (L' L : Loop) (F : list BasicBlock) (i : Instruction) :
  blocksWithin L' L ->
  (AreAllOperandsLoopInvaraint L F i = true -> AreAllOperandsLoopInvaraint L' F i = true) /\
  (forall LoadAddress, NoPossibleStoresToAddressInLoop L F LoadAddress = true ->
                       NoPossibleStoresToAddressInLoop L' F LoadAddress = true) /\
  (forall LoadAddress f1 f2, CanMoveOutofLoop F L i LoadAddress f1 = true ->
                             CanMoveOutofLoop F L' i LoadAddress f2 = true).
Proof.
  intro Hin.
  assert (H2 : forall a, NoPossibleStoresToAddressInLoop L F a = true ->
                         NoPossibleStoresToAddressInLoop L' F a = true).
  { intro a. unfold NoPossibleStoresToAddressInLoop. rewrite !forallb_forall.
    intros H b Hb. apply H, Hin, Hb. }
  split; [|split; [exact H2|]].
  - unfold AreAllOperandsLoopInvaraint. rewrite !forallb_forall.
    intros H v Hv. apply (isLoopInvariant_within _ _ _ _ Hin), H, Hv.
  - intros a f1 f2. unfold CanMoveOutofLoop.
    destruct (isVolatile i); [discriminate|].
    destruct (isGlobalVariable a); [|discriminate]. cbn [andb].
    destruct (NoPossibleStoresToAddressInLoop L F a) eqn:E; [|discriminate].
    rewrite (H2 a E). reflexivity.
Qed.

Lemma tests_pass_to_inner_loops_witness :
  (AreAllOperandsLoopInvaraint twice_outer twice_body
     (mkInst 10%N (LoadInst false (GlobalVariable 1%N))) = true ->
   AreAllOperandsLoopInvaraint twice_inner twice_body
     (mkInst 10%N (LoadInst false (GlobalVariable 1%N))) = true) /\
  (forall LoadAddress,
     NoPossibleStoresToAddressInLoop twice_outer twice_body LoadAddress = true ->
     NoPossibleStoresToAddressInLoop twice_inner twice_body LoadAddress = true) /\
  (forall LoadAddress f1 f2,
     CanMoveOutofLoop twice_body twice_outer
       (mkInst 10%N (LoadInst false (GlobalVariable 1%N))) LoadAddress f1 = true ->
     CanMoveOutofLoop twice_body twice_inner
       (mkInst 10%N (LoadInst false (GlobalVariable 1%N))) LoadAddress f2 = true).
Proof.
  apply (tests_pass_to_inner_loops twice_inner twice_outer twice_body).
  intros b Hb. simpl in *. intuition.
Defined.

(** ** The two tests the pass does not call *)

Lemma findInst_getParent (F : list BasicBlock) (p : InstRef) (i : Instruction) :
  findInst F p = Some i -> exists b, getParent F p = Some b.
Proof.
  induction F as [|B F IH]; [discriminate|]. cbn [findInst getParent].
  rewrite find_existsb_hasPtr.
  destruct (find (hasPtr p) (insts B)); [intros _; eexists; reflexivity | exact IH].
Qed.

(** X12: [AllocaNotInLoop] is lost exactly when its argument is not an
    alloca of the function (the null pointer of the cast is dereferenced);
    on an alloca its answer is that of [L->isLoopInvariant]. *)
Theorem AllocaNotInLoop_answers (L : Loop) (F : list BasicBlock) (Addr : Value) :
  (AllocaNotInLoop L F Addr = None <-> isAlloca F Addr = false) /\
  (forall r, AllocaNotInLoop L F Addr = Some r -> r = isLoopInvariant L F Addr).
Proof.
  unfold AllocaNotInLoop. destruct (isAlloca F Addr) eqn:Ea.
  - destruct Addr as [| | | | |x]; try discriminate.
    cbn [isAlloca] in Ea. destruct (findInst F x) as [i|] eqn:Ef; [|discriminate].
    destruct (findInst_getParent _ _ _ Ef) as [b Eb].
    cbn [isLoopInvariant]. unfold contains. rewrite Eb.
    destruct (inBlocks b (getBlocks L)); split;
      try (split; discriminate); intros r H; inversion H; reflexivity.
  - split; [split; reflexivity | discriminate].
Qed.

Lemma AllocaNotInLoop_answers_witness :
  AllocaNotInLoop demo_loop demo_body (InstResult 1%N) = Some true /\
  isLoopInvariant demo_loop demo_body (InstResult 1%N) = true /\
  AllocaNotInLoop demo_loop demo_body (GlobalVariable 1%N) = None /\
  AllocaNotInLoop demo_loop demo_body (InstResult 10%N) = None.
Proof.
  split; [reflexivity|]. split; [|split].
  - symmetry.
    apply (proj2 (AllocaNotInLoop_answers demo_loop demo_body (InstResult 1%N))).
    reflexivity.
  - apply (proj1 (AllocaNotInLoop_answers demo_loop demo_body (GlobalVariable 1%N))).
    reflexivity.
  - apply (proj1 (AllocaNotInLoop_answers demo_loop demo_body (InstResult 10%N))).
    reflexivity.
Defined.

(** ** The order of the worklist *)

Lemma ascending_ext (s s' : list InstRef) :
  ascending s -> ascending s' -> (forall p, In p s <-> In p s') -> s = s'.
Proof.
  revert s'. induction s as [|p r IH]; intros s' Hs Hs' H.
  - destruct s' as [|q r']; [reflexivity|].
    exfalso. apply (proj2 (H q)). left. reflexivity.
  - destruct s' as [|q r']; [exfalso; apply (proj1 (H p)); left; reflexivity|].
    cbn [ascending] in Hs, Hs'. destruct Hs as [Hp Hr]. destruct Hs' as [Hq Hr'].
    assert (E : p = q).
    { destruct (proj1 (H p) (or_introl eq_refl)) as [E|Hin]; [auto|].
      destruct (proj2 (H q) (or_introl eq_refl)) as [E|Hin']; [auto|].
      specialize (Hp q Hin'). specialize (Hq p Hin). lia. }
    subst q. f_equal. apply IH; [assumption | assumption |].
    intro x. split; intro Hx.
    + destruct (proj1 (H x) (or_intror Hx)) as [E|Hin]; [|exact Hin].
      subst x. specialize (Hp p Hx). lia.
    + destruct (proj2 (H x) (or_intror Hx)) as [E|Hin]; [|exact Hin].
      subst x. specialize (Hq p Hx). lia.
Qed.

(** X14: the worklist filled from a block holds the addresses of the
    instructions of the block, each once, in increasing order: the order in
    which the [while] loop examines the instructions depends on the set of
    their addresses only, not on their order in the block. *)
Theorem worklist_order (l : list Instruction) :
  ascending (fillWorklist l) /\
  (forall p, In p (fillWorklist l) <-> In p (map ptr l)) /\
  (forall l', (forall p, In p (map ptr l') <-> In p (map ptr l)) ->
              fillWorklist l' = fillWorklist l).
Proof.
  assert (Ha : forall k, ascending (fillWorklist k))
    by (intro k; apply (proj2 (fillWorklist_from k [])); exact Logic.I).
  split; [apply Ha|]. split; [apply fillWorklist_In|].
  intros l' H. apply ascending_ext; [apply Ha | apply Ha|].
  intro p. rewrite !fillWorklist_In. apply H.
Qed.

Lemma worklist_order_witness :
  fillWorklist (blockInsts chain_body 1%N) = [20%N; 30%N; 40%N] /\
  fillWorklist (rev (blockInsts chain_body 1%N)) = fillWorklist (blockInsts chain_body 1%N).
Proof.
  split; [reflexivity|].
  apply (proj2 (proj2 (worklist_order (blockInsts chain_body 1%N)))).
  intro p. rewrite map_rev, <- in_rev. reflexivity.
Defined.

(** ** A module without loops *)

Lemma decr_incr_id (c : Counter) (s : Statistics) :
  0 <= read c s < 2 ^ 32 -> decr c (incr c s) = s.
Proof.
  intro H. unfold decr, incr. rewrite read_write_same.
  assert (E : wrap (wrap (read c s + 1) - 1) = read c s).
  { unfold wrap. rewrite Zminus_mod_idemp_l.
    replace (read c s + 1 - 1) with (read c s) by lia. apply Z.mod_small, H. }
  rewrite E. destruct s, c; reflexivity.
Qed.

Lemma runOnFunction_no_loops (f : Function) (g : Global) :
  floops f = [] -> runOnFunction f g = Some (f, g).
Proof.
  intro H. unfold runOnFunction. rewrite H.
  destruct f as [F ls], g as [s h]. cbn [fbody floops gstats ghist] in *. subst ls.
  destruct F; reflexivity.
Qed.

(** X15: on a module whose functions have no loop (declarations, straight
    code, the empty module) the pass returns the module as it is, and leaves
    every counter as it was: the increment and the decrement of
    [LICMLoadHoist] at its entry cancel. *)
Theorem module_without_loops_unchanged (M : Module) (g : Global) :
  Forall (fun f => floops f = []) M ->
  0 <= read LICMLoadHoist (gstats g) < 2 ^ 32 ->
  LoopInvariantCodeMotion M g = Some (M, g).
Proof.
  intros HM Hr. unfold LoopInvariantCodeMotion. rewrite (decr_incr_id _ _ Hr).
  replace (mkGlobal (gstats g) (ghist g)) with g by (destruct g; reflexivity).
  induction HM as [|f M Hf _ IH]; [reflexivity|].
  cbn [RunLICMBasic]. rewrite (runOnFunction_no_loops _ _ Hf), IH. reflexivity.
Qed.

Lemma module_without_loops_unchanged_witness :
  LoopInvariantCodeMotion straight_module startGlobal = Some (straight_module, startGlobal).
Proof.
  apply (module_without_loops_unchanged straight_module startGlobal).
  - repeat constructor.
  - vm_compute. split; [discriminate | reflexivity].
Defined.

(** ** Where a relocated instruction comes from *)

Lemma movesAll_refl (Q : Move -> Prop) (st : State) : movesAll Q st st.
Proof. exists []. split; [reflexivity | constructor]. Qed.

Lemma movesAll_trans (Q : Move -> Prop) (a b c : State) :
  movesAll Q a b -> movesAll Q b c -> movesAll Q a c.
Proof.
  intros [m1 [H1 F1]] [m2 [H2 F2]]. exists (m2 ++ m1). split.
  - rewrite H2, H1. apply app_assoc.
  - apply Forall_app. auto.
Qed.

Lemma run_wf (st st' : State) : run st st' -> wf (body st) -> wf (body st').
Proof.
  intros Hr Hwf. destruct (run_summary _ _ Hr) as [ms Hs].
  apply (wf_moved _ _ Hwf (sum_labels _ _ _ Hs) (sum_perm _ _ _ Hs)).
Qed.

(** In a well-formed body a relocation leaves every other instruction in its
    block. *)
Lemma relocate_others_stay (L : Loop) (i : Instruction) (PH : BlockRef) (st st' : State)
  (b : BlockRef) (k : Instruction) :
  wf (body st) -> relocate L i PH st = Some st' ->
  In k (blockInsts (body st) b) -> ptr k <> ptr i -> In k (blockInsts (body st') b).
Proof.
  intros Hwf Hr Hk Hne. destruct (relocate_inv _ _ _ _ _ Hr) as [_ [_ Hmv]].
  unfold moveBeforeTerminator in Hmv.
  destruct (getTerminator (body st) PH) as [t|] eqn:Et; [|discriminate].
  injection Hmv as Hb. rewrite <- Hb.
  assert (Hf : In k (filter (notAt (ptr i)) (blockInsts (body st) b))).
  { apply filter_In. split; [exact Hk|]. unfold notAt, hasPtr.
    apply negb_true_iff, N.eqb_neq, Hne. }
  destruct (N.eq_dec b PH) as [E|E].
  - subst b. rewrite blockInsts_insertBeforeTerminator.
    + rewrite (blockInsts_removeInst_wf _ _ _ (proj2 Hwf)).
      eapply Permutation_in; [apply Permutation_sym, insertBeforeLast_perm|].
      right. exact Hf.
    + intro Hn. apply (getTerminator_findBlock _ _ _ Et).
      eapply findBlock_labels; [|exact Hn]. apply removeInst_labels.
  - rewrite (moved_loop_block _ _ _ _ Hwf E). exact Hf.
Qed.

Lemma visit_fromLoop (L : Loop) (PH bb : BlockRef) (lcs : bool) (j : Instruction)
  (st st' : State) :
  getLoopPreheader L = Some PH -> wf (body st) ->
  In bb (getBlocks L) -> In j (blockInsts (body st) bb) ->
  visit L PH lcs (ptr j) st = Some st' ->
  movesAll fromLoop st st' /\
  forall k, In k (blockInsts (body st) bb) -> ptr k <> ptr j ->
            In k (blockInsts (body st') bb).
Proof.
  intros HPH Hwf Hbb Hj.
  rewrite (visit_decision _ _ _ _ _ _ HPH (findInst_blockInsts _ _ _ Hwf Hj)).
  destruct (decision L (body st) j).
  - destruct (relocate L j PH st) as [st1|] eqn:Er; [|discriminate].
    intro H; inversion H; subst. cbn [count body hist]. split.
    + exists [mkMove L j (body st)]. split.
      * cbn [count hist]. rewrite (proj1 (relocate_inv _ _ _ _ _ Er)). reflexivity.
      * constructor; [|constructor]. unfold fromLoop. cbn [mv_loop mv_before mv_inst].
        apply (contains_spec _ _ _ Hwf). exists bb, j. auto.
    + intros k Hk Hne. apply (relocate_others_stay _ _ _ _ _ _ _ Hwf Er Hk Hne).
  - intro H; inversion H; subst. split; [apply movesAll_refl | auto].
Qed.

Lemma drain_fromLoop (L : Loop) (PH bb : BlockRef) (lcs : bool) (w : list InstRef) :
  getLoopPreheader L = Some PH -> In bb (getBlocks L) ->
  forall st st', wf (body st) -> NoDup w ->
    (forall p, In p w -> exists j, In j (blockInsts (body st) bb) /\ ptr j = p) ->
    drain L PH lcs w st = Some st' -> movesAll fromLoop st st'.
Proof.
  intros HPH Hbb. induction w as [|p w IH]; intros st st' Hwf Hnd Hw H; cbn [drain] in H.
  - inversion H; subst. apply movesAll_refl.
  - destruct (visit L PH lcs p st) as [st1|] eqn:Ev; [|discriminate].
    destruct (Hw p (or_introl eq_refl)) as [j [Hj Ep]]. subst p.
    destruct (visit_fromLoop _ _ _ _ _ _ _ HPH Hwf Hbb Hj Ev) as [Hm Hstay].
    inversion Hnd as [|x r Hx Hr]; subst.
    eapply movesAll_trans; [exact Hm|].
    apply IH; [apply (run_wf _ _ (visit_run _ _ _ _ _ _ HPH Ev) Hwf) | exact Hr | | exact H].
    intros q Hq. destruct (Hw q (or_intror Hq)) as [k [Hk Eq]]. exists k.
    split; [|exact Eq]. apply Hstay; [exact Hk|]. intro E. apply Hx. congruence.
Qed.

Lemma sweepBlocks_fromLoop (L : Loop) (PH : BlockRef) (bs : list BlockRef) :
  getLoopPreheader L = Some PH -> incl bs (getBlocks L) ->
  forall lcs st st', wf (body st) ->
    sweepBlocks L PH bs lcs st = Some st' -> movesAll fromLoop st st'.
Proof.
  intros HPH. induction bs as [|b bs IH]; intros Hin lcs st st' Hwf H;
    cbn [sweepBlocks] in H.
  - inversion H; subst. apply movesAll_refl.
  - destruct (sweepBlock L PH b lcs st) as [[st1 l1]|] eqn:Es; [|discriminate].
    pose proof (run_wf _ _ (sweepBlock_run _ _ _ _ _ _ _ HPH Es) Hwf) as Hwf1.
    eapply movesAll_trans;
      [|apply (IH (fun x Hx => Hin x (or_intror Hx)) _ _ _ Hwf1 H)].
    unfold sweepBlock in Es. cbv zeta in Es.
    match type of Es with
    | match drain ?a ?b ?c ?d ?e with _ => _ end = _ =>
        destruct (drain a b c d e) as [st2|] eqn:Ed; [|discriminate];
        pose proof (drain_fromLoop a b _ c d HPH (Hin _ (or_introl eq_refl)) e st2) as Hd
    end.
    inversion Es; subst. destruct Hd as [ms [Hh Hf]].
    + exact Hwf.
    + apply fillWorklist_NoDup.
    + intros p Hp. apply fillWorklist_In, in_map_iff in Hp.
      destruct Hp as [j [Ej Hj]]. exists j. auto.
    + exact Ed.
    + exists ms. auto.
Qed.

Lemma OptimizeLoops_fromLoop (ls : list Loop) :
  Forall (fun L => forall st st', wf (body st) -> OptimizeLoop2 L st = Some st' ->
                                  movesAll fromLoop st st') ls ->
  forall st st', wf (body st) -> OptimizeLoops ls st = Some st' ->
                 movesAll fromLoop st st'.
Proof.
  induction 1 as [|L ls HL _ IH]; intros st st' Hwf H; cbn [OptimizeLoops] in H.
  - inversion H; subst. apply movesAll_refl.
  - destruct (OptimizeLoop2 L st) as [st1|] eqn:E; [|discriminate].
    eapply movesAll_trans; [apply (HL _ _ Hwf E)|].
    apply IH; [|exact H]. apply (run_wf _ _ (OptimizeLoop2_run _ _ _ E) Hwf).
Qed.

Lemma OptimizeLoop2_fromLoop (L : Loop) :
  forall st st', wf (body st) -> OptimizeLoop2 L st = Some st' ->
                 movesAll fromLoop st st'.
Proof.
  induction L as [ph bs ss IH] using Loop_forest_ind. intros st st' Hwf.
  rewrite OptimizeLoop2_eq. cbn [getLoopPreheader getSubLoops].
  destruct ph as [PH|].
  - destruct (OptimizeLoops ss (count NumLoops st)) as [st1|] eqn:E; [|discriminate].
    intro H.
    pose proof (OptimizeLoops_fromLoop _ IH (count NumLoops st) st1 Hwf E) as H1.
    pose proof (run_wf _ _ (OptimizeLoops_run _ _ _ E) Hwf) as Hwf1.
    unfold rewriteLoop in H.
    pose proof (sweepBlocks_fromLoop (mkLoop (Some PH) bs ss) PH _ eq_refl (incl_refl _)
                  _ _ _ Hwf1 H) as H2.
    destruct H1 as [m1 [E1 F1]]. destruct H2 as [m2 [E2 F2]].
    exists (m2 ++ m1). split; [|apply Forall_app; auto].
    rewrite E2, E1. cbn [count hist]. apply app_assoc.
  - intro H; inversion H; subst. exists []. split; [reflexivity | constructor].
Qed.

Lemma RunLICMBasic_fromLoop (M : Module) :
  Forall (fun f => wf (fbody f)) M ->
  forall g M' g', RunLICMBasic M g = Some (M', g') ->
    exists ms, ghist g' = ms ++ ghist g /\ Forall fromLoop ms.
Proof.
  induction 1 as [|f M Hf _ IH]; intros g M' g' H; cbn [RunLICMBasic] in H.
  - inversion H; subst. exists []. split; [reflexivity | constructor].
  - destruct (runOnFunction f g) as [[f1 g1]|] eqn:Ef; [|discriminate].
    destruct (RunLICMBasic M g1) as [[M1 g2]|] eqn:EM; [|discriminate].
    inversion H; subst. destruct (IH _ _ _ EM) as [m2 [E2 F2]].
    assert (H1 : exists m1, ghist g1 = m1 ++ ghist g /\ Forall fromLoop m1).
    { unfold runOnFunction in Ef. destruct (fbody f) as [|B F] eqn:EF.
      - inversion Ef; subst. exists []. split; [reflexivity | constructor].
      - destruct (OptimizeLoops (floops f) (mkState (B :: F) (gstats g) (ghist g)))
          as [st|] eqn:Eo; [|discriminate].
        inversion Ef; subst. cbn [ghist].
        apply (OptimizeLoops_fromLoop (floops f)
                 (proj2 (Forall_forall _ _) (fun L _ => OptimizeLoop2_fromLoop L))
                 (mkState (B :: F) (gstats g) (ghist g)) st Hf Eo). }
    destruct H1 as [m1 [E1 F1]]. exists (m2 ++ m1). split; [|apply Forall_app; auto].
    rewrite E2, E1. apply app_assoc.
Qed.

(** X16: in a module whose functions have distinct blocks and distinct
    instruction objects, every instruction the pass relocates was, when it
    was moved, in a block of the loop on whose behalf it is moved: loads
    included, for which the pass makes no such test. *)
Theorem hoists_come_from_the_loop (M M' : Module) (g g' : Global) :
  Forall (fun f => wf (fbody f)) M ->
  LoopInvariantCodeMotion M g = Some (M', g') ->
  Forall fromLoop (relocations g g').
Proof.
  intros Hwf H. unfold LoopInvariantCodeMotion in H.
  destruct (RunLICMBasic_fromLoop _ Hwf _ _ _ H) as [ms [E F]].
  cbn [ghist] in E. unfold relocations. rewrite E, newMoves_app. exact F.
Qed.

Lemma hoists_come_from_the_loop_witness :
  Forall fromLoop (relocations startGlobal (snd demo_after)).
Proof.
  apply (hoists_come_from_the_loop demo_module (fst demo_after)).
  - constructor; [|constructor].
    split; vm_compute; repeat constructor; simpl; intuition discriminate.
  - vm_compute. reflexivity.
Defined.

(** ** Relocations as changes of the code *)

Lemma moveBeforeTerminator_lands (L : Loop) (i : Instruction) (PH : BlockRef)
  (F F' : list BasicBlock) :
  wf F -> findInst F (ptr i) = Some i -> isTerminator i = false ->
  getLoopPreheader L = Some PH -> moveBeforeTerminator i PH F = Some F' ->
  lands (mkMove L i F) F F'.
Proof.
  intros Hwf Hf Hi HPH Hmv.
  pose proof (moveBeforeTerminator_labels _ _ _ _ Hmv) as Hlab.
  unfold moveBeforeTerminator in Hmv.
  destruct (getTerminator F PH) as [t|] eqn:Et; [|discriminate].
  injection Hmv as Hb.
  pose proof (getTerminator_findBlock _ _ _ Et) as HPHb.
  rewrite getTerminator_blockInsts in Et.
  pose proof (lastTerminator_is _ _ Et) as Ht.
  destruct (lastTerminator_snoc _ _ Et) as [front E].
  split; [reflexivity|]. split; [exact Hf|].
  exists PH, front, t. cbn [mv_loop mv_inst].
  split; [exact HPH|]. split; [exact E|]. split; [exact Ht|].
  split; [|split; [|exact Hlab]].
  - rewrite <- Hb, blockInsts_insertBeforeTerminator.
    + rewrite (blockInsts_removeInst_wf _ _ _ (proj2 Hwf)).
      rewrite (filter_notAt_snoc _ _ _ _ _ Hwf Hf Hi E Ht).
      apply insertBeforeLast_snoc.
    + intro Hn. apply HPHb. eapply findBlock_labels; [|exact Hn].
      apply removeInst_labels.
  - intros b Hne. rewrite <- Hb. apply (moved_loop_block _ _ _ _ Hwf Hne).
Qed.

Lemma replay_app (F F1 F2 : list BasicBlock) (a b : list Move) :
  replay F a F1 -> replay F1 b F2 -> replay F (b ++ a) F2.
Proof.
  intros Ha Hb. induction Hb as [G | G G1 G' m ms Hr IH Hl]; [exact Ha|].
  cbn [app]. apply (replay_cons _ G1); [apply IH, Ha | exact Hl].
Qed.

Lemma step_replay (st st' : State) :
  wf (body st) -> step st st' ->
  exists ms, hist st' = ms ++ hist st /\ replay (body st) ms (body st').
Proof.
  intros Hwf Hs. destruct (step_cases _ _ Hs) as [[Hb [Hh _]] | [m Hm]].
  - exists []. rewrite Hb, Hh. split; [reflexivity | apply replay_nil].
  - destruct Hm as [Hh Hbef Hf Hmov _ _ [PH [HPH Hmv]] _].
    exists [m]. split; [exact Hh|].
    apply (replay_cons _ (body st)); [apply replay_nil|].
    pose proof (moveBeforeTerminator_lands (mv_loop m) (mv_inst m) PH _ _ Hwf Hf
                  (movable_not_terminator _ Hmov) HPH Hmv) as Hl.
    rewrite <- Hbef in Hl at 1. destruct m as [L i B]. exact Hl.
Qed.

Lemma run_replay (st st' : State) :
  run st st' -> wf (body st) ->
  exists ms, hist st' = ms ++ hist st /\ replay (body st) ms (body st').
Proof.
  induction 1 as [st | a b c Hs Hr IH]; intro Hwf.
  - exists []. split; [reflexivity | apply replay_nil].
  - destruct (step_replay _ _ Hwf Hs) as [m1 [E1 R1]].
    destruct (IH (run_wf _ _ (run_one _ _ Hs) Hwf)) as [m2 [E2 R2]].
    exists (m2 ++ m1). split; [rewrite E2, E1; apply app_assoc|].
    apply (replay_app _ _ _ _ _ R1 R2).
Qed.

Lemma mrun_replay (M M' : Module) (g g' : Global) :
  mrun M g M' g' -> Forall (fun f => wf (fbody f)) M ->
  exists ms, ghist g' = ms ++ ghist g /\ mreplay M ms M'.
Proof.
  induction 1 as [g | f f' M M' g g1 g' Hl Hr Hm IH]; intro Hwf.
  - exists []. split; [reflexivity | apply mreplay_nil].
  - inversion Hwf as [|x l Hf HM]; subst.
    destruct (run_replay _ _ Hr Hf) as [m1 [E1 R1]].
    destruct (IH HM) as [m2 [E2 R2]]. cbn [hist body] in E1, R1.
    exists (m2 ++ m1). split; [rewrite E2, E1; apply app_assoc|].
    apply mreplay_cons; assumption.
Qed.

(** The relocations of a run of the pass lead from the module it is given to
    the module it returns, and each of them takes an instruction out of a
    block of the loop the pass is sweeping. *)
Lemma LICM_replay (M M' : Module) (g g' : Global) :
  Forall (fun f => wf (fbody f)) M ->
  LoopInvariantCodeMotion M g = Some (M', g') ->
  mreplay M (relocations g g') M' /\ Forall fromLoop (relocations g g').
Proof.
  intros Hwf H. unfold LoopInvariantCodeMotion in H.
  destruct (mrun_replay _ _ _ _ (RunLICMBasic_mrun _ _ _ _ H) Hwf) as [ms [E R]].
  destruct (RunLICMBasic_fromLoop _ Hwf _ _ _ H) as [ms' [E' F']].
  cbn [ghist] in E, E'. unfold relocations.
  split; [rewrite E, newMoves_app; exact R|].
  rewrite E', newMoves_app. exact F'.
Qed.

(** ** The counter of hoisted loads *)

(** C10, as stated, fails: the module [twice_module] holds one load
    instruction, which the pass relocates out of the inner loop and then out
    of the outer loop; the counter of hoisted loads ends at two. *)
Lemma load_hoisted_twice_counts_twice :
  exists M' g',
    LoopInvariantCodeMotion twice_module startGlobal = Some (M', g') /\
    howMany _ isLoad (moduleInsts twice_module) = 1%nat /\
    loadsRelocated (relocations startGlobal g') = [10%N] /\
    map mv_loop (relocations startGlobal g') = [twice_outer; twice_inner] /\
    read LICMLoadHoist (gstats g') = 2 /\
    read LICMLoadHoist (gstats g')
    <> Z.of_nat (length (loadsRelocated (relocations startGlobal g'))).
Proof.
  eexists. eexists. split; [vm_compute; reflexivity|].
  split; [reflexivity|]. split; [vm_compute; reflexivity|].
  split; [vm_compute; reflexivity|]. split; [reflexivity|].
  vm_compute. discriminate.
Qed.

(** C10: in a module whose functions have distinct blocks and distinct
    instruction objects, the relocations of a run lead from the module given
    to the module returned: each of them takes one instruction out of a block
    of the loop being swept and puts it in front of the terminator of the
    preheader of that loop, and changes nothing else.  The hoisted-load
    counter has advanced by exactly the number of those relocations that
    move a load, a load hoisted out of an inner loop and again out of an
    outer loop counting twice; the increment and decrement at the entry of
    the pass cancel.  The counter is a 32-bit unsigned, which starts at zero
    when the program starts: it then equals that number. *)
Theorem load_hoist_counter_exact (M M' : Module) (g g' : Global) :
  Forall (fun f => wf (fbody f)) M ->
  0 <= read LICMLoadHoist (gstats g) < 2 ^ 32 ->
  LoopInvariantCodeMotion M g = Some (M', g') ->
  mreplay M (relocations g g') M' /\
  Forall fromLoop (relocations g g') /\
  read LICMLoadHoist (gstats g')
  = wrap (read LICMLoadHoist (gstats g) + Z.of_nat (countLoads (relocations g g'))) /\
  (read LICMLoadHoist (gstats g) = 0 ->
   Z.of_nat (countLoads (relocations g g')) < 2 ^ 32 ->
   read LICMLoadHoist (gstats g') = Z.of_nat (countLoads (relocations g g'))).
Proof.
  intros Hwf Hr H. destruct (LICM_replay _ _ _ _ Hwf H) as [HR HF].
  split; [exact HR|]. split; [exact HF|].
  destruct (LICM_summary _ _ _ _ H) as [_ _ Hl _ _].
  cbn [gstats] in Hl. rewrite (read_decr_incr _ _ Hr) in Hl.
  rewrite (bumps_small _ _ Hr) in Hl. split; [exact Hl|].
  intros H0 Hn. rewrite Hl, H0. apply wrap_small. lia.
Qed.

Lemma load_hoist_counter_exact_witness :
  mreplay twice_module (relocations startGlobal (snd twice_after)) (fst twice_after) /\
  Forall fromLoop (relocations startGlobal (snd twice_after)) /\
  read LICMLoadHoist (gstats (snd twice_after)) = 2 /\
  countLoads (relocations startGlobal (snd twice_after)) = 2%nat.
Proof.
  destruct (load_hoist_counter_exact twice_module (fst twice_after) startGlobal
              (snd twice_after)) as [H1 [H2 [_ H3]]].
  - constructor; [|constructor].
    split; vm_compute; repeat constructor; simpl; intuition discriminate.
  - vm_compute. split; [discriminate | reflexivity].
  - vm_compute. reflexivity.
  - split; [exact H1|]. split; [exact H2|]. split; [|reflexivity].
    apply H3; [reflexivity | vm_compute; reflexivity].
Defined.

(** ** The counter of the other hoisted instructions *)

Lemma countLoads_countOthers (ms : list Move) :
  (countLoads ms + countOthers ms = length ms)%nat.
Proof.
  unfold countLoads, countOthers. induction ms as [|m ms IH]; [reflexivity|].
  cbn [filter]. destruct (isLoadMove m); cbn [negb length]; lia.
Qed.

(** X5: in a module whose functions have distinct blocks and distinct
    instruction objects, the relocations of a run lead from the module given
    to the module returned, each putting one instruction of the loop being
    swept in front of the terminator of the preheader.  The counter
    [LICMBasic] has advanced by exactly the number of those relocations that
    move an instruction other than a load, and the two hoist counters
    together account for every relocation of the run. *)
Theorem basic_hoist_counter_exact (M M' : Module) (g g' : Global) :
  Forall (fun f => wf (fbody f)) M ->
  LoopInvariantCodeMotion M g = Some (M', g') ->
  mreplay M (relocations g g') M' /\
  Forall fromLoop (relocations g g') /\
  read LICMBasic (gstats g')
  = bumps (countOthers (relocations g g')) (read LICMBasic (gstats g)) /\
  (read LICMBasic (gstats g) = 0 -> read LICMLoadHoist (gstats g) = 0 ->
   Z.of_nat (length (relocations g g')) < 2 ^ 32 ->
   read LICMBasic (gstats g') + read LICMLoadHoist (gstats g')
   = Z.of_nat (length (relocations g g'))).
Proof.
  intros Hwf H. destruct (LICM_replay _ _ _ _ Hwf H) as [HR HF].
  split; [exact HR|]. split; [exact HF|].
  destruct (LICM_summary _ _ _ _ H) as [_ _ Hl Hb _].
  cbn [gstats] in Hl, Hb. unfold decr, incr in Hb.
  rewrite !read_write_other in Hb by discriminate.
  split; [exact Hb|]. intros Z1 Z2 Hn.
  rewrite read_decr_incr in Hl by (rewrite Z2; split; [lia | reflexivity]).
  rewrite Hb, Hl, Z1, Z2, !bumps_zero.
  pose proof (countLoads_countOthers (relocations g g')) as E.
  rewrite !wrap_small by lia. lia.
Qed.

Lemma basic_hoist_counter_exact_witness :
  mreplay demo_module (relocations startGlobal (snd demo_after)) (fst demo_after) /\
  Forall fromLoop (relocations startGlobal (snd demo_after)) /\
  read LICMBasic (gstats (snd demo_after)) = bumps 1 0 /\
  (read LICMBasic (gstats startGlobal) = 0 -> read LICMLoadHoist (gstats startGlobal) = 0 ->
   Z.of_nat (length (relocations startGlobal (snd demo_after))) < 2 ^ 32 ->
   read LICMBasic (gstats (snd demo_after)) + read LICMLoadHoist (gstats (snd demo_after))
   = 2).
Proof.
  apply (basic_hoist_counter_exact demo_module (fst demo_after) startGlobal (snd demo_after)).
  - constructor; [|constructor].
    split; vm_compute; repeat constructor; simpl; intuition discriminate.
  - vm_compute. reflexivity.
Defined.

(** ** The code does not depend on the counters *)

Lemma visit_sameCode (L : Loop) (PH : BlockRef) (l1 l2 : bool) (p : InstRef)
  (s1 s2 : State) :
  getLoopPreheader L = Some PH -> body s1 = body s2 ->
  sameCode (visit L PH l1 p s1) (visit L PH l2 p s2).
Proof.
  intros HPH E. destruct (findInst (body s1) p) as [i|] eqn:Ef.
  - rewrite (visit_decision _ _ _ _ _ _ HPH Ef).
    rewrite E in Ef. rewrite (visit_decision _ _ _ _ _ _ HPH Ef), <- E.
    destruct (decision L (body s1) i); [|exact E].
    unfold relocate. rewrite <- E.
    destruct (moveBeforeTerminator i PH (body s1)); [reflexivity | exact Logic.I].
  - rewrite (visit_absent _ _ _ _ _ Ef).
    rewrite E in Ef. rewrite (visit_absent _ _ _ _ _ Ef). exact E.
Qed.

Lemma drain_sameCode (L : Loop) (PH : BlockRef) (l1 l2 : bool) (w : list InstRef) :
  getLoopPreheader L = Some PH ->
  forall s1 s2, body s1 = body s2 -> sameCode (drain L PH l1 w s1) (drain L PH l2 w s2).
Proof.
  intro HPH. induction w as [|p w IH]; intros s1 s2 E; cbn [drain]; [exact E|].
  pose proof (visit_sameCode L PH l1 l2 p s1 s2 HPH E) as Hv.
  destruct (visit L PH l1 p s1) as [a|], (visit L PH l2 p s2) as [b|]; try contradiction.
  - apply IH, Hv.
  - exact Logic.I.
Qed.

Lemma sweepBlocks_sameCode (L : Loop) (PH : BlockRef) (bs : list BlockRef) :
  getLoopPreheader L = Some PH ->
  forall l1 l2 s1 s2, body s1 = body s2 ->
    sameCode (sweepBlocks L PH bs l1 s1) (sweepBlocks L PH bs l2 s2).
Proof.
  intro HPH. induction bs as [|b bs IH]; intros l1 l2 s1 s2 E; cbn [sweepBlocks];
    [exact E|].
  unfold sweepBlock. cbv zeta. rewrite <- E.
  match goal with
  | |- sameCode (match (match drain ?a ?b ?c ?d ?e with _ => _ end) with _ => _ end)
                (match (match drain _ _ ?c' _ ?e' with _ => _ end) with _ => _ end) =>
      pose proof (drain_sameCode a b c c' d HPH e e' eq_refl) as Hd;
      destruct (drain a b c d e) as [x|], (drain a b c' d e') as [y|]; try contradiction
  end.
  - apply IH, Hd.
  - exact Logic.I.
Qed.

Lemma OptimizeLoops_sameCode (ls : list Loop) :
  Forall (fun L => forall s1 s2, body s1 = body s2 ->
                     sameCode (OptimizeLoop2 L s1) (OptimizeLoop2 L s2)) ls ->
  forall s1 s2, body s1 = body s2 -> sameCode (OptimizeLoops ls s1) (OptimizeLoops ls s2).
Proof.
  induction 1 as [|L ls HL _ IH]; intros s1 s2 E; cbn [OptimizeLoops]; [exact E|].
  pose proof (HL s1 s2 E) as H1.
  destruct (OptimizeLoop2 L s1) as [a|], (OptimizeLoop2 L s2) as [b|]; try contradiction.
  - apply IH, H1.
  - exact Logic.I.
Qed.

Lemma OptimizeLoop2_sameCode (L : Loop) :
  forall s1 s2, body s1 = body s2 -> sameCode (OptimizeLoop2 L s1) (OptimizeLoop2 L s2).
Proof.
  induction L as [ph bs ss IH] using Loop_forest_ind. intros s1 s2 E.
  rewrite !OptimizeLoop2_eq. cbn [getLoopPreheader getSubLoops].
  destruct ph as [PH|]; [|exact E].
  pose proof (OptimizeLoops_sameCode ss IH (count NumLoops s1) (count NumLoops s2) E) as H1.
  destruct (OptimizeLoops ss (count NumLoops s1)) as [a|],
           (OptimizeLoops ss (count NumLoops s2)) as [b|]; try contradiction.
  - unfold rewriteLoop. apply sweepBlocks_sameCode; [reflexivity | exact H1].
  - exact Logic.I.
Qed.

Lemma runOnFunction_code (f : Function) (g g0 : Global) :
  option_map fst (runOnFunction f g0) = option_map fst (runOnFunction f g).
Proof.
  unfold runOnFunction. destruct (fbody f) as [|B F]; [reflexivity|].
  pose proof (OptimizeLoops_sameCode (floops f)
                (proj2 (Forall_forall _ _) (fun L _ => OptimizeLoop2_sameCode L))
                (mkState (B :: F) (gstats g0) (ghist g0))
                (mkState (B :: F) (gstats g) (ghist g)) eq_refl) as H.
  destruct (OptimizeLoops (floops f) (mkState (B :: F) (gstats g0) (ghist g0))) as [a|],
           (OptimizeLoops (floops f) (mkState (B :: F) (gstats g) (ghist g))) as [b|];
    try contradiction; [|reflexivity].
  cbn [option_map fst]. cbn [sameCode] in H. rewrite H. reflexivity.
Qed.

Lemma RunLICMBasic_local (M : Module) :
  forall g M' g', RunLICMBasic M g = Some (M', g') ->
    Forall2 (fun f f' => forall g0, exists g1, RunLICMBasic [f] g0 = Some ([f'], g1)) M M'.
Proof.
  induction M as [|f M IH]; intros g M' g' H; cbn [RunLICMBasic] in H.
  - inversion H; subst. constructor.
  - destruct (runOnFunction f g) as [[f1 g1]|] eqn:Ef; [|discriminate].
    destruct (RunLICMBasic M g1) as [[M1 g2]|] eqn:EM; [|discriminate].
    inversion H; subst. constructor; [|apply (IH _ _ _ EM)].
    intro g0. pose proof (runOnFunction_code f g g0) as Hc. rewrite Ef in Hc.
    cbn [RunLICMBasic]. destruct (runOnFunction f g0) as [[f2 g3]|]; [|discriminate].
    cbn [option_map fst] in Hc. inversion Hc; subst. exists g3. reflexivity.
Qed.

(** X18: the pass works function by function, and its counters have no
    influence on the code: each function of the result is what the pass
    makes of that function on its own, whatever the counters and the
    relocations recorded before. *)
Theorem pass_is_function_local (M M' : Module) (g g' : Global) :
  LoopInvariantCodeMotion M g = Some (M', g') ->
  Forall2 (fun f f' => forall g0, exists g1,
             LoopInvariantCodeMotion [f] g0 = Some ([f'], g1)) M M'.
Proof.
  unfold LoopInvariantCodeMotion. intro H.
  eapply Forall2_impl; [|apply (RunLICMBasic_local _ _ _ _ H)].
  intros f f' Hf g0. apply Hf.
Qed.

Lemma pass_is_function_local_witness :
  Forall2 (fun f f' => forall g0, exists g1,
             LoopInvariantCodeMotion [f] g0 = Some ([f'], g1))
          demo_module (fst demo_after).
Proof.
  apply (pass_is_function_local demo_module (fst demo_after) startGlobal (snd demo_after)).
  vm_compute. reflexivity.
Defined.

(** ** The statistics file *)

Section StatisticsFileFacts.

Import String Ascii.
Local Open Scope string_scope.

Lemma upto_app (c : ascii) (a r : string) :
  lacks c a = true -> upto c (a ++ String c r) = (a, Some r).
Proof.
  induction a as [|x a IH]; cbn [lacks append upto].
  - intros _. rewrite Ascii.eqb_refl. reflexivity.
  - intro H. apply andb_prop in H. destruct H as [H1 H2].
    apply negb_true_iff in H1. rewrite H1, (IH H2). reflexivity.
Qed.

Lemma lacks_app (c : ascii) (a b : string) :
  lacks c (a ++ b) = lacks c a && lacks c b.
Proof.
  induction a as [|x a IH]; cbn [lacks append]; [reflexivity|].
  rewrite IH. apply andb_assoc.
Qed.

Lemma lacks_decimal (c : ascii) (n : N) :
  c = endl \/ c = ","%char -> lacks c (decimal n) = true.
Proof.
  intro Hc. unfold decimal. generalize (N.to_uint n). intro d.
  induction d; cbn [DecimalString.NilEmpty.string_of_uint lacks];
    try reflexivity; rewrite IHd; destruct Hc; subst c; reflexivity.
Qed.

Lemma append_assoc (a b c : string) : (a ++ b) ++ c = a ++ (b ++ c).
Proof.
  induction a as [|x a IH]; cbn [append]; [reflexivity|]. rewrite IH. reflexivity.
Qed.

Lemma csvLine_read (p : string * N) (rest : string) :
  plainName p ->
  upto endl (csvLine p ++ rest) = (fst p ++ "," ++ decimal (snd p), Some rest) /\
  upto "," (fst p ++ "," ++ decimal (snd p)) = (fst p, Some (decimal (snd p))).
Proof.
  intros [Hc He]. split.
  - unfold csvLine.
    replace ((fst p ++ "," ++ decimal (snd p) ++ String endl EmptyString) ++ rest)
      with ((fst p ++ "," ++ decimal (snd p)) ++ String endl rest).
    + apply upto_app. rewrite !lacks_app, He, lacks_decimal by auto. reflexivity.
    + rewrite !append_assoc. reflexivity.
  - apply (upto_app "," (fst p) (decimal (snd p)) Hc).
Qed.

Lemma written_cons (p : string * N) (a : list (string * N)) :
  concat EmptyString (map csvLine (p :: a))
  = csvLine p ++ concat EmptyString (map csvLine a).
Proof.
  cbn [map concat]. destruct (map csvLine a); [|reflexivity].
  cbn [concat]. induction (csvLine p) as [|x s IHs]; [reflexivity|].
  cbn [append]. rewrite <- IHs. reflexivity.
Qed.

Lemma readLines_print (a : list (string * N)) :
  Forall plainName a ->
  forall fuel, (List.length a <= fuel)%nat ->
  readLines fuel (concat EmptyString (map csvLine a)) = Some a.
Proof.
  induction 1 as [|p a Hp _ IH]; intros fuel Hf.
  - destruct fuel; reflexivity.
  - destruct fuel as [|fuel]; [cbn [List.length] in Hf; lia|].
    rewrite written_cons.
    destruct (csvLine_read p (concat EmptyString (map csvLine a)) Hp) as [H1 H2].
    assert (Hne : exists x r, csvLine p ++ concat EmptyString (map csvLine a) = String x r).
    { unfold csvLine. destruct (fst p); cbn [append]; eexists; eexists; reflexivity. }
    destruct Hne as [x [r Hne]]. cbn [readLines]. rewrite Hne, <- Hne, H1, H2.
    unfold decimal at 1. rewrite DecimalString.NilEmpty.usu.
    rewrite IH by (cbn [List.length] in Hf; lia).
    rewrite DecimalN.Unsigned.of_to. destruct p; reflexivity.
Qed.

Lemma length_append (a b : string) :
  String.length (a ++ b) = (String.length a + String.length b)%nat.
Proof.
  induction a as [|x a IH]; cbn [append String.length]; [reflexivity|].
  rewrite IH. reflexivity.
Qed.

Lemma length_print (a : list (string * N)) :
  (List.length a <= String.length (concat EmptyString (map csvLine a)))%nat.
Proof.
  induction a as [|p a IH]; [apply Nat.le_0_l|].
  rewrite written_cons, length_append. cbn [List.length].
  assert (H : (1 <= String.length (csvLine p))%nat).
  { unfold csvLine. rewrite !length_append. cbn [String.length]. lia. }
  lia.
Qed.

(** X19: [print_csv_file] writes to the file named after the output file,
    with [.stats] appended, one line per statistic: its name, a comma, its
    value in decimal.  When no name holds a comma or an end of line, the
    statistics can be read back from what is written, so that different
    lists of statistics give different files. *)
Theorem stats_file_reads_back (outputfile : string) (a : list (string * N)) :
  Forall plainName a ->
  fst (print_csv_file outputfile a) = outputfile ++ ".stats" /\
  read_csv (snd (print_csv_file outputfile a)) = Some a /\
  (forall b, Forall plainName b ->
     snd (print_csv_file outputfile b) = snd (print_csv_file outputfile a) -> b = a).
Proof.
  intro Ha. split; [reflexivity|].
  assert (R : forall c, Forall plainName c ->
                read_csv (snd (print_csv_file outputfile c)) = Some c).
  { intros c Hc. unfold read_csv, print_csv_file. cbn [snd].
    apply (readLines_print c Hc), length_print. }
  split; [apply R, Ha|].
  intros b Hb E. pose proof (R b Hb) as Eb. rewrite E, (R a Ha) in Eb.
  inversion Eb. reflexivity.
Qed.

Lemma stats_file_reads_back_witness :
  print_csv_file "out.bc" [("NumLoops", 3%N); ("LICMBasic", 12%N); ("LICMLoadHoist", 0%N)]
  = ("out.bc.stats",
     "NumLoops,3" ++ String endl ("LICMBasic,12" ++ String endl
       ("LICMLoadHoist,0" ++ String endl EmptyString))) /\
  read_csv (snd (print_csv_file "out.bc"
                   [("NumLoops", 3%N); ("LICMBasic", 12%N); ("LICMLoadHoist", 0%N)]))
  = Some [("NumLoops", 3%N); ("LICMBasic", 12%N); ("LICMLoadHoist", 0%N)].
Proof.
  split; [reflexivity|].
  apply (stats_file_reads_back "out.bc"
           [("NumLoops", 3%N); ("LICMBasic", 12%N); ("LICMLoadHoist", 0%N)]).
  repeat constructor.
Defined.

End StatisticsFileFacts.

(** ** The first run over a loop nest *)

Lemma orderlyLoop_eq (L : Loop) (st : State) :
  orderlyLoop L st =
  match getLoopPreheader L with
  | None => true
  | Some _ =>
      orderlyLoops (getSubLoops L) (count NumLoops st) &&
      match OptimizeLoops (getSubLoops L) (count NumLoops st) with
      | None => false
      | Some st1 => examinedAfterOperands L (body st1)
      end
  end.
Proof.
  destruct L as [[PH|] bs ss]; [|reflexivity].
  cbn [orderlyLoop getLoopPreheader getSubLoops].
  set (L0 := mkLoop (Some PH) bs ss). clearbody L0.
  generalize (count NumLoops st). clear st.
  induction ss as [|s r IH]; intro st; [reflexivity|].
  cbn [orderlyLoops OptimizeLoops]. rewrite <- andb_assoc. f_equal.
  destruct (OptimizeLoop2 s st) as [st'|]; [apply IH | reflexivity].
Qed.

Lemma decision_within (L' L : Loop) (F : list BasicBlock) (i : Instruction) :
  blocksWithin L' L -> contains L' F (ptr i) = true ->
  decision L F i = true -> decision L' F i = true.
Proof.
  intros Hin Hc. unfold decision. destruct (NotALoadOrStore i).
  - intro H. apply andb_prop in H. destruct H as [H H4].
    apply andb_prop in H. destruct H as [H H3].
    apply andb_prop in H. destruct H as [H1 _].
    rewrite Hc, H3, H4, !andb_true_r.
    unfold AreAllOperandsLoopInvaraint in *. rewrite forallb_forall in *.
    intros v Hv. apply (isLoopInvariant_within _ _ _ _ Hin), H1, Hv.
  - destruct (kind i) as [vol a| | | |]; try discriminate.
    unfold CanMoveOutofLoop. destruct (isVolatile i); [discriminate|].
    destruct (isGlobalVariable a); [|discriminate]. cbn [andb].
    destruct (NoPossibleStoresToAddressInLoop L F a) eqn:E; [|discriminate].
    intros _. replace (NoPossibleStoresToAddressInLoop L' F a) with true; [reflexivity|].
    symmetry. revert E. unfold NoPossibleStoresToAddressInLoop.
    rewrite !forallb_forall. intros H b Hb. apply H, Hin, Hb.
Qed.

(** What every run keeps of a well-formed body. *)
Lemma run_sameInsts (st st' : State) :
  run st st' -> wf (body st) ->
  wf (body st') /\
  (forall q, findInst (body st') q = findInst (body st) q) /\
  view isStore (body st') = view isStore (body st) /\
  keepsTerminators (body st) (body st').
Proof.
  intros Hr Hwf. destruct (run_summary _ _ Hr) as [ms Hs].
  pose proof (wf_moved _ _ Hwf (sum_labels _ _ _ Hs) (sum_perm _ _ _ Hs)) as Hwf'.
  split; [exact Hwf'|]. split; [|split].
  - intro q. apply (findInst_perm _ _ q Hwf Hwf' (sum_perm _ _ _ Hs)).
  - apply (sum_frame _ _ _ Hs). intros m Hm.
    apply movable_not_store, (chk_movable m).
    apply (proj1 (Forall_forall _ _) (sum_checked _ _ _ Hs) m Hm).
  - apply (run_keeps _ _ Hr).
Qed.

Lemma settledNest_unaffected (F F' : list BasicBlock) :
  wf F -> wf F' ->
  (forall q, findInst F' q = findInst F q) ->
  view isStore F' = view isStore F ->
  forall L, nestOK L -> unaffected L F F' -> settledNest F L -> settledNest F' L.
Proof.
  intros Hwf Hwf' Hf Hv.
  induction L as [ph bs ss IH] using Loop_forest_ind. intros Hok Hu Hs.
  apply settledNest_unfold in Hs. apply settledNest_unfold.
  cbn [getLoopPreheader getSubLoops] in *.
  destruct ph as [PH|]; [|exact Logic.I]. destruct Hs as [H1 H2].
  inversion Hok as [ph' bs' ss' Hnd Hout Hsub Hincl Hap]; subst. split.
  - apply (settled_unaffected _ F F' Hwf Hwf' Hf Hv Hu H1).
  - rewrite Forall_forall in *. intros s Hs.
    apply (IH s Hs (Hsub s Hs)); [|apply (H2 s Hs)].
    intros b Hb. apply Hu. cbn [getBlocks]. apply (Hincl s Hs b Hb).
Qed.

Lemma settledNest_nil (L : Loop) : settledNest [] L.
Proof.
  induction L as [ph bs ss IH] using Loop_forest_ind.
  apply settledNest_unfold. cbn [getLoopPreheader getSubLoops].
  destruct ph as [PH|]; [|exact Logic.I]. split; [|exact IH].
  intros b j i _ Hj. destruct Hj.
Qed.

(** A property of the placement that every relocation of the sweep of [L]
    keeps holds when the sweep is over. *)
Lemma drain_invariant (Inv : list BasicBlock -> Prop) (L : Loop) (PH : BlockRef) :
  getLoopPreheader L = Some PH ->
  (forall F F' j, wf F -> Inv F -> findInst F (ptr j) = Some j ->
                  decision L F j = true ->
                  moveBeforeTerminator j PH F = Some F' -> Inv F') ->
  forall lcs w st st', wf (body st) -> Inv (body st) ->
    drain L PH lcs w st = Some st' -> Inv (body st').
Proof.
  intros HPH Hstep lcs. induction w as [|p w IH]; intros st st' Hwf Hi H;
    cbn [drain] in H.
  - inversion H; subst. exact Hi.
  - destruct (visit L PH lcs p st) as [st1|] eqn:Ev; [|discriminate].
    apply (IH st1 st' (run_wf _ _ (visit_run _ _ _ _ _ _ HPH Ev) Hwf)); [|exact H].
    destruct (findInst (body st) p) as [i|] eqn:Ef.
    + rewrite (visit_decision _ _ _ _ _ _ HPH Ef) in Ev.
      destruct (decision L (body st) i) eqn:Ed; [|inversion Ev; subst; exact Hi].
      destruct (relocate L i PH st) as [st2|] eqn:Er; [|discriminate].
      inversion Ev; subst. cbn [count body].
      destruct (relocate_inv _ _ _ _ _ Er) as [_ [_ Hmv]].
      apply (Hstep (body st) (body st2) i Hwf Hi); auto.
      rewrite (findInst_ptr _ _ _ Ef). exact Ef.
    + rewrite (visit_absent _ _ _ _ _ Ef) in Ev. inversion Ev; subst. exact Hi.
Qed.

Lemma sweepBlocks_invariant (Inv : list BasicBlock -> Prop) (L : Loop) (PH : BlockRef) :
  getLoopPreheader L = Some PH ->
  (forall F F' j, wf F -> Inv F -> findInst F (ptr j) = Some j ->
                  decision L F j = true ->
                  moveBeforeTerminator j PH F = Some F' -> Inv F') ->
  forall bs lcs st st', wf (body st) -> Inv (body st) ->
    sweepBlocks L PH bs lcs st = Some st' -> Inv (body st').
Proof.
  intros HPH Hstep. induction bs as [|b bs IH]; intros lcs st st' Hwf Hi H;
    cbn [sweepBlocks] in H.
  - inversion H; subst. exact Hi.
  - destruct (sweepBlock L PH b lcs st) as [[st1 l1]|] eqn:Es; [|discriminate].
    pose proof (run_wf _ _ (sweepBlock_run _ _ _ _ _ _ _ HPH Es) Hwf) as Hwf1.
    apply (IH l1 st1 st' Hwf1); [|exact H].
    unfold sweepBlock in Es. cbv zeta in Es.
    match type of Es with
    | match drain ?a ?b ?c ?d ?e with _ => _ end = _ =>
        destruct (drain a b c d e) as [st2|] eqn:Ed; [|discriminate];
        pose proof (drain_invariant Inv a b HPH Hstep c d e st2 Hwf Hi Ed) as Hd
    end.
    inversion Es; subst. exact Hd.
Qed.

(** A relocation made by the sweep of a loop leaves the settled sub-nests of
    the loop settled: what it moves is in none of their blocks. *)
Lemma relocation_keeps_settled (L : Loop) (PH : BlockRef) (ss : list Loop)
  (F F' : list BasicBlock) (j : Instruction) :
  ~ In PH (getBlocks L) ->
  Forall nestOK ss -> Forall (fun s => incl (getBlocks s) (getBlocks L)) ss ->
  wf F -> Forall (settledNest F) ss ->
  findInst F (ptr j) = Some j -> decision L F j = true ->
  moveBeforeTerminator j PH F = Some F' ->
  Forall (settledNest F') ss.
Proof.
  intros Hout Hok Hincl Hwf Hset Hf Hd Hmv.
  pose proof (moveBeforeTerminator_perm _ _ _ _ Hf Hmv) as Hperm.
  pose proof (moveBeforeTerminator_labels _ _ _ _ Hmv) as Hlab.
  pose proof (wf_moved _ _ Hwf Hlab Hperm) as Hwf'.
  pose proof (decision_movable _ _ _ Hd) as Hmo.
  rewrite Forall_forall in *. intros s Hs.
  destruct (getLoopPreheader s) as [PHs|] eqn:EPH;
    [|apply settledNest_unfold; rewrite EPH; exact Logic.I].
  apply (settledNest_unaffected F F' Hwf Hwf'
           (fun q => findInst_perm _ _ q Hwf Hwf' Hperm)
           (moveBeforeTerminator_view isStore _ _ _ _ Hf (movable_not_store _ Hmo) Hmv)
           s (Hok s Hs)); [|apply (Hset s Hs)].
  intros b Hb.
  assert (HbPH : b <> PH) by (intro E; subst b; apply Hout, (Hincl s Hs), Hb).
  unfold moveBeforeTerminator in Hmv.
  destruct (getTerminator F PH); [|discriminate]. injection Hmv as Hmv. subst F'.
  rewrite (moved_loop_block _ _ _ _ Hwf HbPH). apply filter_id.
  intros k Hk. unfold notAt, hasPtr. apply negb_true_iff, N.eqb_neq. intro E.
  pose proof (findInst_blockInsts _ _ _ Hwf Hk) as Hfk. rewrite E, Hf in Hfk.
  inversion Hfk; subst k.
  pose proof (proj1 (settledNest_unfold F s) (Hset s Hs)) as Hst.
  rewrite EPH in Hst. destruct Hst as [Hst _].
  assert (Hc : contains s F (ptr j) = true)
    by (apply (contains_spec _ _ _ Hwf); exists b, j; auto).
  pose proof (decision_within s L F j (Hincl s Hs) Hc Hd) as H1.
  pose proof (Hst b j j Hb Hk Hf) as H2. congruence.
Qed.

Lemma loops_settle (ls : list Loop) :
  Forall settles ls ->
  forall st st0, body st0 = body st -> wf (body st) ->
    Forall nestOK ls -> ForallOrdPairs apart ls ->
    (forall PH, In PH (flat_map preheaders ls) -> getTerminator (body st) PH <> None) ->
    orderlyLoops ls st0 = true ->
    exists st', OptimizeLoops ls st = Some st' /\
                Forall (settledNest (body st')) ls /\
                forall b, (forall s, In s ls -> ~ In b (touched s)) ->
                          blockInsts (body st') b = blockInsts (body st) b.
Proof.
  induction 1 as [|s r Hs _ IH]; intros st st0 E Hwf Hok Hap Ht Ho.
  - exists st. split; [reflexivity|]. split; [constructor | reflexivity].
  - cbn [orderlyLoops] in Ho. apply andb_prop in Ho. destruct Ho as [Ho1 Ho2].
    destruct (OptimizeLoop2 s st0) as [st0'|] eqn:E0; [|discriminate].
    inversion Hok as [|x l Hoks Hokr]; subst.
    inversion Hap as [|x l Haps Hapr]; subst.
    destruct (Hs st st0 E Hwf Hoks
                (fun PH HPH => Ht PH (in_or_app _ _ _ (or_introl HPH))) Ho1)
      as [st1 [E1 [Hset1 Hfr1]]].
    pose proof (OptimizeLoop2_sameCode s st0 st E) as Hsc.
    rewrite E0, E1 in Hsc. cbn [sameCode] in Hsc.
    destruct (run_sameInsts _ _ (OptimizeLoop2_run _ _ _ E1) Hwf)
      as [Hwf1 [Hf1 [Hv1 Hk1]]].
    assert (Ht1 : forall PH, In PH (flat_map preheaders r) ->
                             getTerminator (body st1) PH <> None).
    { intros PH HPH.
      destruct (getTerminator (body st) PH) as [t|] eqn:Et.
      - rewrite (Hk1 PH t Et). discriminate.
      - exfalso. apply (Ht PH); [|exact Et]. cbn [flat_map]. apply in_or_app. auto. }
    destruct (IH st1 st0' Hsc Hwf1 Hokr Hapr Ht1 Ho2) as [st' [E' [Hset' Hfr']]].
    destruct (run_sameInsts _ _ (OptimizeLoops_run _ _ _ E') Hwf1)
      as [Hwf' [Hf' [Hv' Hk']]].
    exists st'. split; [cbn [OptimizeLoops]; rewrite E1; exact E'|]. split.
    + constructor; [|exact Hset'].
      apply (settledNest_unaffected (body st1) (body st') Hwf1 Hwf' Hf' Hv' s Hoks);
        [|exact Hset1].
      intros b Hb. apply Hfr'. intros x Hx Hin.
      rewrite Forall_forall in Haps. apply (proj2 (Haps x Hx) b Hin Hb).
    + intros b Hb. rewrite Hfr'; [apply Hfr1|].
      * apply Hb. left. reflexivity.
      * intros x Hx. apply Hb. right. exact Hx.
Qed.

Lemma nest_settles (L : Loop) : settles L.
Proof.
  induction L as [ph bs ss IH] using Loop_forest_ind.
  intros st st0 E Hwf Hok Ht Ho.
  rewrite OptimizeLoop2_eq. rewrite orderlyLoop_eq in Ho.
  cbn [getLoopPreheader getSubLoops] in *.
  destruct ph as [PH|].
  - inversion Hok as [ph' bs' ss' Hnd Hout Hsub Hincl Hap]; subst.
    specialize (Hout PH eq_refl).
    apply andb_prop in Ho. destruct Ho as [Ho1 Ho2].
    destruct (OptimizeLoops ss (count NumLoops st0)) as [st0a|] eqn:E0; [|discriminate].
    assert (Htss : forall P, In P (flat_map preheaders ss) ->
                             getTerminator (body (count NumLoops st)) P <> None).
    { intros P HP. apply Ht. cbn [preheaders]. apply in_or_app. right. exact HP. }
    destruct (loops_settle ss IH (count NumLoops st) (count NumLoops st0) E Hwf
                Hsub Hap Htss Ho1) as [st1 [E1 [Hset1 Hfr1]]].
    rewrite E1.
    pose proof (OptimizeLoops_sameCode ss
                  (proj2 (Forall_forall _ _) (fun L _ => OptimizeLoop2_sameCode L))
                  (count NumLoops st0) (count NumLoops st) E) as Hsc.
    rewrite E0, E1 in Hsc. cbn [sameCode] in Hsc. rewrite Hsc in Ho2.
    destruct (run_sameInsts _ _ (OptimizeLoops_run _ _ _ E1) Hwf)
      as [Hwf1 [Hf1 [Hv1 Hk1]]].
    cbn [count body] in Hfr1, Hk1, Hf1, Hv1.
    destruct (getTerminator (body st) PH) as [t|] eqn:Et;
      [|exfalso; apply (Ht PH); [left; reflexivity | exact Et]].
    pose proof (Hk1 PH t Et) as Et1.
    set (L := mkLoop (Some PH) bs ss) in *.
    destruct (rewriteLoop_effect L PH t st1 eq_refl Hout Hnd Hwf1 Et1)
      as [st' [Hr [Hwf' [Hf' [Hv' [Hk' [Hun' Hst']]]]]]].
    exists st'. split; [exact Hr|]. split.
    + apply settledNest_unfold. cbn [L getLoopPreheader getSubLoops].
      split; [apply Hst', Ho2|].
      unfold rewriteLoop in Hr.
      apply (sweepBlocks_invariant (fun F => Forall (settledNest F) ss) L PH eq_refl)
        with (bs := getBlocks L) (lcs := false) (st := st1); auto.
      intros F F' j HwfF HI Hfj Hd Hmv.
      apply (relocation_keeps_settled L PH ss F F' j Hout Hsub Hincl HwfF HI Hfj Hd Hmv).
    + intros b Hb. unfold touched in Hb. cbn [L getBlocks preheaders] in Hb.
      assert (Hb1 : ~ In b bs) by (intro H; apply Hb, in_or_app; auto).
      assert (Hb2 : b <> PH)
        by (intro H; subst; apply Hb, in_or_app; right; left; reflexivity).
      rewrite (Hun' (mkLoop None [b] [])).
      * apply Hfr1. intros s Hs Hin. unfold touched in Hin.
        apply in_app_or in Hin. destruct Hin as [Hin|Hin].
        -- rewrite Forall_forall in Hincl. apply Hb1, (Hincl s Hs), Hin.
        -- apply Hb, in_or_app. right. right. apply in_flat_map. exists s. auto.
      * intros x Hx [Hxb|[]]. subst x. exact (Hb1 Hx).
      * intros [H|[]]. exact (Hb2 H).
      * left. reflexivity.
  - eexists. split; [reflexivity|]. split; [exact Logic.I | reflexivity].
Qed.

Lemma orderly_function_runs (f : Function) (g : Global) :
  orderlyFunction f ->
  exists f1 g1, runOnFunction f g = Some (f1, g1) /\ settledFunction f1.
Proof.
  intros [Hwf [Hok [Hap [Ht Ho]]]]. unfold runOnFunction.
  destruct (fbody f) as [|B F] eqn:E.
  - exists f, g. split; [reflexivity|].
    unfold settledFunction. rewrite E. apply Forall_forall. intros L _.
    apply settledNest_nil.
  - destruct (loops_settle (floops f)
                (proj2 (Forall_forall _ _) (fun L _ => nest_settles L))
                (mkState (B :: F) (gstats g) (ghist g))
                (mkState (B :: F) zeroStats []) eq_refl Hwf Hok Hap Ht Ho)
      as [st1 [E1 [Hset _]]].
    rewrite E1.
    exists (mkFunction (body st1) (floops f)), (mkGlobal (stats st1) (hist st1)).
    split; [reflexivity | exact Hset].
Qed.

Lemma orderly_module_runs (M : Module) :
  Forall orderlyFunction M ->
  forall g, exists M1 g1,
    RunLICMBasic M g = Some (M1, g1) /\ Forall settledFunction M1.
Proof.
  induction 1 as [|f M Hf _ IH]; intro g.
  - exists [], g. split; [reflexivity | constructor].
  - destruct (orderly_function_runs f g Hf) as [f1 [g1 [E1 H1]]].
    destruct (IH g1) as [M1 [g2 [E2 H2]]].
    exists (f1 :: M1), g2. split; [simpl; rewrite E1, E2; reflexivity|].
    constructor; assumption.
Qed.

(** ** Running the pass twice *)

(** C8, amended: running the pass twice gives the placement of running it
    once on every module the first run goes through in order.  The functions
    have distinct blocks and instruction objects; the loop nests are as
    [LoopInfo] builds them (a preheader outside its loop, sub-loops within
    their loop, nests beside each other without a common block or a
    preheader in each other); the preheaders end in a terminator; and each
    sweep of the first run examines every instruction it could relocate,
    loads apart, after the relocatable instructions of the loop that it
    uses.  Then the first run goes through and leaves every loop it visits
    settled, and the second run returns the same module and relocates
    nothing.  Loops may be nested and may hold phis, loop-carried ones
    included. *)
Theorem second_run_changes_nothing (M : Module) (g : Global) :
  Forall orderlyFunction M ->
  exists M1 g1 g2,
    LoopInvariantCodeMotion M g = Some (M1, g1) /\
    Forall settledFunction M1 /\
    LoopInvariantCodeMotion M1 g1 = Some (M1, g2) /\
    ghist g2 = ghist g1 /\
    relocations g1 g2 = [].
Proof.
  intro H. unfold LoopInvariantCodeMotion at 1.
  destruct (orderly_module_runs M H
              (mkGlobal (decr LICMLoadHoist (incr LICMLoadHoist (gstats g))) (ghist g)))
    as [M1 [g1 [E1 H1]]].
  destruct (settled_module_runs M1 H1
              (mkGlobal (decr LICMLoadHoist (incr LICMLoadHoist (gstats g1))) (ghist g1)))
    as [g2 [E2 Hh]].
  cbn [ghist] in Hh.
  exists M1, g1, g2. split; [exact E1|]. split; [exact H1|].
  split; [exact E2|]. split; [exact Hh|].
  unfold relocations. rewrite Hh. apply (newMoves_app [] (ghist g1)).
Qed.

Lemma second_run_changes_nothing_witness :
  exists M1 g1 g2,
    LoopInvariantCodeMotion ordered_module startGlobal = Some (M1, g1) /\
    Forall settledFunction M1 /\
    LoopInvariantCodeMotion M1 g1 = Some (M1, g2) /\
    ghist g2 = ghist g1 /\
    relocations g1 g2 = [].
Proof.
  apply (second_run_changes_nothing ordered_module startGlobal).
  assert (Hone : forall ph bs, NoDup bs -> (forall PH, ph = Some PH -> ~ In PH bs) ->
                               nestOK (mkLoop ph bs [])).
  { intros ph bs H1 H2. apply nestOK_intro; auto; constructor. }
  constructor; [|constructor; [|constructor]].
  - split; [|split; [|split; [|split]]].
    + split; vm_compute; repeat constructor; simpl; intuition discriminate.
    + constructor; [|constructor]. apply nestOK_intro.
      * repeat constructor; simpl; intuition discriminate.
      * intros PH E. inversion E; subst. simpl. intuition discriminate.
      * constructor; [|constructor]. apply Hone.
        -- repeat constructor; simpl; tauto.
        -- intros PH E. inversion E; subst. simpl. intuition discriminate.
      * constructor; [|constructor]. intros b Hb. simpl in *. tauto.
      * repeat constructor.
    + repeat constructor.
    + intros PH HPH. simpl in HPH.
      destruct HPH as [E|[E|[]]]; subst PH; vm_compute; discriminate.
    + vm_compute. reflexivity.
  - split; [|split; [|split; [|split]]].
    + split; vm_compute; repeat constructor; simpl; intuition discriminate.
    + constructor; [|constructor]. apply Hone.
      * repeat constructor; simpl; tauto.
      * intros PH E. inversion E; subst. simpl. intuition discriminate.
    + repeat constructor.
    + intros PH HPH. simpl in HPH.
      destruct HPH as [E|[]]; subst PH; vm_compute; discriminate.
    + vm_compute. reflexivity.
Defined.

(** The loop of [chain_body], where a second run hoists more, is not swept
    in order; the first run over [ordered_module] relocates the load of
    [twice_body] twice and the product of [phi_body] once. *)
Lemma order_of_the_examples :
  orderlyLoops [one_block_loop] (mkState chain_body zeroStats []) = false /\
  exists M1 g1,
    LoopInvariantCodeMotion ordered_module startGlobal = Some (M1, g1) /\
    map (fun m => ptr (mv_inst m)) (relocations startGlobal g1) = [12%N; 10%N; 10%N].
Proof.
  split; [vm_compute; reflexivity|].
  eexists. eexists. split; vm_compute; reflexivity.
Qed.
